(** * Out-of-order sequence reconstruction: the block-cutter [Scheduler]
      and the endorser's [ProposalOrderer]

    Shallow embedding of
      - [blockcutter.Scheduler] ([NewScheduler], [Schedule], [Cut]);
      - [endorser.ProposalOrderer] ([Push], [SendProposalsInOrder], [Pop]),
        [NewUnpackedProposalWrapper] and the [PriorityQueue] it is built on,
        together with the [container/heap] routines of the Go standard
        library that drive the queue;
      - the [ConnectionHandler] fake ([Stream] and the methods that
        configure and inspect it);
      - the session store [txmgr.VisibleDB] and [txmgr.SessionDB];
      - the pure helpers of [externalbuilder]
        ([appendDefaultPropagateEnvironment], [contains], the environment
        built by [NewCommand], [SanitizeCCIDPath]).

    Conventions.
      - Go [int] is a 64-bit two's complement integer: arithmetic on sequence
        numbers goes through [wrap_int].  [uint32] arithmetic goes through
        [wrap_uint32].
      - A call either returns, or panics ([logger.Panicf], a runtime panic).
        Loops are run with explicit fuel; [OutOfFuel] is a third outcome that
        the theorems below show is never reached.
      - The fill-duration metric and the wall clock ([pendingBatchStartTime],
        [time.Now], [BlockFillDuration]) only observe; they influence neither
        the control flow nor the data and are left out of the state. *)

From Stdlib Require Import ZArith Lia Ascii String Zify ZifyClasses ZifyNat.
From Stdlib Require Import Sorted.
From stdpp Require Import base tactics option list gmap strings.

Local Open Scope Z_scope.

(** ** Machine integers *)

Definition wrap_uint32 (z : Z) : Z := z mod 2 ^ 32.

Definition wrap_int (z : Z) : Z := (z + 2 ^ 63) mod 2 ^ 64 - 2 ^ 63.

Definition max_int : Z := 2 ^ 63 - 1.
Definition min_int : Z := - 2 ^ 63.

(** ** Outcomes of a call *)

Inductive outcome (A : Type) : Type :=
| Returns (a : A)
| Panics
| OutOfFuel.

Arguments Returns {A} a.
Arguments Panics {A}.
Arguments OutOfFuel {A}.

#[global] Instance outcome_ret : MRet outcome := fun A a => Returns a.

#[global] Instance outcome_bind : MBind outcome := fun A B f c =>
  match c with
  | Returns a => f a
  | Panics => Panics
  | OutOfFuel => OutOfFuel
  end.

(** ** The batch cutter *)

(** [orderer.BatchSize], the limits handed to every [Schedule] call. *)
Record BatchSize : Type := mkBatchSize {
  MaxMessageCount : Z;
  AbsoluteMaxBytes : Z;
  PreferredMaxBytes : Z
}.

Section Blockcutter.

(** [cb.Envelope] is an opaque payload; [messageSizeBytes] (a [uint32]) and
    [util.ParseCustomTXID] (an [int] and an [error]) are collaborators of
    the scheduler and are taken as parameters. *)
Variable Envelope : Type.
Variable messageSizeBytes : Envelope -> Z.
Variable ParseCustomTXID : string -> Z * option string.

Record Scheduler : Type := mkScheduler {
  envelopes : gmap Z Envelope;
  startSequence : Z;
  nextSequence : Z;
  batchSize : Z
}.

Definition NewScheduler : Scheduler :=
  {| envelopes := ∅; startSequence := 0; nextSequence := 0; batchSize := 0 |}.

Definition set_envelopes (s : Scheduler) (e : gmap Z Envelope) : Scheduler :=
  {| envelopes := e; startSequence := startSequence s;
     nextSequence := nextSequence s; batchSize := batchSize s |}.

Definition set_startSequence (s : Scheduler) (v : Z) : Scheduler :=
  {| envelopes := envelopes s; startSequence := v;
     nextSequence := nextSequence s; batchSize := batchSize s |}.

Definition set_nextSequence (s : Scheduler) (v : Z) : Scheduler :=
  {| envelopes := envelopes s; startSequence := startSequence s;
     nextSequence := v; batchSize := batchSize s |}.

Definition set_batchSize (s : Scheduler) (v : Z) : Scheduler :=
  {| envelopes := envelopes s; startSequence := startSequence s;
     nextSequence := nextSequence s; batchSize := v |}.

(** A batch is a slice of envelope pointers; [None] is the nil pointer that
    reading a missing map key yields. *)
Definition Batch : Type := list (option Envelope).

(** The body of the [for i := start; i < end; i++] loop of [Cut], folded over
    the indices it visits. *)
Definition cut_step (acc : Batch * gmap Z Envelope) (i : Z)
  : Batch * gmap Z Envelope :=
  (acc.1 ++ [acc.2 !! i], delete i acc.2).

Definition cut_loop (envs : gmap Z Envelope) (idx : list Z)
  : Batch * gmap Z Envelope :=
  foldl cut_step ([], envs) idx.

(** [Scheduler.Cut]: panics when [start >= end]; [make] panics on a negative
    capacity. *)
Definition Cut (s : Scheduler) (end_ : Z) : outcome (Batch * Scheduler) :=
  let start := startSequence s in
  if bool_decide (start >= end_) then Panics
  else if bool_decide (wrap_int (end_ - start) < 0) then Panics
  else
    let r := cut_loop (envelopes s) (seqZ start (end_ - start)) in
    Returns (r.1, set_startSequence (set_envelopes s r.2) end_).

(** One iteration of the drain loop of [Schedule], after the existence test
    (lines 51-94): [msg] is the envelope passed to the enclosing call. *)
Definition release_one (msg : Envelope) (bs : BatchSize)
    (messageBatches : list Batch) (s : Scheduler)
  : outcome (list Batch * Scheduler) :=
  let s := set_nextSequence s (wrap_int (nextSequence s + 1)) in
  let messageSize := messageSizeBytes msg in
  let newBatchSize := wrap_uint32 (batchSize s + messageSize) in
  '(messageBatches, s) ←
    (if bool_decide (newBatchSize < PreferredMaxBytes bs) then
       Returns (messageBatches, set_batchSize s newBatchSize)
     else if bool_decide (newBatchSize > PreferredMaxBytes bs) then
       if bool_decide (wrap_int (nextSequence s - startSequence s) = 1) then
         '(batch, s) ← Cut s (nextSequence s);
         Returns (messageBatches ++ [batch], set_batchSize s 0)
       else
         '(batch1, s) ← Cut s (wrap_int (nextSequence s - 1));
         let messageBatches := messageBatches ++ [batch1] in
         if bool_decide (messageSize >= PreferredMaxBytes bs) then
           '(batch2, s) ← Cut s (nextSequence s);
           Returns (messageBatches ++ [batch2], set_batchSize s 0)
         else
           Returns (messageBatches, set_batchSize s messageSize)
     else
       '(batch, s) ← Cut s (nextSequence s);
       Returns (messageBatches ++ [batch], set_batchSize s 0));
  if bool_decide
       (wrap_uint32 (wrap_int (nextSequence s - startSequence s))
        >= MaxMessageCount bs) then
    '(batch, s) ← Cut s (nextSequence s);
    Returns (messageBatches ++ [batch], set_batchSize s 0)
  else
    Returns (messageBatches, s).

(** The [for { ... }] loop of [Schedule] (lines 45-95). *)
Fixpoint drain (fuel : nat) (msg : Envelope) (bs : BatchSize)
    (messageBatches : list Batch) (s : Scheduler)
  : outcome (list Batch * Scheduler) :=
  match fuel with
  | O => OutOfFuel
  | S fuel =>
      match envelopes s !! nextSequence s with
      | None => Returns (messageBatches, s)
      | Some _ =>
          '(messageBatches, s) ← release_one msg bs messageBatches s;
          drain fuel msg bs messageBatches s
      end
  end.

(** [Schedule] with the sequence already derived from the identifier. *)
Definition ScheduleSeq (s : Scheduler) (msg : Envelope) (txSequence : Z)
    (bs : BatchSize) : outcome (list Batch * bool * Scheduler) :=
  let messageBatches := [] in
  let s := set_envelopes s (<[txSequence := msg]> (envelopes s)) in
  '(messageBatches, s) ←
    (if bool_decide (nextSequence s = txSequence) then
       drain (S (size (envelopes s))) msg bs messageBatches s
     else Returns (messageBatches, s));
  let pending := bool_decide (0 < size (envelopes s))%nat in
  Returns (messageBatches, pending, s).

(** [Scheduler.Schedule]: the error of [ParseCustomTXID] is dropped. *)
Definition Schedule (s : Scheduler) (msg : Envelope) (txID : string)
    (bs : BatchSize) : outcome (list Batch * bool * Scheduler) :=
  let '(txSequence, _) := ParseCustomTXID txID in
  ScheduleSeq s msg txSequence bs.

End Blockcutter.

Arguments envelopes {Envelope} s.
Arguments startSequence {Envelope} s.
Arguments nextSequence {Envelope} s.
Arguments batchSize {Envelope} s.
Arguments mkScheduler {Envelope} _ _ _ _.
Arguments NewScheduler {Envelope}.
Arguments set_envelopes {Envelope} s e.
Arguments set_startSequence {Envelope} s v.
Arguments set_nextSequence {Envelope} s v.
Arguments set_batchSize {Envelope} s v.
Arguments cut_step {Envelope} acc i.
Arguments cut_loop {Envelope} envs idx.
Arguments Cut {Envelope} s end_.
Arguments release_one {Envelope} messageSizeBytes msg bs messageBatches s.
Arguments drain {Envelope} messageSizeBytes fuel msg bs messageBatches s.
Arguments ScheduleSeq {Envelope} messageSizeBytes s msg txSequence bs.
Arguments Schedule {Envelope} messageSizeBytes ParseCustomTXID s msg txID bs.

(** ** Runs of the batch cutter and the vocabulary of its properties *)

Section BlockcutterRuns.

Context {Envelope : Type}.
Variable messageSizeBytes : Envelope -> Z.
Variable ParseCustomTXID : string -> Z * option string.

(** A caller feeding [Schedule] one input after the other, collecting the
    batches in the order they are handed back. *)
Fixpoint run (s : Scheduler Envelope)
    (inputs : list (Envelope * string * BatchSize))
  : outcome (list (Batch Envelope) * Scheduler Envelope) :=
  match inputs with
  | [] => Returns ([], s)
  | (msg, txID, bs) :: rest =>
      '(batches, _, s) ← Schedule messageSizeBytes ParseCustomTXID s msg txID bs;
      '(later, s) ← run s rest;
      Returns (batches ++ later, s)
  end.

(** The sequence number an input is filed under. *)
Definition sequence_of (i : Envelope * string * BatchSize) : Z :=
  (ParseCustomTXID i.1.2).1.

(** The slots [a, b) of the envelope map, in sequence order. *)
Definition range_items (envs : gmap Z Envelope) (a b : Z)
  : list (option Envelope) :=
  (λ i, envs !! i) <$> seqZ a (b - a).

(** The state [Cut] leaves behind and the batch it returns. *)
Definition cut_state (s : Scheduler Envelope) (e : Z) : Scheduler Envelope :=
  set_startSequence
    (set_envelopes s
       (cut_loop (envelopes s) (seqZ (startSequence s) (e - startSequence s))).2)
    e.

Definition cut_batch (s : Scheduler Envelope) (e : Z) : Batch Envelope :=
  (cut_loop (envelopes s) (seqZ (startSequence s) (e - startSequence s))).1.

(** Bookkeeping that every reachable scheduler state satisfies: the counters
    are ordered and stay below the largest [int], and the released but not
    yet cut slots [startSequence, nextSequence) are all stored. *)
Record wf (s : Scheduler Envelope) : Prop := mkWf {
  wf_start : 0 ≤ startSequence s;
  wf_order : startSequence s ≤ nextSequence s;
  wf_next : nextSequence s ≤ max_int;
  wf_keys : ∀ k, is_Some (envelopes s !! k) → k < max_int;
  wf_region : ∀ k, startSequence s ≤ k < nextSequence s →
                   is_Some (envelopes s !! k)
}.

(** [advance s s' new]: going from [s] to [s'] the batches [new] were cut;
    they hold exactly the slots between the two start boundaries, and those
    slots are the only change to the map. *)
Record advance (s s' : Scheduler Envelope) (new : list (Batch Envelope))
  : Prop := mkAdvance {
  adv_start : startSequence s ≤ startSequence s';
  adv_items : concat new =
              range_items (envelopes s) (startSequence s) (startSequence s');
  adv_envs : ∀ k, envelopes s' !! k =
                  if bool_decide (startSequence s ≤ k < startSequence s')
                  then None else envelopes s !! k
}.

(** The envelopes stored at the slots [a, b), in sequence order. *)
Definition stored (envs : gmap Z Envelope) (a b : Z) : list Envelope :=
  omap id (range_items envs a b).

(** The envelope scheduled under each sequence number. *)
Definition scheduled (inputs : list (Envelope * string * BatchSize))
  : gmap Z Envelope :=
  list_to_map ((λ i, (sequence_of i, i.1.1)) <$> inputs).

(** The state of a scheduler fed with distinct sequence numbers, none of
    them negative: [M] is everything scheduled so far and [emitted] the
    batches handed back so far. *)
Record dense_inv (M : gmap Z Envelope) (emitted : list (Batch Envelope))
    (s : Scheduler Envelope) : Prop := mkDense {
  di_wf : wf s;
  di_gap : envelopes s !! nextSequence s = None;
  di_emitted : concat emitted = range_items M 0 (startSequence s);
  di_envs : ∀ j, envelopes s !! j =
                 if bool_decide (j < startSequence s) then None else M !! j;
  di_prefix : ∀ j, 0 ≤ j < nextSequence s → is_Some (M !! j);
  di_range : ∀ j, is_Some (M !! j) → 0 ≤ j < max_int
}.

(** The count bookkeeping between two released items: fewer than
    [MaxMessageCount] slots are accumulated, and the byte accumulator is zero
    whenever nothing is accumulated. *)
Definition count_ok (bs : BatchSize) (s : Scheduler Envelope) : Prop :=
  nextSequence s - startSequence s < MaxMessageCount bs ∧
  (startSequence s = nextSequence s → batchSize s = 0).

Definition within_count (bs : BatchSize) (b : Batch Envelope) : Prop :=
  Z.of_nat (length b) ≤ MaxMessageCount bs.

(** The stored sequence numbers the drain loop has not passed yet. *)
Definition ahead (s : Scheduler Envelope) : gset Z :=
  filter (λ k, nextSequence s ≤ k) (dom (envelopes s)).

(** Total byte size of a batch. *)
Definition batch_bytes (b : Batch Envelope) : Z :=
  foldr (λ o acc, from_option messageSizeBytes 0 o + acc) 0 b.

(** No slot of the map holds the envelope [x]. *)
Definition absent (x : Envelope) (envs : gmap Z Envelope) : Prop :=
  ∀ j, envs !! j ≠ Some x.

(** The byte bound on an emitted batch: at most [PreferredMaxBytes], or a
    single envelope. *)
Definition within_bytes (bs : BatchSize) (b : Batch Envelope) : Prop :=
  batch_bytes b ≤ PreferredMaxBytes bs ∨ length b = 1%nat.

(** The byte bookkeeping of a scheduler that is fed in sequence order: the
    map holds the forming batch and nothing else, the accumulator is the
    byte size of the forming batch, and a non-empty forming batch is below
    the preferred size. *)
Record inorder_inv (bs : BatchSize) (s : Scheduler Envelope) : Prop :=
  mkInorder {
  io_wf : wf s;
  io_compact : ∀ k, is_Some (envelopes s !! k) →
                    startSequence s ≤ k < nextSequence s;
  io_bytes : batchSize s =
             batch_bytes
               (range_items (envelopes s) (startSequence s) (nextSequence s));
  io_below : startSequence s = nextSequence s ∨
             batchSize s < PreferredMaxBytes bs;
  io_pos : 0 ≤ batchSize s
}.

(** A batch worth handing back: not empty, and without a nil envelope. *)
Definition proper (b : Batch Envelope) : Prop :=
  b ≠ [] ∧ Forall is_Some b.

(** The byte accumulator is zero or below the preferred size. *)
Definition below (bs : BatchSize) (s : Scheduler Envelope) : Prop :=
  batchSize s = 0 ∨ batchSize s < PreferredMaxBytes bs.

End BlockcutterRuns.

(** ** The ordered dispatcher *)

Module endorser.

Section Endorser.

(** [UnpackedProposal] and [pb.ProposalResponse] are opaque here; [TxId]
    stands for the field path [up.ChannelHeader.TxId]. *)
Variable UnpackedProposal : Type.
Variable ProposalResponse : Type.
Variable TxId : UnpackedProposal -> string.
Variable ParseCustomTXID : string -> Z * option string.

(** [UnpackedProposalWrapper].  The field [Proposal] is the Go field
    [UnpackedProposal]; [doneCh] is a rendezvous and carries no data. *)
Record UnpackedProposalWrapper : Type := mkWrapper {
  Proposal : UnpackedProposal;
  Sequence : Z;
  Response : option ProposalResponse;
  Err : option string
}.

(** [NewUnpackedProposalWrapper]: the error of [ParseCustomTXID] is
    dropped. *)
Definition NewUnpackedProposalWrapper (up : UnpackedProposal)
  : UnpackedProposalWrapper :=
  let '(sequence, _) := ParseCustomTXID (TxId up) in
  {| Proposal := up; Sequence := sequence; Response := None; Err := None |}.

(** *** [PriorityQueue], a slice driven through [heap.Interface] *)

Local Abbreviation PriorityQueue := (list UnpackedProposalWrapper).

(** Indexing a slice panics out of range. *)
Definition index (pq : PriorityQueue) (i : nat)
  : outcome UnpackedProposalWrapper :=
  match pq !! i with
  | Some x => Returns x
  | None => Panics
  end.

Definition Len (pq : PriorityQueue) : nat := length pq.

Definition Less (pq : PriorityQueue) (i j : nat) : outcome bool :=
  x ← index pq i;
  y ← index pq j;
  Returns (bool_decide (Sequence x < Sequence y)).

Definition Swap (pq : PriorityQueue) (i j : nat) : outcome PriorityQueue :=
  x ← index pq i;
  y ← index pq j;
  Returns (<[j := x]> (<[i := y]> pq)).

Definition Push (pq : PriorityQueue) (item : UnpackedProposalWrapper)
  : PriorityQueue :=
  pq ++ [item].

Definition Pop (pq : PriorityQueue)
  : outcome (UnpackedProposalWrapper * PriorityQueue) :=
  let n := length pq in
  item ← index pq (n - 1);
  Returns (item, take (n - 1) pq).

(** *** [container/heap] of the Go standard library

    [up] and [down] are its two sifting loops, [heap_Push] and [heap_Pop]
    its exported [Push] and [Pop].  Indices are naturals: the parent
    [(j - 1) / 2] of the root is the root itself both here and with Go's
    truncating division. *)

Fixpoint up (fuel : nat) (h : PriorityQueue) (j : nat)
  : outcome PriorityQueue :=
  match fuel with
  | O => OutOfFuel
  | S fuel =>
      let i := ((j - 1) / 2)%nat in
      if bool_decide (i = j) then Returns h
      else
        less ← Less h j i;
        if negb less then Returns h
        else
          h ← Swap h i j;
          up fuel h i
  end.

Fixpoint down (fuel : nat) (h : PriorityQueue) (i0 i n : nat)
  : outcome (PriorityQueue * bool) :=
  match fuel with
  | O => OutOfFuel
  | S fuel =>
      let j1 := (2 * i + 1)%nat in
      if bool_decide (n ≤ j1)%nat then Returns (h, bool_decide (i0 < i)%nat)
      else
        let j2 := (j1 + 1)%nat in
        j ← (if bool_decide (j2 < n)%nat then
               less ← Less h j2 j1;
               Returns (if less : bool then j2 else j1)
             else Returns j1);
        less ← Less h j i;
        if negb less then Returns (h, bool_decide (i0 < i)%nat)
        else
          h ← Swap h i j;
          down fuel h i0 j n
  end.

Definition heap_Push (h : PriorityQueue) (x : UnpackedProposalWrapper)
  : outcome PriorityQueue :=
  let h := Push h x in
  up (Len h) h (Len h - 1).

Definition heap_Pop (h : PriorityQueue)
  : outcome (UnpackedProposalWrapper * PriorityQueue) :=
  let n := (Len h - 1)%nat in
  h ← Swap h 0 n;
  '(h, _) ← down (Len h) h 0 0 n;
  Pop h.

(** *** [ProposalOrderer]

    [processCh] holds the wrappers sent and not yet received, oldest first;
    [trySendCh] counts the buffered signals.  The mutex makes the body of
    [Push] up to the unlock and each pass of the worker atomic. *)
Record ProposalOrderer : Type := mkOrderer {
  nextSequence : Z;
  queue : PriorityQueue;
  processCh : list UnpackedProposalWrapper;
  trySendCh : nat
}.

Definition NewProposalOrderer : ProposalOrderer :=
  {| nextSequence := 0; queue := []; processCh := []; trySendCh := 0 |}.

(** Capacity of both channels. *)
Definition channel_capacity : nat := Z.to_nat 100000.

(** The inner loop of [SendProposalsInOrder] (lines 77-81). *)
Fixpoint send_loop (fuel : nat) (po : ProposalOrderer)
  : outcome ProposalOrderer :=
  match fuel with
  | O => OutOfFuel
  | S fuel =>
      match queue po with
      | [] => Returns po
      | first :: _ =>
          if bool_decide (Sequence first = nextSequence po) then
            '(upw, q) ← heap_Pop (queue po);
            send_loop fuel
              {| nextSequence := wrap_int (nextSequence po + 1);
                 queue := q;
                 processCh := processCh po ++ [upw];
                 trySendCh := trySendCh po |}
          else Returns po
      end
  end.

(** One pass of the worker's [select]: take a signal, then drain under
    the lock.  Without a signal the worker stays blocked. *)
Definition SendProposalsInOrder (po : ProposalOrderer)
  : outcome ProposalOrderer :=
  match trySendCh po with
  | O => Returns po
  | S signals =>
      send_loop (S (Len (queue po)))
        {| nextSequence := nextSequence po; queue := queue po;
           processCh := processCh po; trySendCh := signals |}
  end.

(** [Push] up to the unlock (lines 88-90). *)
Definition Push_locked (po : ProposalOrderer) (upw : UnpackedProposalWrapper)
  : outcome ProposalOrderer :=
  q ← heap_Push (queue po) upw;
  Returns {| nextSequence := nextSequence po; queue := q;
             processCh := processCh po; trySendCh := trySendCh po |}.

(** The signal that ends [Push] (line 92); it blocks while the channel is
    full. *)
Definition Push_signal (po : ProposalOrderer) : option ProposalOrderer :=
  if bool_decide (trySendCh po < channel_capacity)%nat then
    Some {| nextSequence := nextSequence po; queue := queue po;
            processCh := processCh po; trySendCh := S (trySendCh po) |}
  else None.

(** [ProposalOrderer.Pop]: receive from [processCh]; blocks while empty. *)
Definition Pop_received (po : ProposalOrderer)
  : option (UnpackedProposalWrapper * ProposalOrderer) :=
  match processCh po with
  | [] => None
  | upw :: rest =>
      Some (upw, {| nextSequence := nextSequence po; queue := queue po;
                    processCh := rest; trySendCh := trySendCh po |})
  end.

(** *** Interleavings

    Producers, the worker and the consumer run concurrently; the mutex and
    the channels cut their code into the four atomic steps below.  A system
    state adds to the orderer the number of producers that have left the
    critical section of [Push] and not signalled yet, and the wrappers the
    consumer has received so far.  A step that is not enabled (a blocked
    goroutine) leaves the state as it is. *)
Inductive event : Type :=
| EvPush (upw : UnpackedProposalWrapper)
| EvSignal
| EvWorker
| EvPop.

Record system : Type := mkSystem {
  orderer : ProposalOrderer;
  signalling : nat;
  received : list UnpackedProposalWrapper
}.

Definition NewSystem : system :=
  {| orderer := NewProposalOrderer; signalling := 0; received := [] |}.

Definition step (sys : system) (ev : event) : outcome system :=
  match ev with
  | EvPush upw =>
      po ← Push_locked (orderer sys) upw;
      Returns {| orderer := po; signalling := S (signalling sys);
                 received := received sys |}
  | EvSignal =>
      match signalling sys, Push_signal (orderer sys) with
      | S k, Some po =>
          Returns {| orderer := po; signalling := k;
                     received := received sys |}
      | _, _ => Returns sys
      end
  | EvWorker =>
      po ← SendProposalsInOrder (orderer sys);
      Returns {| orderer := po; signalling := signalling sys;
                 received := received sys |}
  | EvPop =>
      match Pop_received (orderer sys) with
      | Some (upw, po) =>
          Returns {| orderer := po; signalling := signalling sys;
                     received := received sys ++ [upw] |}
      | None => Returns sys
      end
  end.

Fixpoint exec (sys : system) (trace : list event) : outcome system :=
  match trace with
  | [] => Returns sys
  | ev :: trace => sys ← step sys ev; exec sys trace
  end.

(** The wrappers a trace pushes, in the order of their critical
    sections. *)
Definition pushed (trace : list event) : list UnpackedProposalWrapper :=
  omap (λ ev, match ev with EvPush upw => Some upw | _ => None end) trace.

(** Everything the worker has dispatched so far, in dispatch order. *)
Definition dispatched (sys : system) : list UnpackedProposalWrapper :=
  received sys ++ processCh (orderer sys).

(** The heap order on the backing slice: no element is smaller than its
    parent. *)
Definition is_heap (h : PriorityQueue) : Prop :=
  ∀ c x y, (0 < c)%nat → h !! c = Some x → h !! ((c - 1) / 2)%nat = Some y →
           Sequence y ≤ Sequence x.

(** What the sifting loops maintain: the heap order everywhere but at one
    index, where the element may still have to move up ([up_inv]) or down
    ([down_inv], within the first [n] elements). *)
Definition up_inv (h : PriorityQueue) (j : nat) : Prop :=
  (∀ c x y, (0 < c)%nat → c ≠ j →
     h !! c = Some x → h !! ((c - 1) / 2)%nat = Some y →
     Sequence y ≤ Sequence x) ∧
  (∀ c x y, (0 < c)%nat → ((c - 1) / 2)%nat = j → (0 < j)%nat →
     h !! c = Some x → h !! ((j - 1) / 2)%nat = Some y →
     Sequence y ≤ Sequence x).

Definition heap_upto (h : PriorityQueue) (n : nat) : Prop :=
  ∀ c x y, (0 < c < n)%nat →
    h !! c = Some x → h !! ((c - 1) / 2)%nat = Some y →
    Sequence y ≤ Sequence x.

Definition down_inv (h : PriorityQueue) (i n : nat) : Prop :=
  (∀ c x y, (0 < c < n)%nat → ((c - 1) / 2)%nat ≠ i →
     h !! c = Some x → h !! ((c - 1) / 2)%nat = Some y →
     Sequence y ≤ Sequence x) ∧
  (∀ c x y, (0 < c < n)%nat → ((c - 1) / 2)%nat = i → (0 < i)%nat →
     h !! c = Some x → h !! ((i - 1) / 2)%nat = Some y →
     Sequence y ≤ Sequence x).

(** What holds of every reachable system state; [P] lists the wrappers
    pushed so far. *)
Record po_inv (P : list UnpackedProposalWrapper) (sys : system)
  : Prop := mkPoInv {
  inv_heap : is_heap (queue (orderer sys));
  inv_perm : dispatched sys ++ queue (orderer sys) ≡ₚ P;
  inv_seq : Sequence <$> dispatched sys
            = seqZ 0 (nextSequence (orderer sys));
  inv_next : 0 ≤ nextSequence (orderer sys);
  inv_signal :
    (0 < trySendCh (orderer sys) + signalling sys)%nat ∨
    ∀ x, queue (orderer sys) !! 0%nat = Some x →
         Sequence x ≠ nextSequence (orderer sys)
}.

End Endorser.

(** [type PriorityQueue []*UnpackedProposalWrapper] *)
Abbreviation PriorityQueue U R := (list (UnpackedProposalWrapper U R)).

Arguments mkWrapper {UnpackedProposal ProposalResponse} _ _ _ _.
Arguments Proposal {UnpackedProposal ProposalResponse} _.
Arguments Sequence {UnpackedProposal ProposalResponse} _.
Arguments Response {UnpackedProposal ProposalResponse} _.
Arguments Err {UnpackedProposal ProposalResponse} _.
Arguments NewUnpackedProposalWrapper
  {UnpackedProposal} ProposalResponse TxId ParseCustomTXID up.
Arguments index {UnpackedProposal ProposalResponse} pq i.
Arguments Len {UnpackedProposal ProposalResponse} pq.
Arguments Less {UnpackedProposal ProposalResponse} pq i j.
Arguments Swap {UnpackedProposal ProposalResponse} pq i j.
Arguments Push {UnpackedProposal ProposalResponse} pq item.
Arguments Pop {UnpackedProposal ProposalResponse} pq.
Arguments up {UnpackedProposal ProposalResponse} fuel h j.
Arguments down {UnpackedProposal ProposalResponse} fuel h i0 i n.
Arguments heap_Push {UnpackedProposal ProposalResponse} h x.
Arguments heap_Pop {UnpackedProposal ProposalResponse} h.
Arguments mkOrderer {UnpackedProposal ProposalResponse} _ _ _ _.
Arguments nextSequence {UnpackedProposal ProposalResponse} _.
Arguments queue {UnpackedProposal ProposalResponse} _.
Arguments processCh {UnpackedProposal ProposalResponse} _.
Arguments trySendCh {UnpackedProposal ProposalResponse} _.
Arguments NewProposalOrderer {UnpackedProposal ProposalResponse}.
Arguments send_loop {UnpackedProposal ProposalResponse} fuel po.
Arguments SendProposalsInOrder {UnpackedProposal ProposalResponse} po.
Arguments Push_locked {UnpackedProposal ProposalResponse} po upw.
Arguments Push_signal {UnpackedProposal ProposalResponse} po.
Arguments Pop_received {UnpackedProposal ProposalResponse} po.
Arguments EvPush {UnpackedProposal ProposalResponse} upw.
Arguments EvSignal {UnpackedProposal ProposalResponse}.
Arguments EvWorker {UnpackedProposal ProposalResponse}.
Arguments EvPop {UnpackedProposal ProposalResponse}.
Arguments mkSystem {UnpackedProposal ProposalResponse} _ _ _.
Arguments orderer {UnpackedProposal ProposalResponse} _.
Arguments signalling {UnpackedProposal ProposalResponse} _.
Arguments received {UnpackedProposal ProposalResponse} _.
Arguments NewSystem {UnpackedProposal ProposalResponse}.
Arguments step {UnpackedProposal ProposalResponse} sys ev.
Arguments exec {UnpackedProposal ProposalResponse} sys trace.
Arguments pushed {UnpackedProposal ProposalResponse} trace.
Arguments dispatched {UnpackedProposal ProposalResponse} sys.
Arguments is_heap {UnpackedProposal ProposalResponse} h.
Arguments up_inv {UnpackedProposal ProposalResponse} h j.
Arguments heap_upto {UnpackedProposal ProposalResponse} h n.
Arguments down_inv {UnpackedProposal ProposalResponse} h i n.
Arguments po_inv {UnpackedProposal ProposalResponse} P sys.

End endorser.

(** ** A concrete instance

    Envelopes carrying a label and a byte size, and transaction identifiers
    written as decimal numerals: enough to run the scenarios of the
    specification through the very same definitions. *)

Module Sample.

Record envelope : Type := mkEnvelope { label : string; bytes : Z }.

Definition size (e : envelope) : Z := bytes e.

Definition digit (c : Ascii.ascii) : option Z :=
  let n := Z.of_nat (Ascii.nat_of_ascii c) in
  if bool_decide (48 ≤ n ≤ 57) then Some (n - 48) else None.

Fixpoint digits (acc : Z) (t : string) : option Z :=
  match t with
  | EmptyString => Some acc
  | String c t => d ← digit c; digits (10 * acc + d) t
  end.

(** A numeral parses to its value; anything else yields the zero value
    together with an error. *)
Definition parse (txID : string) : Z * option string :=
  match txID with
  | EmptyString => (0, Some "invalid syntax"%string)
  | _ => match digits 0 txID with
         | Some n => (n, None)
         | None => (0, Some "invalid syntax"%string)
         end
  end.

Definition limits (preferred count : Z) : BatchSize :=
  {| MaxMessageCount := count; AbsoluteMaxBytes := 10 * preferred;
     PreferredMaxBytes := preferred |}.

Definition item (l : string) (b : Z) (txID : string) (bs : BatchSize)
  : envelope * string * BatchSize :=
  (mkEnvelope l b, txID, bs).

Definition run := run size parse.

End Sample.

(** ** Driving the priority queue

    A caller pushing a list of wrappers through [heap.Push], and one popping
    a given number of them through [heap.Pop]. *)

Module heap_runs.

Import endorser.

Section HeapRuns.

Context {UnpackedProposal ProposalResponse : Type}.

Local Abbreviation Wrapper :=
  (UnpackedProposalWrapper UnpackedProposal ProposalResponse).

Fixpoint push_all (h : list Wrapper) (items : list Wrapper)
  : outcome (list Wrapper) :=
  match items with
  | [] => Returns h
  | x :: items => h ← heap_Push h x; push_all h items
  end.

Fixpoint pop_all (count : nat) (h : list Wrapper)
  : outcome (list Wrapper * list Wrapper) :=
  match count with
  | O => Returns ([], h)
  | S count =>
      '(x, h) ← heap_Pop h;
      '(rest, h) ← pop_all count h;
      Returns (x :: rest, h)
  end.

End HeapRuns.

End heap_runs.

(** ** The [ConnectionHandler] fake

    A test double that records the calls of [Stream] and answers them from
    a stub, from a per-call table or from a default.  Every method holds the
    fake's mutex for its whole effect on the fake, so a method is one atomic
    step; the stub is taken as a function of its arguments.  An [error] is
    [None] for nil; so is a pointer; a map that was never made is [None]
    too. *)

Module mock.

Section ConnectionHandler.

(** [ccintf.ChaincodeServerInfo], [extcc.StreamHandler] and the non-nil
    values of [error] are opaque. *)
Variable ChaincodeServerInfo : Type.
Variable StreamHandler : Type.
Variable error : Type.

Record streamArgs : Type := mkStreamArgs {
  arg1 : string;
  arg2 : option ChaincodeServerInfo;
  arg3 : StreamHandler
}.

(** A value boxed into [interface{}] by [recordInvocation]'s callers. *)
Inductive boxed : Type :=
| BoxString (s : string)
| BoxServerInfo (p : option ChaincodeServerInfo)
| BoxStreamHandler (h : StreamHandler).

Definition stub_type : Type :=
  string -> option ChaincodeServerInfo -> StreamHandler -> option error.

Record ConnectionHandler : Type := mkConnectionHandler {
  StreamStub : option stub_type;
  streamArgsForCall : list streamArgs;
  streamReturns : option error;
  streamReturnsOnCall : option (gmap Z (option error));
  invocations : option (gmap string (list (list boxed)))
}.

(** The zero value [&ConnectionHandler{}]. *)
Definition zero : ConnectionHandler :=
  {| StreamStub := None; streamArgsForCall := []; streamReturns := None;
     streamReturnsOnCall := None; invocations := None |}.

Definition recordInvocation (fake : ConnectionHandler) (key : string)
    (args : list boxed) : ConnectionHandler :=
  let inv := default ∅ (invocations fake) in
  let calls := default [] (inv !! key) in
  {| StreamStub := StreamStub fake;
     streamArgsForCall := streamArgsForCall fake;
     streamReturns := streamReturns fake;
     streamReturnsOnCall := streamReturnsOnCall fake;
     invocations := Some (<[key := calls ++ [args]]> inv) |}.

Definition Stream (fake : ConnectionHandler) (a1 : string)
    (a2 : option ChaincodeServerInfo) (a3 : StreamHandler)
  : option error * ConnectionHandler :=
  let specific :=
    match streamReturnsOnCall fake with
    | Some table => table !! Z.of_nat (length (streamArgsForCall fake))
    | None => None
    end in
  let fake :=
    {| StreamStub := StreamStub fake;
       streamArgsForCall := streamArgsForCall fake ++ [mkStreamArgs a1 a2 a3];
       streamReturns := streamReturns fake;
       streamReturnsOnCall := streamReturnsOnCall fake;
       invocations := invocations fake |} in
  let fake :=
    recordInvocation fake "Stream"
      [BoxString a1; BoxServerInfo a2; BoxStreamHandler a3] in
  match StreamStub fake with
  | Some stub => (stub a1 a2 a3, fake)
  | None =>
      match specific with
      | Some ret => (ret, fake)
      | None => (streamReturns fake, fake)
      end
  end.

Definition StreamCallCount (fake : ConnectionHandler) : Z :=
  Z.of_nat (length (streamArgsForCall fake)).

Definition StreamCalls (fake : ConnectionHandler) (stub : option stub_type)
  : ConnectionHandler :=
  {| StreamStub := stub;
     streamArgsForCall := streamArgsForCall fake;
     streamReturns := streamReturns fake;
     streamReturnsOnCall := streamReturnsOnCall fake;
     invocations := invocations fake |}.

(** Indexing the slice of recorded arguments panics out of range. *)
Definition StreamArgsForCall (fake : ConnectionHandler) (i : Z)
  : outcome (string * option ChaincodeServerInfo * StreamHandler) :=
  if bool_decide (0 ≤ i) then
    match streamArgsForCall fake !! Z.to_nat i with
    | Some argsForCall =>
        Returns (arg1 argsForCall, arg2 argsForCall, arg3 argsForCall)
    | None => Panics
    end
  else Panics.

Definition StreamReturns (fake : ConnectionHandler) (result1 : option error)
  : ConnectionHandler :=
  {| StreamStub := None;
     streamArgsForCall := streamArgsForCall fake;
     streamReturns := result1;
     streamReturnsOnCall := streamReturnsOnCall fake;
     invocations := invocations fake |}.

Definition StreamReturnsOnCall (fake : ConnectionHandler) (i : Z)
    (result1 : option error) : ConnectionHandler :=
  {| StreamStub := None;
     streamArgsForCall := streamArgsForCall fake;
     streamReturns := streamReturns fake;
     streamReturnsOnCall :=
       Some (<[i := result1]> (default ∅ (streamReturnsOnCall fake)));
     invocations := invocations fake |}.

(** [Invocations] hands out a fresh map with the same entries. *)
Definition Invocations (fake : ConnectionHandler)
  : gmap string (list (list boxed)) :=
  default ∅ (invocations fake).

(** The calls a test makes on the fake, and the fake driven through a
    list of them, collecting what [Stream] returned. *)
Inductive call : Type :=
| CallStream (a1 : string) (a2 : option ChaincodeServerInfo)
    (a3 : StreamHandler)
| CallStreamCalls (stub : option stub_type)
| CallStreamReturns (result1 : option error)
| CallStreamReturnsOnCall (i : Z) (result1 : option error).

Definition perform (fake : ConnectionHandler) (c : call)
  : list (option error) * ConnectionHandler :=
  match c with
  | CallStream a1 a2 a3 =>
      let '(r, fake) := Stream fake a1 a2 a3 in ([r], fake)
  | CallStreamCalls stub => ([], StreamCalls fake stub)
  | CallStreamReturns r => ([], StreamReturns fake r)
  | CallStreamReturnsOnCall i r => ([], StreamReturnsOnCall fake i r)
  end.

Fixpoint perform_all (fake : ConnectionHandler) (calls : list call)
  : list (option error) * ConnectionHandler :=
  match calls with
  | [] => ([], fake)
  | c :: calls =>
      let '(r, fake) := perform fake c in
      let '(rs, fake) := perform_all fake calls in
      (r ++ rs, fake)
  end.

(** The arguments of the [Stream] calls among [calls], in call order. *)
Definition stream_calls (calls : list call) : list streamArgs :=
  omap (λ c, match c with
             | CallStream a1 a2 a3 => Some (mkStreamArgs a1 a2 a3)
             | _ => None
             end) calls.

Definition box_args (a : streamArgs) : list boxed :=
  [BoxString (arg1 a); BoxServerInfo (arg2 a); BoxStreamHandler (arg3 a)].

(** One [Stream] call per element of [args]. *)
Definition streams (args : list streamArgs) : list call :=
  (λ a, CallStream (arg1 a) (arg2 a) (arg3 a)) <$> args.

End ConnectionHandler.

Arguments mkStreamArgs {ChaincodeServerInfo StreamHandler} _ _ _.
Arguments arg1 {ChaincodeServerInfo StreamHandler} _.
Arguments arg2 {ChaincodeServerInfo StreamHandler} _.
Arguments arg3 {ChaincodeServerInfo StreamHandler} _.
Arguments BoxString {ChaincodeServerInfo StreamHandler} s.
Arguments BoxServerInfo {ChaincodeServerInfo StreamHandler} p.
Arguments BoxStreamHandler {ChaincodeServerInfo StreamHandler} h.
Arguments mkConnectionHandler {ChaincodeServerInfo StreamHandler error}
  _ _ _ _ _.
Arguments StreamStub {ChaincodeServerInfo StreamHandler error} _.
Arguments streamArgsForCall {ChaincodeServerInfo StreamHandler error} _.
Arguments streamReturns {ChaincodeServerInfo StreamHandler error} _.
Arguments streamReturnsOnCall {ChaincodeServerInfo StreamHandler error} _.
Arguments invocations {ChaincodeServerInfo StreamHandler error} _.
Arguments zero {ChaincodeServerInfo StreamHandler error}.
Arguments recordInvocation {ChaincodeServerInfo StreamHandler error}
  fake key args.
Arguments Stream {ChaincodeServerInfo StreamHandler error} fake a1 a2 a3.
Arguments StreamCallCount {ChaincodeServerInfo StreamHandler error} fake.
Arguments StreamCalls {ChaincodeServerInfo StreamHandler error} fake stub.
Arguments StreamArgsForCall {ChaincodeServerInfo StreamHandler error} fake i.
Arguments StreamReturns {ChaincodeServerInfo StreamHandler error}
  fake result1.
Arguments StreamReturnsOnCall {ChaincodeServerInfo StreamHandler error}
  fake i result1.
Arguments Invocations {ChaincodeServerInfo StreamHandler error} fake.
Arguments CallStream {ChaincodeServerInfo StreamHandler error} a1 a2 a3.
Arguments CallStreamCalls {ChaincodeServerInfo StreamHandler error} stub.
Arguments CallStreamReturns {ChaincodeServerInfo StreamHandler error} result1.
Arguments CallStreamReturnsOnCall {ChaincodeServerInfo StreamHandler error}
  i result1.
Arguments perform {ChaincodeServerInfo StreamHandler error} fake c.
Arguments perform_all {ChaincodeServerInfo StreamHandler error} fake calls.
Arguments stream_calls {ChaincodeServerInfo StreamHandler error} calls.
Arguments box_args {ChaincodeServerInfo StreamHandler} a.
Arguments streams {ChaincodeServerInfo StreamHandler error} args.

End mock.

(** ** The session store of the transaction manager

    [VisibleDB] keeps one [SessionDB] per entry of its [sessions] map; both
    [Get] and [Set] index that map with the key, not with the session.  A
    [*ledger.VersionedValue] is [None] when nil. *)

Module txmgr.

Section DB.

Variable VersionedValue : Type.

Record SessionDB : Type := mkSessionDB {
  data : gmap string (option VersionedValue)
}.

Definition NewSessionDB : SessionDB := {| data := ∅ |}.

Definition SessionDB_Get (sdb : SessionDB) (key : string)
  : option VersionedValue :=
  match data sdb !! key with
  | None => None
  | Some vv => vv
  end.

Definition SessionDB_Set (sdb : SessionDB) (key : string)
    (value : option VersionedValue) : SessionDB :=
  {| data := <[key := value]> (data sdb) |}.

Record VisibleDB : Type := mkVisibleDB {
  sessions : gmap string SessionDB
}.

Definition NewVisibleDB : VisibleDB := {| sessions := ∅ |}.

Definition VisibleDB_Get (vdb : VisibleDB) (key : string) (session : string)
  : option VersionedValue :=
  match sessions vdb !! key with
  | None => None
  | Some sdb => SessionDB_Get sdb key
  end.

(** The [SessionDB] is shared through its pointer: the update made by
    [sdb.Set] is seen through the map. *)
Definition VisibleDB_Set (vdb : VisibleDB) (key : string)
    (value : option VersionedValue) (session : string) : VisibleDB :=
  let sdb :=
    match sessions vdb !! key with
    | None => NewSessionDB
    | Some sdb => sdb
    end in
  {| sessions := <[key := SessionDB_Set sdb key value]> (sessions vdb) |}.

(** A list of writes [(key, value, session)] applied in order. *)
Definition write_all (vdb : VisibleDB)
    (writes : list (string * option VersionedValue * string)) : VisibleDB :=
  foldl (λ vdb w, VisibleDB_Set vdb w.1.1 w.1.2 w.2) vdb writes.

(** The value of the last write to [key], whatever its session; [before]
    when [key] is not written at all. *)
Fixpoint last_write (writes : list (string * option VersionedValue * string))
    (key : string) (before : option (option VersionedValue))
  : option (option VersionedValue) :=
  match writes with
  | [] => before
  | w :: writes =>
      last_write writes key
        (if bool_decide (w.1.1 = key) then Some w.1.2 else before)
  end.

End DB.

Arguments mkSessionDB {VersionedValue} _.
Arguments data {VersionedValue} _.
Arguments NewSessionDB {VersionedValue}.
Arguments SessionDB_Get {VersionedValue} sdb key.
Arguments SessionDB_Set {VersionedValue} sdb key value.
Arguments mkVisibleDB {VersionedValue} _.
Arguments sessions {VersionedValue} _.
Arguments NewVisibleDB {VersionedValue}.
Arguments VisibleDB_Get {VersionedValue} vdb key session.
Arguments VisibleDB_Set {VersionedValue} vdb key value session.
Arguments write_all {VersionedValue} vdb writes.
Arguments last_write {VersionedValue} writes key before.

End txmgr.

(** ** Helpers of the external builder

    The pure part of [externalbuilder]: the list of propagated environment
    variables, the environment handed to a command, and the sanitising of
    a chaincode identifier into a file name.  The process environment is a
    parameter ([os.LookupEnv]); strings are sequences of bytes. *)

Module externalbuilder.

Definition DefaultPropagateEnvironment : list string :=
  ["LD_LIBRARY_PATH"; "LIBPATH"; "PATH"; "TMPDIR"]%string.

Fixpoint contains (propagateEnvironment : list string) (key : string) : bool :=
  match propagateEnvironment with
  | [] => false
  | variable :: rest =>
      if bool_decide (key = variable) then true else contains rest key
  end.

Definition appendDefaultPropagateEnvironment
    (propagateEnvironment : list string) : list string :=
  foldl (λ propagateEnvironment variable,
           if contains propagateEnvironment variable
           then propagateEnvironment
           else propagateEnvironment ++ [variable])
        propagateEnvironment DefaultPropagateEnvironment.

(** A [Builder] without its logger, and the fields of the [exec.Cmd] that
    [NewCommand] fills in: [exec.Command] sets the arguments, the loop of
    [NewCommand] the environment. *)
Record Builder : Type := mkBuilder {
  PropagateEnvironment : list string;
  Location : string;
  Name : string;
  MSPID : string
}.

Record Cmd : Type := mkCmd {
  Args : list string;
  Env : list string
}.

Definition NewCommand (LookupEnv : string -> option string) (b : Builder)
    (name : string) (args : list string) : Cmd :=
  let propagationList :=
    appendDefaultPropagateEnvironment (PropagateEnvironment b) in
  {| Args := name :: args;
     Env := foldl (λ env key,
                     match LookupEnv key with
                     | Some val =>
                         env ++ [String.append key (String.append "=" val)]
                     | None => env
                     end) [] propagationList |}.

(** The character class of [pkgIDreg]: the characters
    < > : (double quote) / (backslash) | ? * and the ampersand. *)
Definition pkgIDreg_class : list Ascii.ascii :=
  ["<"; ">"; ":"; "034"; "/"; "092"; "|"; "?"; "*"; "&"]%char.

Definition pkgIDreg_match (c : Ascii.ascii) : bool :=
  bool_decide (c ∈ pkgIDreg_class).

(** [pkgIDreg.ReplaceAllString(ccid, "-")]: every match is one character
    and is replaced by a dash. *)
Fixpoint SanitizeCCIDPath (ccid : string) : string :=
  match ccid with
  | EmptyString => EmptyString
  | String c rest =>
      String (if pkgIDreg_match c then "-"%char else c)
             (SanitizeCCIDPath rest)
  end.

(** The characters of a string, in order. *)
Fixpoint chars (t : string) : list Ascii.ascii :=
  match t with
  | EmptyString => []
  | String c t => c :: chars t
  end.

End externalbuilder.

(** * Proofs *)

(** ** Machine integers *)

Lemma wrap_int_small z : min_int ≤ z ≤ max_int → wrap_int z = z.
Proof.
  unfold wrap_int, min_int, max_int. intros H.
  rewrite Z.mod_small; lia.
Qed.

Lemma wrap_uint32_small z : 0 ≤ z < 2 ^ 32 → wrap_uint32 z = z.
Proof. unfold wrap_uint32. intros H. by apply Z.mod_small. Qed.

Lemma wrap_uint32_range z : 0 ≤ wrap_uint32 z < 2 ^ 32.
Proof. unfold wrap_uint32. apply Z.mod_pos_bound. lia. Qed.

(** ** The cut loop *)

Section CutLoop.

Context {Envelope : Type}.
Implicit Types (envs : gmap Z Envelope) (s : Scheduler Envelope).

Lemma cut_loop_acc (b : Batch Envelope) envs idx :
  foldl cut_step (b, envs) idx =
  (b ++ (cut_loop envs idx).1, (cut_loop envs idx).2).
Proof.
  unfold cut_loop. revert b envs.
  induction idx as [|i idx IH]; intros b envs; simpl.
  - by rewrite app_nil_r.
  - unfold cut_step at 2 4 6. simpl.
    rewrite (IH (b ++ [envs !! i])), (IH [envs !! i]). simpl.
    by rewrite <- app_assoc.
Qed.

Lemma cut_loop_cons envs i idx :
  cut_loop envs (i :: idx) =
  (envs !! i :: (cut_loop (delete i envs) idx).1,
   (cut_loop (delete i envs) idx).2).
Proof.
  unfold cut_loop at 1. simpl. unfold cut_step at 2. simpl.
  by rewrite cut_loop_acc.
Qed.

Lemma cut_loop_lookup envs idx k :
  (cut_loop envs idx).2 !! k =
  if bool_decide (k ∈ idx) then None else envs !! k.
Proof.
  revert envs. induction idx as [|i idx IH]; intros envs.
  - done.
  - rewrite cut_loop_cons. simpl. rewrite IH.
    destruct (decide (k = i)) as [->|Hne].
    + rewrite (bool_decide_eq_true_2 (i ∈ i :: idx)) by left.
      case_bool_decide; [done | apply lookup_delete_eq].
    + rewrite lookup_delete_ne by done.
      rewrite (bool_decide_ext (k ∈ i :: idx) (k ∈ idx)); [done |].
      rewrite elem_of_cons. intuition.
Qed.

Lemma cut_loop_batch envs idx :
  NoDup idx → (cut_loop envs idx).1 = (λ i, envs !! i) <$> idx.
Proof.
  revert envs. induction idx as [|i idx IH]; intros envs Hnd.
  - done.
  - apply NoDup_cons in Hnd as [Hi Hnd].
    rewrite cut_loop_cons. simpl. f_equal.
    rewrite IH by done. apply list_fmap_ext.
    intros j x Hx. apply lookup_delete_ne.
    intros ->. apply Hi. by eapply list_elem_of_lookup_2.
Qed.

End CutLoop.

(** ** [Cut] *)

Section CutFacts.

Context {Envelope : Type}.
Implicit Types (envs : gmap Z Envelope) (s : Scheduler Envelope).

Lemma range_items_app envs a b c :
  a ≤ b → b ≤ c →
  range_items envs a c = range_items envs a b ++ range_items envs b c.
Proof.
  intros Hab Hbc. unfold range_items.
  replace (c - a) with ((b - a) + (c - b)) by lia.
  rewrite seqZ_app by lia. rewrite fmap_app.
  by replace (a + (b - a)) with b by lia.
Qed.

Lemma range_items_nil envs a b : b ≤ a → range_items envs a b = [].
Proof. intros H. unfold range_items. by rewrite seqZ_nil by lia. Qed.

Lemma range_items_one envs a : range_items envs a (a + 1) = [envs !! a].
Proof.
  unfold range_items. replace (a + 1 - a) with 1 by lia. done.
Qed.

Lemma range_items_snoc envs a b :
  a ≤ b → range_items envs a (b + 1) = range_items envs a b ++ [envs !! b].
Proof.
  intros H. rewrite (range_items_app envs a b (b + 1)) by lia.
  by rewrite range_items_one.
Qed.

Lemma length_range_items envs a b :
  length (range_items envs a b) = Z.to_nat (b - a).
Proof. unfold range_items. by rewrite length_fmap, length_seqZ. Qed.

Lemma range_items_ext envs envs' a b :
  (∀ k, a ≤ k < b → envs' !! k = envs !! k) →
  range_items envs' a b = range_items envs a b.
Proof.
  intros H. unfold range_items. apply list_fmap_ext.
  intros i k Hk. apply H.
  apply list_elem_of_lookup_2, elem_of_seqZ in Hk. lia.
Qed.

Lemma cut_state_start s e : startSequence (cut_state s e) = e.
Proof. done. Qed.

Lemma cut_state_next s e : nextSequence (cut_state s e) = nextSequence s.
Proof. done. Qed.

Lemma cut_state_batchSize s e : batchSize (cut_state s e) = batchSize s.
Proof. done. Qed.

Lemma cut_state_lookup s e k :
  envelopes (cut_state s e) !! k =
  if bool_decide (startSequence s ≤ k < e) then None else envelopes s !! k.
Proof.
  unfold cut_state. simpl. rewrite cut_loop_lookup.
  rewrite (bool_decide_ext _ (startSequence s ≤ k < e)); [done |].
  rewrite elem_of_seqZ. lia.
Qed.

Lemma cut_batch_items s e :
  cut_batch s e = range_items (envelopes s) (startSequence s) e.
Proof. unfold cut_batch. apply cut_loop_batch, NoDup_seqZ. Qed.

Lemma Cut_inv s e r :
  Cut s e = Returns r →
  startSequence s < e ∧ r = (cut_batch s e, cut_state s e).
Proof.
  unfold Cut. repeat case_bool_decide; try done.
  intros [= <-]. split; [lia | done].
Qed.

Lemma Cut_Returns s e :
  startSequence s < e → e - startSequence s ≤ max_int →
  Cut s e = Returns (cut_batch s e, cut_state s e).
Proof.
  intros Hlt Hcap. unfold Cut.
  rewrite bool_decide_eq_false_2 by lia.
  rewrite wrap_int_small by (unfold min_int, max_int in *; lia).
  by rewrite bool_decide_eq_false_2 by lia.
Qed.


Lemma Cut_fuel s e : Cut s e ≠ OutOfFuel.
Proof. unfold Cut. by repeat case_bool_decide. Qed.

End CutFacts.

(** ** One released item, and the drain loop *)

Section DrainFacts.

Context {Envelope : Type}.
Variable messageSizeBytes : Envelope -> Z.
Implicit Types (envs : gmap Z Envelope) (s : Scheduler Envelope).
Implicit Types (new : list (Batch Envelope)).

Lemma advance_same s s' :
  startSequence s' = startSequence s →
  envelopes s' = envelopes s →
  advance s s' [].
Proof.
  intros Hs He. split; rewrite ?Hs, ?He; try done.
  - simpl. by rewrite range_items_nil.
  - intros k. by rewrite bool_decide_eq_false_2 by lia.
Qed.

Lemma advance_cut s e :
  startSequence s < e → advance s (cut_state s e) [cut_batch s e].
Proof.
  intros H. split.
  - rewrite cut_state_start. lia.
  - simpl. by rewrite app_nil_r, cut_batch_items.
  - intros k. apply cut_state_lookup.
Qed.

Lemma advance_trans s s' s'' new new' :
  advance s s' new → advance s' s'' new' → advance s s'' (new ++ new').
Proof.
  intros [H1 H2 H3] [H4 H5 H6]. split.
  - lia.
  - rewrite concat_app, H2, H5.
    rewrite (range_items_app (envelopes s) (startSequence s)
               (startSequence s') (startSequence s'')) by lia.
    f_equal. apply range_items_ext. intros k Hk.
    rewrite H3. by rewrite bool_decide_eq_false_2 by lia.
  - intros k. rewrite H6, H3.
    repeat case_bool_decide; try done; lia.
Qed.

Lemma advance_refl s : advance s s [].
Proof. by apply advance_same. Qed.

Lemma advance_cut_r s s' new e :
  advance s s' new → startSequence s' < e →
  advance s (cut_state s' e) (new ++ [cut_batch s' e]).
Proof.
  intros H He. eapply advance_trans; [exact H | by apply advance_cut].
Qed.

Lemma advance_set_batchSize_r s s' new v :
  advance s s' new → advance s (set_batchSize s' v) new.
Proof. intros [H1 H2 H3]. by split. Qed.

Lemma advance_set_nextSequence_r s s' new v :
  advance s s' new → advance s (set_nextSequence s' v) new.
Proof. intros [H1 H2 H3]. by split. Qed.

Ltac step_bind H :=
  cbv beta iota zeta delta [mbind outcome_bind mret outcome_ret] in H.

Ltac cut_returned H :=
  match type of H with
  | context [Cut ?s ?e] =>
      let E := fresh "E" in
      let b := fresh "b" in
      let s1 := fresh "s" in
      let Hlt := fresh "Hlt" in
      destruct (Cut s e) as [[b s1]| |] eqn:E; step_bind H;
      [apply Cut_inv in E as [Hlt [= -> ->]] | done | done]
  end.

Ltac advance_steps :=
  repeat lazymatch goal with
  | |- advance _ (set_batchSize _ _) _ => apply advance_set_batchSize_r
  | |- advance _ (cut_state _ _) _ => apply advance_cut_r; [| assumption]
  | |- advance _ (set_nextSequence _ _) _ => apply advance_set_nextSequence_r
  | |- advance ?s ?s _ => apply advance_refl
  end.

Lemma release_one_advance msg bs mb s mb' s' :
  release_one messageSizeBytes msg bs mb s = Returns (mb', s') →
  ∃ new, mb' = mb ++ new ∧ advance s s' new ∧
         nextSequence s' = wrap_int (nextSequence s + 1).
Proof.
  unfold release_one. intros H. step_bind H.
  repeat first [cut_returned H | case_bool_decide; step_bind H];
    injection H as <- <-;
    (eexists; split; [| split; [advance_steps | done]];
     simpl; rewrite <- ?app_assoc; try rewrite app_nil_r; done).
Qed.

Lemma Cut_Panics_inv s e :
  Cut s e = Panics → e ≤ startSequence s ∨ wrap_int (e - startSequence s) < 0.
Proof. unfold Cut. repeat case_bool_decide; try done; lia. Qed.

Lemma wf_new : wf (@NewScheduler Envelope).
Proof.
  split; simpl; try done.
  - intros k [x Hx]. by rewrite lookup_empty in Hx.
  - lia.
Qed.

Lemma wf_set_batchSize s v : wf s → wf (set_batchSize s v).
Proof. intros [H1 H2 H3 H4 H5]. by split. Qed.

Lemma wf_release s :
  wf s → is_Some (envelopes s !! nextSequence s) →
  wf (set_nextSequence s (nextSequence s + 1)).
Proof.
  intros [H1 H2 H3 H4 H5] Hnext. split; simpl; try done.
  - lia.
  - specialize (H4 _ Hnext). lia.
  - intros k Hk. destruct (decide (k = nextSequence s)) as [->|]; [done|].
    apply H5. lia.
Qed.

Lemma wf_cut s e :
  wf s → startSequence s < e ≤ nextSequence s → wf (cut_state s e).
Proof.
  intros [H1 H2 H3 H4 H5] He. split.
  - rewrite cut_state_start. lia.
  - rewrite cut_state_start, cut_state_next. lia.
  - by rewrite cut_state_next.
  - intros k. rewrite cut_state_lookup. case_bool_decide.
    + by intros [? ?].
    + apply H4.
  - intros k. rewrite cut_state_start, cut_state_next, cut_state_lookup.
    intros Hk. rewrite bool_decide_eq_false_2 by lia. apply H5. lia.
Qed.

Lemma wf_insert s k msg :
  wf s → k < max_int → wf (set_envelopes s (<[k := msg]> (envelopes s))).
Proof.
  intros [H1 H2 H3 H4 H5] Hk. split; simpl; try done.
  - intros j. rewrite lookup_insert. case_decide; [lia | apply H4].
  - intros j Hj. rewrite lookup_insert. case_decide; [done | by apply H5].
Qed.

Ltac cut_outcome :=
  match goal with
  | |- context [Cut ?s ?e] =>
      let E := fresh "E" in
      let b := fresh "b" in
      let s1 := fresh "s" in
      let Hlt := fresh "Hlt" in
      destruct (Cut s e) as [[b s1]| |] eqn:E;
      [ apply Cut_inv in E as [Hlt [= -> ->]]
      | apply Cut_Panics_inv in E
      | by apply Cut_fuel in E ];
      cbv beta iota zeta delta [mbind outcome_bind mret outcome_ret]
  end.

Ltac sched_norm :=
  cbn [envelopes startSequence nextSequence batchSize set_envelopes
       set_startSequence set_nextSequence set_batchSize cut_state] in *.

Ltac unwrap :=
  repeat match goal with
  | H : context [wrap_int ?z] |- _ =>
      rewrite (wrap_int_small z) in H by (unfold min_int, max_int in *; lia)
  | |- context [wrap_int ?z] =>
      rewrite (wrap_int_small z) by (unfold min_int, max_int in *; lia)
  | H : context [wrap_uint32 ?z] |- _ =>
      rewrite (wrap_uint32_small z) in H by lia
  | |- context [wrap_uint32 ?z] =>
      rewrite (wrap_uint32_small z) by lia
  end.

Ltac wf_steps :=
  repeat lazymatch goal with
  | |- wf (set_batchSize _ _) => apply wf_set_batchSize
  | |- wf (cut_state _ _) => apply wf_cut
  | |- wf (set_nextSequence ?s (nextSequence ?s + 1)) => by apply wf_release
  end.

(** From a well-formed state the released item is processed without
    wrap-around; the only panic is the count check firing right after a
    byte-triggered cut, which needs [MaxMessageCount = 0]. *)
Lemma release_one_wf msg bs mb s :
  wf s → is_Some (envelopes s !! nextSequence s) →
  match release_one messageSizeBytes msg bs mb s with
  | Returns (mb', s') => wf s' ∧ nextSequence s' = nextSequence s + 1
  | Panics => MaxMessageCount bs ≤ 0
  | OutOfFuel => False
  end.
Proof.
  intros Hwf Hnext.
  assert (nextSequence s < max_int) as Hlim by (eapply wf_keys; eauto).
  pose proof (wf_start _ Hwf) as Hs0. pose proof (wf_order _ Hwf) as Hs1.
  unfold release_one.
  rewrite (wrap_int_small (nextSequence s + 1))
    by (unfold min_int, max_int in *; lia).
  cbv beta iota zeta delta [mbind outcome_bind mret outcome_ret].
  repeat first [ cut_outcome | case_bool_decide ];
    try (split; [wf_steps | done]);
    sched_norm; unwrap; lia.
Qed.

Lemma ahead_shrinks s s' new :
  advance s s' new →
  nextSequence s' = nextSequence s + 1 →
  is_Some (envelopes s !! nextSequence s) →
  (size (ahead s') < size (ahead s))%nat.
Proof.
  intros [H1 H2 H3] Hn Hsome. apply subset_size. unfold ahead.
  apply (strict_spec_alt (R:=(⊆))). split.
  - intros k. rewrite !elem_of_filter, !elem_of_dom, H3.
    case_bool_decide; intros [? [? ?]]; [done|].
    split; [lia | by eexists].
  - intros Heq.
    assert (nextSequence s ∈ filter (λ k, nextSequence s' ≤ k)
                               (dom (envelopes s'))) as Hin.
    { rewrite Heq. apply elem_of_filter. split; [lia|].
      by apply elem_of_dom. }
    apply elem_of_filter in Hin as [? _]. lia.
Qed.

Lemma size_ahead s : (size (ahead s) ≤ size (envelopes s))%nat.
Proof.
  unfold ahead. rewrite <- size_dom.
  apply subseteq_size. intros k Hk. by apply elem_of_filter in Hk as [_ ?].
Qed.

(** The drain loop never runs out of fuel; it stops at the first gap, and
    every slot it walked over was stored. *)
Lemma drain_wf fuel msg bs mb s :
  wf s → (size (ahead s) < fuel)%nat →
  match drain messageSizeBytes fuel msg bs mb s with
  | Returns (mb', s') =>
      (∃ new, mb' = mb ++ new ∧ advance s s' new) ∧ wf s' ∧
      nextSequence s ≤ nextSequence s' ∧
      envelopes s' !! nextSequence s' = None ∧
      (∀ j, nextSequence s ≤ j < nextSequence s' →
            is_Some (envelopes s !! j))
  | Panics => MaxMessageCount bs ≤ 0
  | OutOfFuel => False
  end.
Proof.
  revert mb s. induction fuel as [|fuel IH]; intros mb s Hwf Hfuel; [lia|].
  simpl. destruct (envelopes s !! nextSequence s) as [x|] eqn:Hx.
  - pose proof (release_one_wf msg bs mb s Hwf (mk_is_Some _ _ Hx)) as Hrel.
    destruct (release_one messageSizeBytes msg bs mb s)
      as [[mb1 s1]| |] eqn:E; [| done | done].
    destruct Hrel as [Hwf1 Hn1].
    destruct (release_one_advance _ _ _ _ _ _ E) as (new1 & -> & Hadv & _).
    cbv beta iota zeta delta [mbind outcome_bind].
    assert (size (ahead s1) < fuel)%nat as Hfuel1.
    { pose proof (ahead_shrinks s s1 new1 Hadv Hn1 (mk_is_Some _ _ Hx)). lia. }
    specialize (IH (mb ++ new1) s1 Hwf1 Hfuel1).
    destruct (drain messageSizeBytes fuel msg bs (mb ++ new1) s1)
      as [[mb2 s2]| |]; [| done | done].
    destruct IH as ((new2 & -> & Hadv2) & Hwf2 & Hn2 & Hgap & Hpast).
    split_and!; [| done | lia | done |].
    + exists (new1 ++ new2). split; [by rewrite app_assoc|].
      by eapply advance_trans.
    + intros j Hj. destruct (decide (j = nextSequence s)) as [->|Hne]; [done|].
      assert (is_Some (envelopes s1 !! j)) as Hj1 by (apply Hpast; lia).
      rewrite (adv_envs _ _ _ Hadv) in Hj1.
      case_bool_decide; [by destruct Hj1 | done].
  - split_and!; [| done | lia | done |].
    + exists []. split; [by rewrite app_nil_r | apply advance_refl].
    + intros j Hj. lia.
Qed.

(** What one [Schedule] call does to a well-formed state. *)
Lemma ScheduleSeq_wf s msg k bs :
  wf s → k < max_int →
  match ScheduleSeq messageSizeBytes s msg k bs with
  | Returns (batches, pending, s') =>
      advance (set_envelopes s (<[k := msg]> (envelopes s))) s' batches ∧
      wf s' ∧
      nextSequence s ≤ nextSequence s' ∧
      (envelopes s !! nextSequence s = None →
       envelopes s' !! nextSequence s' = None) ∧
      (∀ j, nextSequence s ≤ j < nextSequence s' →
            is_Some (<[k := msg]> (envelopes s) !! j)) ∧
      pending = bool_decide (0 < size (envelopes s'))%nat
  | Panics => MaxMessageCount bs ≤ 0
  | OutOfFuel => False
  end.
Proof.
  intros Hwf Hk. unfold ScheduleSeq.
  pose proof (wf_insert s k msg Hwf Hk) as Hwf0.
  set (s0 := set_envelopes s (<[k := msg]> (envelopes s))) in *.
  cbv beta iota zeta delta [mbind outcome_bind mret outcome_ret].
  case_bool_decide as Hnext.
  - pose proof (drain_wf (S (size (envelopes s0))) msg bs [] s0 Hwf0) as Hd.
    destruct (drain messageSizeBytes (S (size (envelopes s0))) msg bs [] s0)
      as [[mb1 s1]| |].
    + destruct Hd as ((new & -> & Hadv) & Hwf1 & Hn & Hgap & Hpast).
      { pose proof (size_ahead s0). lia. }
      by split_and!.
    + apply Hd. pose proof (size_ahead s0). lia.
    + apply Hd. pose proof (size_ahead s0). lia.
  - split_and!; try done.
    + apply advance_refl.
    + simpl. intros Hgap. by rewrite lookup_insert_ne.
    + intros j Hj. simpl in Hj. lia.
Qed.

Lemma dense_new : dense_inv ∅ [] (@NewScheduler Envelope).
Proof.
  split; simpl; try done.
  - apply wf_new.
  - intros j. by case_bool_decide.
  - lia.
  - intros j [x Hx]. by rewrite lookup_empty in Hx.
Qed.

Lemma ScheduleSeq_dense M emitted s msg k bs :
  dense_inv M emitted s → M !! k = None → 0 ≤ k < max_int →
  match ScheduleSeq messageSizeBytes s msg k bs with
  | Returns (batches, pending, s') =>
      dense_inv (<[k := msg]> M) (emitted ++ batches) s' ∧
      startSequence s ≤ startSequence s' ∧ nextSequence s ≤ nextSequence s' ∧
      concat batches =
        range_items (<[k := msg]> M) (startSequence s) (startSequence s')
  | Panics => MaxMessageCount bs ≤ 0
  | OutOfFuel => False
  end.
Proof.
  intros [Hwf Hgap Hem Henv Hpre Hrange] HMk Hk.
  pose proof (ScheduleSeq_wf s msg k bs Hwf (proj2 Hk)) as Hs.
  destruct (ScheduleSeq messageSizeBytes s msg k bs)
    as [[[batches pending] s']| |]; [| done | done].
  destruct Hs as ([Ha1 Ha2 Ha3] & Hwf' & Hn & Hgap' & Hpast & _).
  simpl in Ha1, Ha2, Ha3.
  assert (nextSequence s ≤ k) as Hkn.
  { destruct (decide (nextSequence s ≤ k)) as [|Hlt]; [done|].
    destruct (Hpre k) as [x Hx]; [lia | congruence]. }
  pose proof (wf_order _ Hwf) as Hord. pose proof (wf_start _ Hwf) as Hst.
  assert (∀ j, <[k := msg]> (envelopes s) !! j =
               if bool_decide (j < startSequence s) then None
               else <[k := msg]> M !! j) as Hins.
  { intros j. rewrite !lookup_insert. case_decide as Hj.
    - subst j. by rewrite bool_decide_eq_false_2 by lia.
    - apply Henv. }
  assert (concat batches =
          range_items (<[k := msg]> M) (startSequence s) (startSequence s'))
    as Hbatches.
  { rewrite Ha2. apply range_items_ext. intros j Hj.
    rewrite Hins. by rewrite bool_decide_eq_false_2 by lia. }
  split_and!; [split | done | done | done].
  - done.
  - by apply Hgap'.
  - rewrite concat_app, Hem, Hbatches.
    rewrite (range_items_app (<[k := msg]> M) 0 (startSequence s)
               (startSequence s')) by lia.
    f_equal. apply range_items_ext. intros j Hj.
    rewrite lookup_insert_ne; [done | lia].
  - intros j. rewrite Ha3, Hins.
    repeat case_bool_decide; try done; lia.
  - intros j Hj. rewrite lookup_insert. case_decide; [done|].
    destruct (decide (j < nextSequence s)) as [Hlt|Hge].
    + apply Hpre. lia.
    + assert (is_Some (<[k := msg]> (envelopes s) !! j)) as Hj'
        by (apply Hpast; lia).
      rewrite lookup_insert_ne in Hj' by done.
      rewrite Henv in Hj'. case_bool_decide; [by destruct Hj' | done].
  - intros j. rewrite lookup_insert. case_decide; [intros; lia | apply Hrange].
Qed.

Lemma length_cut_batch s e :
  Z.of_nat (length (cut_batch s e)) = Z.max 0 (e - startSequence s).
Proof. rewrite cut_batch_items, length_range_items. lia. Qed.

Ltac split_new :=
  eexists; split;
  [ first [ symmetry; apply app_nil_r
          | rewrite <- ?app_assoc; reflexivity ] |].

(** *** The count limit *)

Lemma release_one_count msg bs mb s :
  wf s → is_Some (envelopes s !! nextSequence s) →
  1 ≤ MaxMessageCount bs < 2 ^ 32 →
  nextSequence s - startSequence s < MaxMessageCount bs →
  match release_one messageSizeBytes msg bs mb s with
  | Returns (mb', s') =>
      ∃ new, mb' = mb ++ new ∧ Forall (within_count bs) new ∧ count_ok bs s'
  | Panics => False
  | OutOfFuel => False
  end.
Proof.
  intros Hwf Hnext Hmax Hcount.
  assert (nextSequence s < max_int) as Hlim by (eapply wf_keys; eauto).
  pose proof (wf_start _ Hwf) as Hs0. pose proof (wf_order _ Hwf) as Hs1.
  unfold release_one, count_ok, within_count.
  rewrite (wrap_int_small (nextSequence s + 1))
    by (unfold min_int, max_int in *; lia).
  cbv beta iota zeta delta [mbind outcome_bind mret outcome_ret].
  repeat first [ cut_outcome | case_bool_decide ];
    try (split_new; split; [repeat constructor|]);
    rewrite ?length_cut_batch; sched_norm; unwrap; lia.
Qed.

Lemma drain_count fuel msg bs mb s :
  wf s → (size (ahead s) < fuel)%nat →
  1 ≤ MaxMessageCount bs < 2 ^ 32 →
  count_ok bs s →
  match drain messageSizeBytes fuel msg bs mb s with
  | Returns (mb', s') =>
      ∃ new, mb' = mb ++ new ∧ Forall (within_count bs) new ∧
             count_ok bs s' ∧ wf s'
  | Panics => False
  | OutOfFuel => False
  end.
Proof.
  intros Hwf Hfuel Hmax. revert mb s Hwf Hfuel.
  induction fuel as [|fuel IH]; intros mb s Hwf Hfuel Hc; [lia|].
  simpl. destruct (envelopes s !! nextSequence s) as [x|] eqn:Hx.
  - pose proof (release_one_wf msg bs mb s Hwf (mk_is_Some _ _ Hx)) as Hrel.
    pose proof (release_one_count msg bs mb s Hwf (mk_is_Some _ _ Hx) Hmax
                  (proj1 Hc)) as Hcnt.
    destruct (release_one messageSizeBytes msg bs mb s)
      as [[mb1 s1]| |] eqn:E; [| done | done].
    destruct Hrel as [Hwf1 Hn1]. destruct Hcnt as (new1 & -> & HQ1 & Hc1).
    destruct (release_one_advance _ _ _ _ _ _ E) as (new1' & _ & Hadv & _).
    cbv beta iota zeta delta [mbind outcome_bind].
    assert (size (ahead s1) < fuel)%nat as Hfuel1.
    { pose proof (ahead_shrinks s s1 new1' Hadv Hn1 (mk_is_Some _ _ Hx)).
      lia. }
    specialize (IH (mb ++ new1) s1 Hwf1 Hfuel1 Hc1).
    destruct (drain messageSizeBytes fuel msg bs (mb ++ new1) s1)
      as [[mb2 s2]| |]; [| done | done].
    destruct IH as (new2 & -> & HQ2 & Hc2 & Hwf2).
    exists (new1 ++ new2). split_and!; try done.
    + by rewrite app_assoc.
    + by apply Forall_app.
  - exists []. split_and!; try done. by rewrite app_nil_r.
Qed.

Lemma ScheduleSeq_count s msg k bs :
  wf s → k < max_int →
  1 ≤ MaxMessageCount bs < 2 ^ 32 →
  count_ok bs s →
  match ScheduleSeq messageSizeBytes s msg k bs with
  | Returns (batches, pending, s') =>
      Forall (within_count bs) batches ∧ count_ok bs s' ∧ wf s'
  | Panics => False
  | OutOfFuel => False
  end.
Proof.
  intros Hwf Hk Hmax Hc. unfold ScheduleSeq.
  pose proof (wf_insert s k msg Hwf Hk) as Hwf0.
  set (s0 := set_envelopes s (<[k := msg]> (envelopes s))) in *.
  cbv beta iota zeta delta [mbind outcome_bind mret outcome_ret].
  case_bool_decide as Hnext.
  - pose proof (drain_count (S (size (envelopes s0))) msg bs [] s0 Hwf0) as Hd.
    destruct (drain messageSizeBytes (S (size (envelopes s0))) msg bs [] s0)
      as [[mb1 s1]| |].
    + destruct Hd as (new & -> & HQ & Hc1 & Hwf1); try done.
      pose proof (size_ahead s0). lia.
    + apply Hd; try done. pose proof (size_ahead s0). lia.
    + apply Hd; try done. pose proof (size_ahead s0). lia.
  - by split_and!.
Qed.

(** *** The byte limit, for envelopes arriving in sequence order *)

Lemma batch_bytes_app (a b : Batch Envelope) :
  batch_bytes messageSizeBytes (a ++ b) =
  batch_bytes messageSizeBytes a + batch_bytes messageSizeBytes b.
Proof.
  unfold batch_bytes. induction a as [|o a IH]; simpl; [done|].
  rewrite IH. lia.
Qed.

Lemma range_items_cut_state s e a b :
  e ≤ a →
  range_items (envelopes (cut_state s e)) a b = range_items (envelopes s) a b.
Proof.
  intros H. apply range_items_ext. intros k Hk.
  rewrite cut_state_lookup. by rewrite bool_decide_eq_false_2 by lia.
Qed.

Lemma drain_step fuel msg bs mb s x :
  envelopes s !! nextSequence s = Some x →
  drain messageSizeBytes (S fuel) msg bs mb s =
  match release_one messageSizeBytes msg bs mb s with
  | Returns (mb1, s1) => drain messageSizeBytes fuel msg bs mb1 s1
  | Panics => Panics
  | OutOfFuel => OutOfFuel
  end.
Proof.
  intros H. simpl. rewrite H.
  by destruct (release_one messageSizeBytes msg bs mb s) as [[mb1 s1]| |].
Qed.

Lemma drain_one fuel msg bs mb s mb1 s1 :
  is_Some (envelopes s !! nextSequence s) →
  release_one messageSizeBytes msg bs mb s = Returns (mb1, s1) →
  envelopes s1 !! nextSequence s1 = None →
  drain messageSizeBytes (S (S fuel)) msg bs mb s = Returns (mb1, s1).
Proof.
  intros [x Hx] Hrel Hgap. simpl. rewrite Hx, Hrel.
  cbv beta iota zeta delta [mbind outcome_bind]. by rewrite Hgap.
Qed.

Ltac sched_fields :=
  repeat progress
    (cbn [envelopes startSequence nextSequence batchSize set_envelopes
          set_startSequence set_nextSequence set_batchSize] in *;
     rewrite ?cut_state_start, ?cut_state_next, ?cut_state_batchSize in * ).

Ltac Forall_list :=
  repeat first [apply Forall_nil_2 | apply Forall_cons_2].

(** The released envelope is the one passed to the call and the accumulator
    is the byte size of the forming batch: every cut is within the byte
    bound, and the bookkeeping is restored. *)
Lemma release_one_bytes msg bs mb s :
  wf s → envelopes s !! nextSequence s = Some msg →
  0 ≤ messageSizeBytes msg →
  0 ≤ PreferredMaxBytes bs →
  PreferredMaxBytes bs + messageSizeBytes msg < 2 ^ 32 →
  0 ≤ batchSize s →
  batchSize s =
    batch_bytes messageSizeBytes
      (range_items (envelopes s) (startSequence s) (nextSequence s)) →
  startSequence s = nextSequence s ∨ batchSize s < PreferredMaxBytes bs →
  ∀ mb' s', release_one messageSizeBytes msg bs mb s = Returns (mb', s') →
    ∃ new, mb' = mb ++ new ∧
      Forall (within_bytes messageSizeBytes bs) new ∧
      0 ≤ batchSize s' ∧
      batchSize s' =
        batch_bytes messageSizeBytes
          (range_items (envelopes s') (startSequence s') (nextSequence s')) ∧
      (startSequence s' = nextSequence s' ∨
       batchSize s' < PreferredMaxBytes bs).
Proof.
  intros Hwf Hnext Hsz Hpref Hov Hpos Hbytes Hbelow mb' s'.
  assert (nextSequence s < max_int) as Hlim
    by (eapply wf_keys; eauto).
  pose proof (wf_start _ Hwf) as Hs0. pose proof (wf_order _ Hwf) as Hs1.
  assert (batchSize s ≤ PreferredMaxBytes bs) as Hrange.
  { destruct Hbelow as [Heq|Hlt]; [|lia].
    rewrite Hbytes, Heq, range_items_nil by lia. simpl. lia. }
  unfold release_one.
  rewrite (wrap_int_small (nextSequence s + 1))
    by (unfold min_int, max_int in *; lia).
  cbv beta iota zeta delta [mbind outcome_bind mret outcome_ret].
  intros H.
  repeat first [cut_returned H | case_bool_decide; step_bind H];
    injection H as <- <-;
    sched_fields; unwrap;
    try (exfalso; lia);
    (split_new; split; [Forall_list|]);
    unfold within_bytes; rewrite ?cut_batch_items;
    repeat first
      [ progress sched_fields
      | rewrite Z.add_simpl_r
      | rewrite range_items_cut_state by lia
      | rewrite range_items_nil by lia
      | rewrite range_items_one
      | rewrite (range_items_snoc _ (startSequence s) (nextSequence s))
          by lia
      | rewrite Hnext
      | rewrite batch_bytes_app
      | rewrite <- Hbytes ];
    cbn [batch_bytes foldr from_option length app];
    first [lia | left; lia | right; reflexivity].
Qed.

Lemma inorder_new bs : inorder_inv messageSizeBytes bs (@NewScheduler Envelope).
Proof.
  split; simpl; try done.
  - apply wf_new.
  - intros k [x Hx]. by rewrite lookup_empty in Hx.
  - by left.
Qed.

Lemma ScheduleSeq_inorder s msg bs :
  inorder_inv messageSizeBytes bs s → nextSequence s < max_int →
  0 ≤ messageSizeBytes msg →
  0 ≤ PreferredMaxBytes bs →
  PreferredMaxBytes bs + messageSizeBytes msg < 2 ^ 32 →
  match ScheduleSeq messageSizeBytes s msg (nextSequence s) bs with
  | Returns (batches, pending, s') =>
      Forall (within_bytes messageSizeBytes bs) batches ∧
      inorder_inv messageSizeBytes bs s' ∧ nextSequence s' = nextSequence s + 1
  | Panics => MaxMessageCount bs ≤ 0
  | OutOfFuel => False
  end.
Proof.
  intros [Hwf Hcompact Hbytes Hbelow Hpos] Hlim Hsz Hpref Hov.
  unfold ScheduleSeq.
  pose proof (wf_insert s (nextSequence s) msg Hwf Hlim) as Hwf0.
  set (s0 := set_envelopes s (<[nextSequence s := msg]> (envelopes s))) in *.
  assert (envelopes s0 !! nextSequence s0 = Some msg) as Hnext0
    by apply lookup_insert_eq.
  assert (range_items (envelopes s0) (startSequence s0) (nextSequence s0)
          = range_items (envelopes s) (startSequence s) (nextSequence s))
    as Hregion.
  { apply range_items_ext. intros k Hk. simpl.
    apply lookup_insert_ne. simpl in Hk. lia. }
  cbv beta iota zeta delta [mbind outcome_bind mret outcome_ret].
  rewrite bool_decide_eq_true_2 by done.
  pose proof (release_one_wf msg bs [] s0 Hwf0 (mk_is_Some _ _ Hnext0)) as Hrel.
  destruct (size (envelopes s0)) as [|fuel] eqn:Hsize.
  { apply map_size_empty_inv in Hsize. simpl in Hsize.
    by apply insert_non_empty in Hsize. }
  destruct (release_one messageSizeBytes msg bs [] s0)
    as [[mb1 s1]| |] eqn:E.
  - destruct Hrel as [Hwf1 Hn1].
    destruct (release_one_bytes msg bs [] s0 Hwf0 Hnext0 Hsz Hpref Hov)
      with (mb' := mb1) (s' := s1) as (new & -> & HQ & Hpos1 & Hb1 & Hbelow1);
      try done.
    { by rewrite Hregion. }
    destruct (release_one_advance _ _ _ _ _ _ E) as (new' & _ & Hadv & _).
    assert (∀ k, is_Some (envelopes s1 !! k) →
                 startSequence s1 ≤ k < nextSequence s1) as Hcompact1.
    { intros k. rewrite (adv_envs _ _ _ Hadv).
      pose proof (wf_order _ Hwf). pose proof (adv_start _ _ _ Hadv).
      unfold s0 in *. simpl in *.
      case_bool_decide as Hk.
      - by intros [? ?].
      - rewrite lookup_insert. case_decide as Hkn.
        + intros _. lia.
        + intros Hsome. specialize (Hcompact k Hsome). lia. }
    assert (envelopes s1 !! nextSequence s1 = None) as Hgap.
    { destruct (envelopes s1 !! nextSequence s1) eqn:Hl; [|done].
      specialize (Hcompact1 _ (mk_is_Some _ _ Hl)). lia. }
    rewrite (drain_one fuel msg bs [] s0 new s1 (mk_is_Some _ _ Hnext0) E Hgap).
    split_and!; [done | by split | done].
  - by rewrite (drain_step _ _ _ _ _ _ Hnext0), E.
  - done.
Qed.

(** *** What an overwritten envelope can no longer reach *)

Lemma drain_advance fuel msg bs mb s mb' s' :
  drain messageSizeBytes fuel msg bs mb s = Returns (mb', s') →
  ∃ new, mb' = mb ++ new ∧ advance s s' new.
Proof.
  revert mb s. induction fuel as [|fuel IH]; intros mb s H; [done|].
  simpl in H. destruct (envelopes s !! nextSequence s) as [x|].
  - destruct (release_one messageSizeBytes msg bs mb s)
      as [[mb1 s1]| |] eqn:E; [| done | done].
    step_bind H.
    destruct (release_one_advance _ _ _ _ _ _ E) as (new1 & -> & Hadv1 & _).
    destruct (IH _ _ H) as (new2 & -> & Hadv2).
    exists (new1 ++ new2). split; [by rewrite app_assoc|].
    by eapply advance_trans.
  - injection H as <- <-. exists []. split; [by rewrite app_nil_r|].
    apply advance_refl.
Qed.

Lemma ScheduleSeq_advance s msg k bs batches pending s' :
  ScheduleSeq messageSizeBytes s msg k bs = Returns (batches, pending, s') →
  advance (set_envelopes s (<[k := msg]> (envelopes s))) s' batches.
Proof.
  unfold ScheduleSeq. intros H. step_bind H.
  case_bool_decide.
  - destruct (drain _ _ _ _ _ _) as [[mb1 s1]| |] eqn:E; [| done | done].
    step_bind H. injection H as <- _ <-.
    by destruct (drain_advance _ _ _ _ _ _ _ E) as (new & -> & Hadv).
  - step_bind H. injection H as <- _ <-. apply advance_refl.
Qed.

Lemma advance_absent s s' new x :
  advance s s' new → absent x (envelopes s) →
  absent x (envelopes s') ∧ Some x ∉ concat new.
Proof.
  intros [H1 H2 H3] Habs. split.
  - intros j. rewrite H3. by case_bool_decide.
  - rewrite H2. unfold range_items. intros Hin.
    apply list_elem_of_fmap in Hin as (j & Hj & _). by apply (Habs j).
Qed.

Lemma ScheduleSeq_absent s msg k bs batches pending s' x :
  ScheduleSeq messageSizeBytes s msg k bs = Returns (batches, pending, s') →
  absent x (envelopes s) → msg ≠ x →
  absent x (envelopes s') ∧ Some x ∉ concat batches.
Proof.
  intros H Habs Hne. apply ScheduleSeq_advance in H.
  eapply advance_absent; [exact H|]. simpl.
  intros j. rewrite lookup_insert. case_decide; [congruence | apply Habs].
Qed.

End DrainFacts.

(** ** Runs fed with distinct sequence numbers *)

Section RunFacts.

Context {Envelope : Type}.
Variable messageSizeBytes : Envelope -> Z.
Variable ParseCustomTXID : string -> Z * option string.
Implicit Types (s : Scheduler Envelope) (M : gmap Z Envelope).
Implicit Types (inputs rest : list (Envelope * string * BatchSize)).

Local Abbreviation runP := (run messageSizeBytes ParseCustomTXID).
Local Abbreviation seq_of := (sequence_of ParseCustomTXID).
Local Abbreviation sched := (scheduled ParseCustomTXID).

Lemma Schedule_unfold s msg txID bs :
  Schedule messageSizeBytes ParseCustomTXID s msg txID bs =
  ScheduleSeq messageSizeBytes s msg (ParseCustomTXID txID).1 bs.
Proof. unfold Schedule. by destruct (ParseCustomTXID txID). Qed.

Lemma run_cons s msg txID bs rest :
  runP s ((msg, txID, bs) :: rest) =
  match ScheduleSeq messageSizeBytes s msg (ParseCustomTXID txID).1 bs with
  | Returns (batches, _, s1) =>
      match runP s1 rest with
      | Returns (later, s2) => Returns (batches ++ later, s2)
      | Panics => Panics
      | OutOfFuel => OutOfFuel
      end
  | Panics => Panics
  | OutOfFuel => OutOfFuel
  end.
Proof.
  simpl. rewrite Schedule_unfold.
  by destruct (ScheduleSeq _ _ _ _ _) as [[[b p] s1]| |].
Qed.

Lemma sched_cons msg txID bs rest :
  sched ((msg, txID, bs) :: rest) =
  <[(ParseCustomTXID txID).1 := msg]> (sched rest).
Proof. done. Qed.

Lemma run_dense inputs : ∀ M emitted s,
  dense_inv M emitted s →
  NoDup (seq_of <$> inputs) →
  (∀ i, i ∈ inputs → M !! seq_of i = None ∧ 0 ≤ seq_of i < max_int) →
  match runP s inputs with
  | Returns (later, s') =>
      dense_inv (M ∪ sched inputs) (emitted ++ later) s' ∧
      startSequence s ≤ startSequence s' ∧
      nextSequence s ≤ nextSequence s' ∧
      concat later =
        range_items (M ∪ sched inputs) (startSequence s) (startSequence s')
  | Panics => ∃ i, i ∈ inputs ∧ MaxMessageCount i.2 ≤ 0
  | OutOfFuel => False
  end.
Proof.
  induction inputs as [|[[msg txID] bs] rest IH]; intros M emitted s Hd Hnd Hin.
  - simpl. unfold scheduled. simpl.
    rewrite (right_id_L ∅ (∪)), app_nil_r.
    split_and!; try done. by rewrite range_items_nil.
  - rewrite run_cons. apply NoDup_cons in Hnd as [Hfresh Hnd].
    set (k := (ParseCustomTXID txID).1) in *.
    destruct (Hin (msg, txID, bs)) as [HMk Hk]; [left|].
    pose proof (ScheduleSeq_dense messageSizeBytes M emitted s msg k bs
                  Hd HMk Hk) as Hstep.
    destruct (ScheduleSeq messageSizeBytes s msg k bs)
      as [[[batches pending] s1]| |]; [| | done].
    2:{ exists (msg, txID, bs). split; [left | done]. }
    destruct Hstep as (Hd1 & Hst1 & Hn1 & Hb1).
    assert (<[k := msg]> M ∪ sched rest
            = M ∪ sched ((msg, txID, bs) :: rest)) as HM.
    { rewrite sched_cons. fold k.
      by rewrite <- insert_union_l, <- insert_union_r. }
    assert (∀ i, i ∈ rest → <[k := msg]> M !! seq_of i = None ∧
                             0 ≤ seq_of i < max_int) as Hrest.
    { intros i Hi. destruct (Hin i) as [HMi Hri]; [by right|].
      split; [| done]. rewrite lookup_insert_ne; [done|].
      intros Heq. apply Hfresh. apply list_elem_of_fmap.
      exists i. split; [exact Heq | done]. }
    specialize (IH (<[k := msg]> M) (emitted ++ batches) s1 Hd1 Hnd).
    destruct (runP s1 rest) as [[later s2]| |].
    + destruct IH as (Hd2 & Hst2 & Hn2 & Hb2).
      { done. }
      rewrite HM in Hd2, Hb2. rewrite <- app_assoc in Hd2.
      split_and!; [done | lia | lia |].
      rewrite concat_app, Hb1, Hb2.
      rewrite (range_items_app _ (startSequence s) (startSequence s1)
                 (startSequence s2)) by lia.
      f_equal. apply range_items_ext. intros j Hj. rewrite <- HM.
      pose proof (wf_order _ (di_wf _ _ _ Hd1)).
      pose proof (wf_start _ (di_wf _ _ _ Hd)).
      destruct (di_prefix _ _ _ Hd1 j) as [x Hx]; [lia|].
      rewrite Hx. symmetry. by apply lookup_union_Some_l.
    + destruct IH as (i & Hi & Hmax).
      { done. }
      exists i. split; [by right | done].
    + by apply IH.
Qed.

Lemma run_count bs inputs : ∀ s,
  1 ≤ MaxMessageCount bs < 2 ^ 32 →
  Forall (λ i, i.2 = bs ∧ seq_of i < max_int) inputs →
  wf s → count_ok bs s →
  match runP s inputs with
  | Returns (batches, s') =>
      Forall (within_count bs) batches ∧ count_ok bs s' ∧ wf s'
  | Panics => False
  | OutOfFuel => False
  end.
Proof.
  intros s Hmax Hin. revert s.
  induction Hin as [|[[msg txID] bs'] rest [Hbs Hk] Hrest IH];
    intros s Hwf Hc; [done|].
  simpl in Hbs. subst bs'. rewrite run_cons.
  pose proof (ScheduleSeq_count messageSizeBytes s msg
                (ParseCustomTXID txID).1 bs Hwf Hk Hmax Hc) as Hstep.
  destruct (ScheduleSeq messageSizeBytes s msg (ParseCustomTXID txID).1 bs)
    as [[[batches pending] s1]| |]; [| done | done].
  destruct Hstep as (HQ1 & Hc1 & Hwf1).
  specialize (IH s1 Hwf1 Hc1).
  destruct (runP s1 rest) as [[later s2]| |]; [| done | done].
  destruct IH as (HQ2 & Hc2 & Hwf2).
  split_and!; try done. by apply Forall_app.
Qed.

Lemma run_inorder bs inputs : ∀ s,
  0 ≤ PreferredMaxBytes bs →
  Forall (λ i, i.2 = bs ∧ 0 ≤ messageSizeBytes i.1.1 ∧
               PreferredMaxBytes bs + messageSizeBytes i.1.1 < 2 ^ 32)
         inputs →
  seq_of <$> inputs = seqZ (nextSequence s) (Z.of_nat (length inputs)) →
  nextSequence s + Z.of_nat (length inputs) ≤ max_int →
  inorder_inv messageSizeBytes bs s →
  match runP s inputs with
  | Returns (batches, s') =>
      Forall (within_bytes messageSizeBytes bs) batches ∧ inorder_inv messageSizeBytes bs s'
  | Panics => MaxMessageCount bs ≤ 0
  | OutOfFuel => False
  end.
Proof.
  intros s Hpref Hin. revert s.
  induction Hin as [|[[msg txID] bs'] rest (Hbs & Hsz & Hov) Hrest IH];
    intros s Hkeys Hlen Hinv; [done|].
  simpl in Hbs, Hsz, Hov. subst bs'. rewrite run_cons.
  rewrite length_cons, Nat2Z.inj_succ, seqZ_cons in Hkeys by lia.
  injection Hkeys as Hk Hkeys. unfold sequence_of in Hk. simpl in Hk.
  rewrite Hk. rewrite length_cons in Hlen.
  pose proof (ScheduleSeq_inorder messageSizeBytes s msg bs Hinv) as Hstep.
  destruct (ScheduleSeq messageSizeBytes s msg (nextSequence s) bs)
    as [[[batches pending] s1]| |].
  - destruct Hstep as (HQ1 & Hinv1 & Hn1); try done; [lia|].
    specialize (IH s1). rewrite Hn1 in IH.
    rewrite Z.pred_succ in Hkeys.
    destruct (runP s1 rest) as [[later s2]| |].
    + destruct IH as (HQ2 & Hinv2); try done; [lia|].
      split; [by apply Forall_app | done].
    + apply IH; try done. lia.
    + apply IH; try done. lia.
  - apply Hstep; try done. lia.
  - apply Hstep; try done. lia.
Qed.

Lemma run_absent inputs x : ∀ s batches s',
  Forall (λ i, i.1.1 ≠ x) inputs →
  absent x (envelopes s) →
  runP s inputs = Returns (batches, s') →
  absent x (envelopes s') ∧ Some x ∉ concat batches.
Proof.
  induction inputs as [|[[msg txID] bs] rest IH]; intros s batches s' Hin Habs.
  - simpl. intros [= <- <-]. split; [done|]. simpl. apply not_elem_of_nil.
  - rewrite run_cons. apply Forall_cons in Hin as [Hmsg Hin].
    destruct (ScheduleSeq messageSizeBytes s msg (ParseCustomTXID txID).1 bs)
      as [[[b p] s1]| |] eqn:E; [| done | done].
    destruct (ScheduleSeq_absent _ _ _ _ _ _ _ _ x E Habs Hmsg) as [Habs1 Hb].
    destruct (runP s1 rest) as [[later s2]| |] eqn:E2; [| done | done].
    intros [= <- <-].
    destruct (IH _ _ _ Hin Habs1 E2) as [Habs2 Hlater].
    split; [done|]. rewrite concat_app, elem_of_app. tauto.
Qed.

Lemma run_app inputs1 inputs2 : ∀ s,
  runP s (inputs1 ++ inputs2) =
  match runP s inputs1 with
  | Returns (batches1, s1) =>
      match runP s1 inputs2 with
      | Returns (batches2, s2) => Returns (batches1 ++ batches2, s2)
      | Panics => Panics
      | OutOfFuel => OutOfFuel
      end
  | Panics => Panics
  | OutOfFuel => OutOfFuel
  end.
Proof.
  induction inputs1 as [|[[msg txID] bs] rest IH]; intros s.
  - simpl. by destruct (runP s inputs2) as [[b2 s2]| |].
  - rewrite <- app_comm_cons, !run_cons.
    destruct (ScheduleSeq messageSizeBytes s msg (ParseCustomTXID txID).1 bs)
      as [[[b p] s1]| |]; [| done | done].
    rewrite IH. destruct (runP s1 rest) as [[b1 s2]| |]; [| done | done].
    destruct (runP s2 inputs2) as [[b2 s3]| |]; [| done | done].
    by rewrite app_assoc.
Qed.

End RunFacts.

(** ** Stored envelopes in sequence order *)

Section StoredFacts.

Context {Envelope : Type}.
Variable ParseCustomTXID : string -> Z * option string.
Implicit Types (M envs : gmap Z Envelope).
Implicit Types (inputs rest : list (Envelope * string * BatchSize)).

Lemma stored_app envs a b c :
  a ≤ b → b ≤ c → stored envs a c = stored envs a b ++ stored envs b c.
Proof.
  intros Hab Hbc. unfold stored.
  by rewrite (range_items_app envs a b c), omap_app by lia.
Qed.

Lemma stored_ext envs envs' a b :
  (∀ k, a ≤ k < b → envs' !! k = envs !! k) →
  stored envs' a b = stored envs a b.
Proof. intros H. unfold stored. by rewrite (range_items_ext envs envs'). Qed.

Lemma stored_nil envs a b : b ≤ a → stored envs a b = [].
Proof. intros H. unfold stored. by rewrite range_items_nil. Qed.

Lemma stored_one envs a :
  stored envs a (a + 1) = option_list (envs !! a).
Proof.
  unfold stored. rewrite range_items_one. simpl. by destruct (envs !! a).
Qed.

Lemma range_items_stored envs a b :
  (∀ k, a ≤ k < b → is_Some (envs !! k)) →
  range_items envs a b = Some <$> stored envs a b.
Proof.
  intros H. unfold stored, range_items.
  assert (Forall (λ k, a ≤ k < b) (seqZ a (b - a))) as Hall.
  { apply Forall_forall. intros k Hk. apply elem_of_seqZ in Hk. lia. }
  induction Hall as [|k l Hk Hl IH]; [done|].
  csimpl. destruct (H k Hk) as [x Hx]. rewrite Hx. csimpl.
  by f_equal.
Qed.

Lemma stored_insert_fresh M k msg N :
  M !! k = None → 0 ≤ k < N →
  stored (<[k := msg]> M) 0 N ≡ₚ msg :: stored M 0 N.
Proof.
  intros HMk Hk.
  rewrite (stored_app (<[k := msg]> M) 0 k N) by lia.
  rewrite (stored_app (<[k := msg]> M) k (k + 1) N) by lia.
  rewrite (stored_app M 0 k N) by lia.
  rewrite (stored_app M k (k + 1) N) by lia.
  rewrite !stored_one, lookup_insert_eq, HMk. simpl.
  rewrite (stored_ext M (<[k := msg]> M) 0 k)
    by (intros j Hj; apply lookup_insert_ne; lia).
  rewrite (stored_ext M (<[k := msg]> M) (k + 1) N)
    by (intros j Hj; apply lookup_insert_ne; lia).
  by rewrite Permutation_middle.
Qed.

Lemma scheduled_fresh inputs k :
  k ∉ sequence_of ParseCustomTXID <$> inputs →
  scheduled ParseCustomTXID inputs !! k = None.
Proof.
  intros Hk. unfold scheduled. apply not_elem_of_list_to_map_1.
  by rewrite <- list_fmap_compose.
Qed.

(** Listing the scheduled map by ascending sequence number enumerates every
    scheduled envelope exactly once. *)
Lemma stored_scheduled inputs N :
  NoDup (sequence_of ParseCustomTXID <$> inputs) →
  (∀ i, i ∈ inputs → 0 ≤ sequence_of ParseCustomTXID i < N) →
  stored (scheduled ParseCustomTXID inputs) 0 N ≡ₚ (λ i, i.1.1) <$> inputs.
Proof.
  induction inputs as [|[[msg txID] bs] rest IH]; intros Hnd Hin.
  - unfold scheduled, stored, range_items. simpl.
    induction (seqZ 0 (N - 0)) as [|k l IHl]; [done|].
    csimpl. by rewrite lookup_empty.
  - apply NoDup_cons in Hnd as [Hfresh Hnd].
    change (scheduled ParseCustomTXID ((msg, txID, bs) :: rest))
      with (<[(ParseCustomTXID txID).1 := msg]>
              (scheduled ParseCustomTXID rest)).
    rewrite stored_insert_fresh.
    + simpl. f_equiv. apply IH; [done|].
      intros i Hi. apply Hin. by right.
    + by apply scheduled_fresh.
    + apply (Hin (msg, txID, bs)). by left.
Qed.

End StoredFacts.

(** ** The priority queue *)

Module endorser_facts.

Import endorser.

Ltac Zify.zify_post_hook ::= Z.to_euclidean_division_equations.

Section Heap.

Context {U R : Type}.
Implicit Types (h : PriorityQueue U R) (x y r : UnpackedProposalWrapper U R).
Implicit Types (i j k c n : nat).

Lemma index_Returns h i x : h !! i = Some x → index h i = Returns x.
Proof. intros H. unfold index. by rewrite H. Qed.

Lemma Less_Returns h i j x y :
  h !! i = Some x → h !! j = Some y →
  Less h i j = Returns (bool_decide (Sequence x < Sequence y)).
Proof.
  intros Hi Hj. unfold Less.
  by rewrite (index_Returns _ _ _ Hi), (index_Returns _ _ _ Hj).
Qed.

Lemma Swap_Returns h i j x y :
  h !! i = Some x → h !! j = Some y →
  Swap h i j = Returns (<[j := x]> (<[i := y]> h)).
Proof.
  intros Hi Hj. unfold Swap.
  by rewrite (index_Returns _ _ _ Hi), (index_Returns _ _ _ Hj).
Qed.

Lemma swap_lookup h i j x y k :
  h !! i = Some x → h !! j = Some y →
  <[j := x]> (<[i := y]> h) !! k =
  if decide (k = j) then Some x
  else if decide (k = i) then Some y else h !! k.
Proof.
  intros Hi Hj.
  pose proof (lookup_lt_Some _ _ _ Hi). pose proof (lookup_lt_Some _ _ _ Hj).
  rewrite !list_lookup_insert, !length_insert.
  repeat case_decide; try done; lia.
Qed.

Lemma swap_Permutation h i j x y :
  h !! i = Some x → h !! j = Some y →
  <[j := x]> (<[i := y]> h) ≡ₚ h.
Proof.
  intros Hi Hj. apply Permutation_inj. split.
  - by rewrite !length_insert.
  - exists (λ k, if decide (k = j) then i else if decide (k = i) then j else k).
    split.
    + intros a b. repeat case_decide; lia.
    + intros k. rewrite (swap_lookup _ _ _ _ _ _ Hi Hj).
      repeat case_decide; subst; done.
Qed.

(** The root of a heap is a minimum. *)
Lemma is_heap_root h r :
  is_heap h → h !! 0%nat = Some r →
  ∀ k x, h !! k = Some x → Sequence r ≤ Sequence x.
Proof.
  intros Hh Hr k. induction (lt_wf k) as [k _ IH]. intros x Hx.
  destruct (decide (k = 0)%nat) as [->|Hk]; [by simplify_eq|].
  assert (is_Some (h !! ((k - 1) / 2)%nat)) as [y Hy].
  { apply lookup_lt_is_Some. pose proof (lookup_lt_Some _ _ _ Hx). lia. }
  etrans; [apply (IH ((k - 1) / 2)%nat); [lia | done]|].
  apply (Hh k x y); [lia | done | done].
Qed.

Lemma up_S fuel h j :
  up (S fuel) h j =
  if bool_decide (((j - 1) / 2)%nat = j) then Returns h
  else
    less ← Less h j ((j - 1) / 2)%nat;
    if negb less then Returns h
    else h ← Swap h ((j - 1) / 2)%nat j; up fuel h ((j - 1) / 2)%nat.
Proof. done. Qed.

Lemma up_spec fuel : ∀ h j,
  (j < length h)%nat → (j < fuel)%nat → up_inv h j →
  ∃ h', up fuel h j = Returns h' ∧ is_heap h' ∧ h' ≡ₚ h.
Proof.
  induction fuel as [|fuel IH]; intros h j Hj Hfuel [Ha Hb]; [lia|].
  rewrite up_S. case_bool_decide as Hij.
  { exists h. split_and!; [done | | done].
    intros c x y Hc Hx Hy. apply (Ha c x y); [done | lia | done | done]. }
  destruct (lookup_lt_is_Some_2 h j Hj) as [xj Hxj].
  destruct (lookup_lt_is_Some_2 h ((j - 1) / 2)%nat) as [xi Hxi]; [lia|].
  rewrite (Less_Returns _ _ _ _ _ Hxj Hxi).
  cbv beta iota zeta delta [mbind outcome_bind mret outcome_ret].
  case_bool_decide as Hlt; cbn [negb].
  2:{ exists h. split_and!; [done | | done].
      intros c x y Hc Hx Hy. destruct (decide (c = j)) as [->|Hne].
      - simplify_eq. lia.
      - by apply (Ha c x y). }
  rewrite (Swap_Returns _ _ _ _ _ Hxi Hxj).
  set (h1 := <[j := xi]> (<[((j - 1) / 2)%nat := xj]> h)).
  assert (∀ k, h1 !! k = if decide (k = j) then Some xi
                         else if decide (k = ((j - 1) / 2)%nat) then Some xj
                         else h !! k) as Hh1
    by (intros k; by apply swap_lookup).
  destruct (IH h1 ((j - 1) / 2)%nat) as (h' & Hup & Hheap & Hperm).
  - unfold h1. rewrite !length_insert. lia.
  - lia.
  - split.
    + intros c x y Hc Hci Hx Hy. rewrite Hh1 in Hx, Hy.
      destruct (decide (c = j)) as [Hcj|Hcj].
      * rewrite decide_False, decide_True in Hy by lia.
        injection Hx as <-. injection Hy as <-. lia.
      * rewrite decide_False in Hx by done.
        destruct (decide (((c - 1) / 2)%nat = j)) as [Hpj|Hpj].
        { injection Hy as <-.
          apply (Hb c x xi); [done | done | lia | done | done]. }
        destruct (decide (((c - 1) / 2)%nat = ((j - 1) / 2)%nat)) as [Hpi|Hpi].
        { injection Hy as <-.
          assert (Sequence xi ≤ Sequence x); [|lia].
          apply (Ha c x xi); [done | done | done | by rewrite Hpi]. }
        by apply (Ha c x y).
    + intros c x y Hc Hci Hi Hx Hy. rewrite Hh1 in Hx, Hy.
      rewrite !decide_False in Hy by lia.
      assert (Sequence y ≤ Sequence xi) as Hyi
        by (apply (Ha ((j - 1) / 2)%nat xi y); [done | lia | done | done]).
      destruct (decide (c = j)) as [Hcj|Hcj].
      * by injection Hx as <-.
      * rewrite decide_False in Hx by lia.
        assert (Sequence xi ≤ Sequence x); [|lia].
        apply (Ha c x xi); [done | done | done | by rewrite Hci].
  - exists h'. split_and!; [done | done |].
    rewrite Hperm. by apply swap_Permutation.
Qed.

Lemma heap_Push_spec h x :
  is_heap h →
  ∃ h', heap_Push h x = Returns h' ∧ is_heap h' ∧ h' ≡ₚ x :: h.
Proof.
  intros Hh. unfold heap_Push, Push, Len.
  destruct (up_spec (length (h ++ [x])) (h ++ [x]) (length (h ++ [x]) - 1))
    as (h' & Hup & Hheap & Hperm).
  - rewrite length_app. simpl. lia.
  - rewrite length_app. simpl. lia.
  - rewrite length_app. simpl.
    replace (length h + 1 - 1)%nat with (length h) by lia. split.
    + intros c a b Hc Hne Ha Hb.
      assert (c < length h)%nat.
      { apply lookup_lt_Some in Ha. rewrite length_app in Ha. simpl in Ha.
        lia. }
      rewrite lookup_app_l in Ha, Hb by lia. by apply (Hh c a b).
    + intros c a b Hc Hp Hn Ha Hb.
      apply lookup_lt_Some in Ha. rewrite length_app in Ha. simpl in Ha. lia.
  - exists h'. split_and!; [done | done |].
    rewrite Hperm. by rewrite Permutation_app_comm.
Qed.

Lemma down_S fuel h i0 i n :
  down (S fuel) h i0 i n =
  if bool_decide (n ≤ 2 * i + 1)%nat then Returns (h, bool_decide (i0 < i)%nat)
  else
    j ← (if bool_decide (2 * i + 1 + 1 < n)%nat then
           less ← Less h (2 * i + 1 + 1) (2 * i + 1);
           Returns (if less : bool then (2 * i + 1 + 1)%nat
                    else (2 * i + 1)%nat)
         else Returns (2 * i + 1)%nat);
    less ← Less h j i;
    if negb less then Returns (h, bool_decide (i0 < i)%nat)
    else h ← Swap h i j; down fuel h i0 j n.
Proof. done. Qed.

Lemma down_spec fuel : ∀ h i0 i n,
  (n ≤ length h)%nat → (n - i < fuel)%nat → down_inv h i n →
  ∃ h' b, down fuel h i0 i n = Returns (h', b) ∧
          heap_upto h' n ∧ h' ≡ₚ h ∧ ∀ k, (n ≤ k)%nat → h' !! k = h !! k.
Proof.
  induction fuel as [|fuel IH]; intros h i0 i n Hn Hfuel [Ha Hb]; [lia|].
  rewrite down_S. case_bool_decide as Hj1.
  { exists h, (bool_decide (i0 < i)%nat). split_and!; try done.
    intros c x y Hc. apply Ha; [done | lia]. }
  destruct (lookup_lt_is_Some_2 h i) as [xi Hxi]; [lia|].
  destruct (lookup_lt_is_Some_2 h (2 * i + 1)%nat) as [x1 Hx1]; [lia|].
  assert (∃ j xj,
            (if bool_decide (2 * i + 1 + 1 < n)%nat then
               less ← Less h (2 * i + 1 + 1) (2 * i + 1);
               Returns (if less : bool then (2 * i + 1 + 1)%nat
                        else (2 * i + 1)%nat)
             else Returns (2 * i + 1)%nat) = Returns j ∧
            (j < n)%nat ∧ ((j - 1) / 2)%nat = i ∧ (0 < j)%nat ∧
            h !! j = Some xj ∧
            ∀ c xc, (0 < c < n)%nat → ((c - 1) / 2)%nat = i →
                    h !! c = Some xc → Sequence xj ≤ Sequence xc)
    as (j & xj & -> & Hjn & Hpj & Hj0 & Hxj & Hmin).
  { case_bool_decide as Hj2.
    - destruct (lookup_lt_is_Some_2 h (2 * i + 1 + 1)%nat) as [x2 Hx2]; [lia|].
      rewrite (Less_Returns _ _ _ _ _ Hx2 Hx1).
      cbv beta iota zeta delta [mbind outcome_bind mret outcome_ret].
      case_bool_decide as Hlt.
      + exists (2 * i + 1 + 1)%nat, x2. split_and!; try done; try lia.
        intros c xc Hc Hpc Hxc.
        assert (c = 2 * i + 1 ∨ c = 2 * i + 1 + 1)%nat as [->| ->] by lia;
          simplify_eq; lia.
      + exists (2 * i + 1)%nat, x1. split_and!; try done; try lia.
        intros c xc Hc Hpc Hxc.
        assert (c = 2 * i + 1 ∨ c = 2 * i + 1 + 1)%nat as [->| ->] by lia;
          simplify_eq; lia.
    - exists (2 * i + 1)%nat, x1. split_and!; try done; try lia.
      intros c xc Hc Hpc Hxc.
      assert (c = 2 * i + 1)%nat as -> by lia. simplify_eq. lia. }
  cbv beta iota zeta delta [mbind outcome_bind mret outcome_ret].
  rewrite (Less_Returns _ _ _ _ _ Hxj Hxi).
  case_bool_decide as Hlt; cbn [negb].
  2:{ exists h, (bool_decide (i0 < i)%nat). split_and!; try done.
      intros c x y Hc Hx Hy.
      destruct (decide (((c - 1) / 2)%nat = i)) as [Hpc|Hpc].
      - rewrite Hpc in Hy. simplify_eq.
        pose proof (Hmin c x Hc Hpc Hx). lia.
      - by apply (Ha c x y). }
  rewrite (Swap_Returns _ _ _ _ _ Hxi Hxj).
  set (h1 := <[j := xi]> (<[i := xj]> h)).
  assert (∀ k, h1 !! k = if decide (k = j) then Some xi
                         else if decide (k = i) then Some xj
                         else h !! k) as Hh1
    by (intros k; by apply swap_lookup).
  destruct (IH h1 i0 j n) as (h' & b & Hdown & Hheap & Hperm & Hrest).
  - unfold h1. by rewrite !length_insert.
  - lia.
  - split.
    + intros c x y Hc Hpc Hx Hy. rewrite Hh1 in Hx, Hy.
      destruct (decide (c = j)) as [Hcj|Hcj].
      * rewrite decide_False, decide_True in Hy by lia.
        injection Hx as <-. injection Hy as <-. lia.
      * rewrite (decide_False (P := ((c - 1) / 2)%nat = j)) in Hy by done.
        destruct (decide (c = i)) as [Hci|Hci].
        { injection Hx as <-.
          rewrite decide_False in Hy by lia.
          apply (Hb j xj y); [lia | done | lia | done | by rewrite <- Hci]. }
        destruct (decide (((c - 1) / 2)%nat = i)) as [Hpi|Hpi].
        { injection Hy as <-. by apply (Hmin c x). }
        by apply (Ha c x y).
    + intros c x y Hc Hpc Hj Hx Hy. rewrite Hh1 in Hx, Hy.
      rewrite !decide_False in Hx by lia.
      rewrite decide_False, decide_True in Hy by lia.
      injection Hy as <-.
      apply (Ha c x xj); [done | lia | done | by rewrite Hpc].
  - exists h', b. split_and!; [done | done | |].
    + rewrite Hperm. by apply swap_Permutation.
    + intros k Hk. rewrite Hrest, Hh1 by done.
      by rewrite !decide_False by lia.
Qed.

Lemma heap_Pop_spec h r :
  is_heap h → h !! 0%nat = Some r →
  ∃ h', heap_Pop h = Returns (r, h') ∧ is_heap h' ∧ h ≡ₚ r :: h'.
Proof.
  intros Hh Hr. unfold heap_Pop, Len.
  pose proof (lookup_lt_Some _ _ _ Hr) as Hlen.
  destruct (lookup_lt_is_Some_2 h (length h - 1)%nat) as [z Hz]; [lia|].
  rewrite (Swap_Returns _ _ _ _ _ Hr Hz).
  cbv beta iota zeta delta [mbind outcome_bind mret outcome_ret].
  set (n := (length h - 1)%nat) in *.
  set (h0 := <[n := r]> (<[0%nat := z]> h)).
  assert (∀ k, h0 !! k = if decide (k = n) then Some r
                         else if decide (k = 0)%nat then Some z
                         else h !! k) as Hh0
    by (intros k; by apply swap_lookup).
  assert (length h0 = length h) as Hlen0
    by (unfold h0; by rewrite !length_insert).
  destruct (down_spec (length h0) h0 0 0 n)
    as (h' & b & Hdown & Hheap & Hperm & Hrest).
  - lia.
  - lia.
  - split; [|intros; lia].
    intros c x y Hc Hpc Hx Hy. rewrite Hh0 in Hx, Hy.
    rewrite !decide_False in Hx by lia. rewrite !decide_False in Hy by lia.
    apply (Hh c x y); [lia | done | done].
  - rewrite Hdown.
    assert (length h' = S n) as Hlen'.
    { rewrite (Permutation_length Hperm). lia. }
    assert (h' !! n = Some r) as Hlast.
    { rewrite Hrest, Hh0 by lia. by rewrite decide_True. }
    unfold Pop. rewrite Hlen'.
    replace (S n - 1)%nat with n by lia.
    rewrite (index_Returns _ _ _ Hlast).
    cbv beta iota zeta delta [mbind outcome_bind mret outcome_ret].
    exists (take n h'). split_and!; [done | |].
    + intros c x y Hc Hx Hy.
      apply lookup_take_Some in Hx as [Hx Hcn].
      apply lookup_take_Some in Hy as [Hy _].
      apply (Hheap c x y); [lia | done | done].
    + rewrite <- (swap_Permutation h 0 n r z Hr Hz). fold h0.
      rewrite <- Hperm.
      rewrite <- (take_drop_middle h' n r Hlast) at 1.
      rewrite (drop_ge h' (S n)) by lia.
      by rewrite Permutation_app_comm.
Qed.

End Heap.

(** ** The dispatcher *)

Section Dispatcher.

Context {U R : Type}.
Implicit Types (h : PriorityQueue U R) (x y r : UnpackedProposalWrapper U R).
Implicit Types (po : ProposalOrderer U R) (sys : system U R).
Implicit Types (P sent : list (UnpackedProposalWrapper U R)).

Lemma send_loop_S fuel po :
  send_loop (S fuel) po =
  match queue po with
  | [] => Returns po
  | first :: _ =>
      if bool_decide (Sequence first = nextSequence po) then
        '(upw, q) ← heap_Pop (queue po);
        send_loop fuel
          {| nextSequence := wrap_int (nextSequence po + 1);
             queue := q;
             processCh := processCh po ++ [upw];
             trySendCh := trySendCh po |}
      else Returns po
  end.
Proof. done. Qed.

Lemma send_loop_spec fuel : ∀ po,
  is_heap (queue po) →
  0 ≤ nextSequence po →
  nextSequence po + Z.of_nat (length (queue po)) ≤ max_int →
  (length (queue po) < fuel)%nat →
  ∃ po' sent,
    send_loop fuel po = Returns po' ∧
    is_heap (queue po') ∧
    processCh po' = processCh po ++ sent ∧
    queue po ≡ₚ sent ++ queue po' ∧
    Sequence <$> sent
      = seqZ (nextSequence po) (nextSequence po' - nextSequence po) ∧
    nextSequence po ≤ nextSequence po' ∧
    trySendCh po' = trySendCh po ∧
    ∀ x, queue po' !! 0%nat = Some x → Sequence x ≠ nextSequence po'.
Proof.
  induction fuel as [|fuel IH]; intros po Hheap Hnext Hlim Hfuel; [lia|].
  rewrite send_loop_S. destruct (queue po) as [|first rest] eqn:Hq.
  { exists po, []. rewrite Hq, app_nil_r, Z.sub_diag. by split_and!. }
  case_bool_decide as Hfirst.
  2:{ exists po, []. rewrite Hq, app_nil_r, Z.sub_diag.
      split_and!; try done. intros x [= <-]. done. }
  destruct (heap_Pop_spec (first :: rest) first Hheap eq_refl)
    as (h' & Hpop & Hheap' & Hperm).
  rewrite Hpop.
  cbv beta iota zeta delta [mbind outcome_bind mret outcome_ret].
  simpl in Hlim, Hfuel.
  assert (length h' = length rest) as Hlen.
  { apply Permutation_length in Hperm. simpl in Hperm. lia. }
  rewrite (wrap_int_small (nextSequence po + 1))
    by (unfold min_int, max_int in *; lia).
  destruct (IH {| nextSequence := nextSequence po + 1; queue := h';
                  processCh := processCh po ++ [first];
                  trySendCh := trySendCh po |})
    as (po' & sent & Hloop & Hheap2 & Hch & Hperm2 & Hseq & Hmono & Htry & Hgap);
    simpl; try done; try lia.
  simpl in *. exists po', (first :: sent). split_and!; try done; try lia.
  - by rewrite Hch, <- app_assoc.
  - by rewrite Hperm, Hperm2.
  - rewrite fmap_cons, Hseq, Hfirst.
    rewrite (seqZ_cons (nextSequence po)) by lia. do 2 f_equal; lia.
Qed.

Lemma po_inv_new : po_inv [] (@NewSystem U R).
Proof.
  split; simpl; try done. right. intros x Hx. done.
Qed.

Lemma po_inv_bounds P sys :
  po_inv P sys →
  nextSequence (orderer sys) = Z.of_nat (length (dispatched sys)) ∧
  (length (dispatched sys) + length (queue (orderer sys)))%nat = length P.
Proof.
  intros [_ Hperm Hseq Hnext _]. split.
  - apply (f_equal length) in Hseq.
    rewrite length_fmap, length_seqZ in Hseq. lia.
  - apply Permutation_length in Hperm. by rewrite length_app in Hperm.
Qed.

Ltac unchanged :=
  eexists; split; [done|];
  split_and!; [split; unfold dispatched; simpl; done | simpl; lia | done].

Lemma step_inv P sys ev :
  po_inv P sys →
  Z.of_nat (length (P ++ pushed [ev])) ≤ max_int →
  ∃ sys',
    step sys ev = Returns sys' ∧
    po_inv (P ++ pushed [ev]) sys' ∧
    nextSequence (orderer sys) ≤ nextSequence (orderer sys') ∧
    dispatched sys `prefix_of` dispatched sys'.
Proof.
  intros Hinv Hlim. pose proof (po_inv_bounds _ _ Hinv) as [Hn Hlen].
  destruct Hinv as [Hheap Hperm Hseq Hnext Hsig].
  destruct sys as [[n q ch t] k rec]. unfold dispatched in *. simpl in *.
  destruct ev as [upw| | |]; simpl.
  - unfold Push_locked. simpl.
    destruct (heap_Push_spec q upw Hheap) as (q' & -> & Hheap' & Hp).
    cbv beta iota zeta delta [mbind outcome_bind mret outcome_ret].
    eexists. split; [done|].
    split_and!; [split | done | done]; unfold dispatched; simpl.
    + done.
    + rewrite Hp, <- Hperm. unfold pushed. simpl.
      rewrite <- Permutation_middle.
      by rewrite (Permutation_app_comm _ [upw]).
    + done.
    + done.
    + left. lia.
  - rewrite app_nil_r. destruct k as [|k]; [unchanged|].
    unfold Push_signal. simpl. case_bool_decide; [|unchanged].
    eexists. split; [done|].
    split_and!; [split | done | done]; unfold dispatched; simpl; try done.
    left. lia.
  - rewrite app_nil_r. unfold SendProposalsInOrder.
    cbn [orderer trySendCh nextSequence queue processCh].
    destruct t as [|signals]; [unchanged|].
    destruct (send_loop_spec (S (Len q))
                {| nextSequence := n; queue := q;
                   processCh := ch; trySendCh := signals |})
      as (po' & sent & -> & Hheap' & Hch & Hp & Hs & Hmono & Htry' & Hgap);
      simpl; try done.
    { rewrite app_nil_r in Hlim. lia. }
    { unfold Len. lia. }
    simpl in *.
    cbv beta iota zeta delta [mbind outcome_bind mret outcome_ret].
    eexists. split; [done|].
    split_and!; [split | done |]; unfold dispatched; simpl.
    + done.
    + rewrite Hch, <- Hperm, Hp. by rewrite !app_assoc.
    + rewrite Hch, app_assoc, fmap_app, Hseq, Hs.
      transitivity (seqZ 0 (n + (nextSequence po' - n))).
      * rewrite seqZ_app by lia. by rewrite Z.add_0_l.
      * f_equal. lia.
    + lia.
    + by right.
    + rewrite Hch, app_assoc. by apply prefix_app_r.
  - rewrite app_nil_r. unfold Pop_received. simpl.
    destruct ch as [|upw rest]; [unchanged|].
    eexists. split; [done|].
    split_and!; [split | done |]; unfold dispatched; simpl; try done.
    + by rewrite <- (app_assoc rec [upw] rest).
    + by rewrite <- (app_assoc rec [upw] rest).
    + by rewrite <- (app_assoc rec [upw] rest).
Qed.

Lemma exec_inv trace : ∀ P sys,
  po_inv P sys →
  Z.of_nat (length (P ++ pushed trace)) ≤ max_int →
  ∃ sys',
    exec sys trace = Returns sys' ∧
    po_inv (P ++ pushed trace) sys' ∧
    nextSequence (orderer sys) ≤ nextSequence (orderer sys') ∧
    dispatched sys `prefix_of` dispatched sys'.
Proof.
  induction trace as [|ev trace IH]; intros P sys Hinv Hlim.
  - exists sys. unfold pushed. simpl. rewrite app_nil_r. by split_and!.
  - assert (pushed (ev :: trace) = pushed [ev] ++ pushed trace) as Hsplit
      by (unfold pushed; by rewrite <- omap_app).
    rewrite Hsplit, app_assoc in *.
    destruct (step_inv P sys ev Hinv) as (sys1 & Hstep & Hinv1 & Hn1 & Hp1).
    { rewrite length_app in Hlim. lia. }
    destruct (IH _ sys1 Hinv1 Hlim) as (sys2 & Hexec & Hinv2 & Hn2 & Hp2).
    exists sys2. simpl. rewrite Hstep.
    cbv beta iota zeta delta [mbind outcome_bind mret outcome_ret].
    split_and!; [done | done | lia | by etrans].
Qed.

(** Once every [Push] has signalled and the worker has handled every
    signal, a dense set of sequence numbers is dispatched entirely. *)
Lemma quiescent_dispatched P sys N :
  po_inv P sys → 0 ≤ N →
  Sequence <$> P ≡ₚ seqZ 0 N →
  signalling sys = 0%nat → trySendCh (orderer sys) = 0%nat →
  nextSequence (orderer sys) = N ∧ queue (orderer sys) = [] ∧
  dispatched sys ≡ₚ P.
Proof.
  intros Hinv HN HP Hsig Htry.
  pose proof (po_inv_bounds _ _ Hinv) as [Hn Hlen].
  destruct Hinv as [Hheap Hperm Hseq Hnext Hgap].
  assert (length P = Z.to_nat N) as HlenP.
  { apply Permutation_length in HP.
    by rewrite length_fmap, length_seqZ in HP. }
  set (n := nextSequence (orderer sys)) in *.
  assert (Sequence <$> queue (orderer sys) ≡ₚ seqZ n (N - n)) as Hq.
  { apply (Permutation_app_inv_l (seqZ 0 n)).
    rewrite <- Hseq, <- fmap_app, Hperm, HP.
    replace N with (n + (N - n)) at 1 by lia.
    rewrite seqZ_app by lia. by rewrite Z.add_0_l, Hseq. }
  destruct (queue (orderer sys)) as [|r rest] eqn:Hqueue.
  - apply Permutation_length in Hq. rewrite length_seqZ in Hq. simpl in Hq.
    split_and!; [lia | done |]. by rewrite <- Hperm, app_nil_r.
  - exfalso. destruct Hgap as [Hpos|Hgap]; [lia|].
    apply (Hgap r eq_refl).
    assert (Sequence r ∈ seqZ n (N - n)) as Hr.
    { rewrite <- Hq. simpl. left. }
    apply elem_of_seqZ in Hr.
    assert (n ∈ Sequence <$> r :: rest) as Hin.
    { rewrite Hq. apply elem_of_seqZ. lia. }
    apply list_elem_of_fmap in Hin as (x & Hx & Hxin).
    apply list_elem_of_lookup in Hxin as [k Hk].
    pose proof (is_heap_root _ r Hheap eq_refl k x Hk). lia.
Qed.

(** With distinct, non-negative sequence numbers nothing queued is below
    the next sequence to dispatch. *)
Lemma queued_above_next P sys x :
  po_inv P sys →
  NoDup (Sequence <$> P) → Forall (λ y, 0 ≤ Sequence y) P →
  x ∈ queue (orderer sys) →
  nextSequence (orderer sys) ≤ Sequence x.
Proof.
  intros [Hheap Hperm Hseq Hnext Hgap] Hnd Hpos Hx.
  rewrite <- Hperm, fmap_app, Hseq in Hnd.
  apply NoDup_app in Hnd as (_ & Hdisj & _).
  assert (0 ≤ Sequence x) as Hx0.
  { rewrite Forall_forall in Hpos. apply Hpos.
    rewrite <- Hperm. apply elem_of_app. by right. }
  destruct (decide (nextSequence (orderer sys) ≤ Sequence x)) as [|Hlt];
    [done|].
  exfalso. apply (Hdisj (Sequence x)).
  - apply elem_of_seqZ. lia.
  - apply list_elem_of_fmap. by exists x.
Qed.

Lemma exec_app trace1 trace2 sys :
  exec sys (trace1 ++ trace2) =
  match exec sys trace1 with
  | Returns sys1 => exec sys1 trace2
  | Panics => Panics
  | OutOfFuel => OutOfFuel
  end.
Proof.
  revert sys. induction trace1 as [|ev trace1 IH]; intros sys; [done|].
  simpl. destruct (step sys ev) as [sys1| |]; [| done | done].
  cbv beta iota zeta delta [mbind outcome_bind]. apply IH.
Qed.

Lemma pushed_app (trace1 trace2 : list (event U R)) :
  pushed (trace1 ++ trace2) = pushed trace1 ++ pushed trace2.
Proof. unfold pushed. apply omap_app. Qed.

End Dispatcher.
End endorser_facts.

(** * The claims about the batch cutter *)

Section BlockcutterClaims.

Context {Envelope : Type}.
Variable messageSizeBytes : Envelope -> Z.
Variable ParseCustomTXID : string -> Z * option string.
Implicit Types (s : Scheduler Envelope) (M : gmap Z Envelope).
Implicit Types (inputs : list (Envelope * string * BatchSize)).


(** C2 (completeness).  Schedule envelopes under distinct sequence numbers
    taken from [0, N), in any order and with any limits.  The run never
    exhausts its fuel and panics only under a zero [MaxMessageCount].  When
    it returns, the emitted batches hold the envelopes of the slots
    [0, startSequence) and, followed by what is still stored (forming batch
    and out-of-order arrivals, by ascending sequence), they list every
    scheduled envelope in sequence order, each exactly once. *)
Theorem schedule_completeness (N : Z) inputs :
  0 ≤ N ≤ max_int →
  NoDup (sequence_of ParseCustomTXID <$> inputs) →
  Forall (λ i, 0 ≤ sequence_of ParseCustomTXID i < N) inputs →
  match run messageSizeBytes ParseCustomTXID NewScheduler inputs with
  | Returns (batches, s) =>
      ∃ items,
        concat batches = Some <$> items ∧
        items ++ stored (envelopes s) (startSequence s) N
          = stored (scheduled ParseCustomTXID inputs) 0 N ∧
        stored (scheduled ParseCustomTXID inputs) 0 N ≡ₚ (λ i, i.1.1) <$> inputs
  | Panics => ∃ i, i ∈ inputs ∧ MaxMessageCount i.2 ≤ 0
  | OutOfFuel => False
  end.
Proof.
  intros HN Hnd Hin. rewrite Forall_forall in Hin.
  pose proof (run_dense messageSizeBytes ParseCustomTXID inputs ∅ []
                NewScheduler dense_new Hnd) as Hrun.
  destruct (run messageSizeBytes ParseCustomTXID NewScheduler inputs) as [[batches s]| |].
  - destruct Hrun as ([Hwf Hgap Hem Henv Hpre Hrange] & _).
    { intros i Hi. split; [apply lookup_empty|]. specialize (Hin i Hi). lia. }
    rewrite (left_id_L ∅ (∪)) in *. simpl in Hem.
    pose proof (wf_start _ Hwf). pose proof (wf_order _ Hwf).
    assert (nextSequence s ≤ N) as HnN.
    { destruct (decide (nextSequence s ≤ N)) as [|Hgt]; [done|].
      destruct (Hpre N) as [x Hx]; [lia|].
      apply elem_of_list_to_map_2 in Hx.
      apply list_elem_of_fmap in Hx as (i & [= HNi _] & Hi).
      specialize (Hin i Hi). lia. }
    exists (stored (scheduled ParseCustomTXID inputs) 0 (startSequence s)). split_and!.
    + rewrite Hem. apply range_items_stored. intros k Hk. apply Hpre. lia.
    + rewrite (stored_app (scheduled ParseCustomTXID inputs) 0 (startSequence s) N) by lia.
      f_equal. apply stored_ext. intros k Hk.
      rewrite Henv. by rewrite bool_decide_eq_false_2 by lia.
    + by apply stored_scheduled.
  - apply Hrun. intros i Hi. split; [apply lookup_empty|].
    specialize (Hin i Hi). lia.
  - apply Hrun. intros i Hi. split; [apply lookup_empty|].
    specialize (Hin i Hi). lia.
Qed.

(** The count check at its boundary: the released item is the
    [MaxMessageCount]-th accumulated one and the byte total stays below the
    preferred size. *)
Lemma count_forced_cut msg bs mb s x :
  1 ≤ MaxMessageCount bs < 2 ^ 32 →
  wf s → envelopes s !! nextSequence s = Some x →
  nextSequence s - startSequence s = MaxMessageCount bs - 1 →
  wrap_uint32 (batchSize s + messageSizeBytes msg) < PreferredMaxBytes bs →
  ∃ s',
    release_one messageSizeBytes msg bs mb s
      = Returns
          (mb ++ [Some <$> (stored (envelopes s) (startSequence s)
                              (nextSequence s) ++ [x])], s') ∧
    batchSize s' = 0 ∧
    startSequence s' = nextSequence s + 1 ∧
    nextSequence s' = nextSequence s + 1.
Proof.
  intros Hmax Hwf Hnext Hcount Hbelow.
  assert (nextSequence s < max_int) as Hlim by (eapply wf_keys; eauto).
  pose proof (wf_start _ Hwf) as Hs0. pose proof (wf_order _ Hwf) as Hs1.
  assert (∀ v,
            cut_batch (set_batchSize
                         (set_nextSequence s (nextSequence s + 1)) v)
              (nextSequence s + 1)
            = Some <$> (stored (envelopes s) (startSequence s)
                          (nextSequence s) ++ [x])) as Hbatch.
  { intros v. rewrite cut_batch_items. simpl.
    rewrite range_items_snoc, Hnext, fmap_app by lia.
    f_equal. apply range_items_stored. apply (wf_region _ Hwf). }
  unfold release_one.
  rewrite (wrap_int_small (nextSequence s + 1))
    by (unfold min_int, max_int in *; lia).
  cbv beta iota zeta delta [mbind outcome_bind mret outcome_ret].
  cbn [batchSize set_nextSequence].
  rewrite (bool_decide_eq_true_2 _ Hbelow).
  cbn [nextSequence startSequence set_batchSize set_nextSequence].
  rewrite (wrap_int_small (nextSequence s + 1 - startSequence s))
    by (unfold min_int, max_int in *; lia).
  rewrite (wrap_uint32_small (nextSequence s + 1 - startSequence s)) by lia.
  rewrite bool_decide_eq_true_2 by lia.
  rewrite Cut_Returns by (simpl; lia).
  eexists. split; [by rewrite Hbatch | done].
Qed.

(** C4 (count bound), as amended.  Drive a fresh scheduler with the same
    limits on every call, [MaxMessageCount] at least one.  Whatever is
    scheduled (out of order, repeated or negative sequence numbers included),
    the run returns, no emitted batch has more than [MaxMessageCount]
    envelopes, fewer than [MaxMessageCount] slots are left accumulated and
    the byte accumulator is zero whenever nothing is accumulated.  When a
    released item brings the count to [MaxMessageCount] without a byte-driven
    cut, one batch is cut holding everything accumulated together with that
    item, and the accumulator is reset to 0. *)
Theorem count_bound bs :
  1 ≤ MaxMessageCount bs < 2 ^ 32 →
  (∀ inputs,
     Forall (λ i, i.2 = bs ∧ sequence_of ParseCustomTXID i < max_int) inputs →
     ∃ batches s,
       run messageSizeBytes ParseCustomTXID NewScheduler inputs
         = Returns (batches, s) ∧
       Forall (λ b, Z.of_nat (length b) ≤ MaxMessageCount bs) batches ∧
       nextSequence s - startSequence s < MaxMessageCount bs ∧
       (startSequence s = nextSequence s → batchSize s = 0)) ∧
  (∀ msg mb s x,
     wf s → envelopes s !! nextSequence s = Some x →
     nextSequence s - startSequence s = MaxMessageCount bs - 1 →
     wrap_uint32 (batchSize s + messageSizeBytes msg)
       < PreferredMaxBytes bs →
     ∃ s',
       release_one messageSizeBytes msg bs mb s
         = Returns
             (mb ++ [Some <$> (stored (envelopes s) (startSequence s)
                                 (nextSequence s) ++ [x])], s') ∧
       batchSize s' = 0 ∧
       startSequence s' = nextSequence s + 1 ∧
       nextSequence s' = nextSequence s + 1).
Proof.
  intros Hmax. split.
  - intros inputs Hin.
    pose proof (run_count messageSizeBytes ParseCustomTXID bs inputs
                  NewScheduler Hmax Hin wf_new) as Hrun.
    destruct (run messageSizeBytes ParseCustomTXID NewScheduler inputs)
      as [[batches s]| |].
    + destruct Hrun as (HQ & [Hc1 Hc2] & _).
      { split; simpl; [lia | done]. }
      by exists batches, s.
    + destruct Hrun. split; simpl; [lia | done].
    + destruct Hrun. split; simpl; [lia | done].
  - intros msg mb s x. by apply count_forced_cut.
Qed.

(** C3 (byte bound), as amended.  Drive a fresh scheduler with the same
    limits on every call and with envelopes arriving in sequence order
    (sequence numbers 0, 1, 2, ...), each small enough that the 32-bit
    accumulator cannot overflow.  The run never exhausts its fuel and panics
    only under a zero [MaxMessageCount]; every batch it emits has a total
    byte size of at most [PreferredMaxBytes] (the bound is reached by the
    exact-threshold cut) or holds exactly one envelope. *)
Theorem byte_bound bs inputs :
  0 ≤ PreferredMaxBytes bs →
  Forall (λ i, i.2 = bs ∧ 0 ≤ messageSizeBytes i.1.1 ∧
               PreferredMaxBytes bs + messageSizeBytes i.1.1 < 2 ^ 32)
         inputs →
  sequence_of ParseCustomTXID <$> inputs
    = seqZ 0 (Z.of_nat (length inputs)) →
  Z.of_nat (length inputs) ≤ max_int →
  match run messageSizeBytes ParseCustomTXID NewScheduler inputs with
  | Returns (batches, s) =>
      Forall (λ b, batch_bytes messageSizeBytes b ≤ PreferredMaxBytes bs ∨
                   length b = 1%nat) batches
  | Panics => MaxMessageCount bs ≤ 0
  | OutOfFuel => False
  end.
Proof.
  intros Hpref Hin Hkeys Hlen.
  pose proof (run_inorder messageSizeBytes ParseCustomTXID bs inputs
                NewScheduler Hpref Hin Hkeys) as Hrun.
  destruct (run messageSizeBytes ParseCustomTXID NewScheduler inputs)
    as [[batches s]| |].
  - apply Hrun; [simpl; lia | apply inorder_new].
  - apply Hrun; [simpl; lia | apply inorder_new].
  - apply Hrun; [simpl; lia | apply inorder_new].
Qed.

(** C6 (exact threshold).  When the byte total computed for a released item
    equals [PreferredMaxBytes] exactly, one batch is cut holding everything
    accumulated together with the item just released, the accumulator is
    reset to 0 and nothing is left accumulated.  In particular, with
    [PreferredMaxBytes = 60], two envelopes of 30 bytes yield one batch
    holding both. *)
Theorem exact_threshold_cut :
  (∀ msg bs mb s x,
     wf s → envelopes s !! nextSequence s = Some x →
     1 ≤ MaxMessageCount bs →
     wrap_uint32 (batchSize s + messageSizeBytes msg) = PreferredMaxBytes bs →
     ∃ s',
       release_one messageSizeBytes msg bs mb s
         = Returns
             (mb ++ [Some <$> (stored (envelopes s) (startSequence s)
                                 (nextSequence s) ++ [x])], s') ∧
       batchSize s' = 0 ∧
       startSequence s' = nextSequence s + 1 ∧
       nextSequence s' = nextSequence s + 1) ∧
  (let bs := Sample.limits 60 10 in
   ∃ s' : Scheduler Sample.envelope,
     run Sample.size Sample.parse NewScheduler
       [Sample.item "a" 30 "0" bs; Sample.item "b" 30 "1" bs]
     = Returns ([[Some (Sample.mkEnvelope "a" 30);
                  Some (Sample.mkEnvelope "b" 30)]], s') ∧
     batchSize s' = 0 ∧ startSequence s' = 2 ∧ nextSequence s' = 2 ∧
     envelopes s' = ∅).
Proof.
  split.
  - intros msg bs mb s x Hwf Hnext Hmax Hexact.
    assert (nextSequence s < max_int) as Hlim by (eapply wf_keys; eauto).
    pose proof (wf_start _ Hwf) as Hs0. pose proof (wf_order _ Hwf) as Hs1.
    assert (cut_batch (set_nextSequence s (nextSequence s + 1))
              (nextSequence s + 1)
            = Some <$> (stored (envelopes s) (startSequence s)
                          (nextSequence s) ++ [x])) as Hbatch.
    { rewrite cut_batch_items. simpl.
      rewrite range_items_snoc, Hnext, fmap_app by lia.
      f_equal. apply range_items_stored. apply (wf_region _ Hwf). }
    unfold release_one.
    rewrite (wrap_int_small (nextSequence s + 1))
      by (unfold min_int, max_int in *; lia).
    cbv beta iota zeta delta [mbind outcome_bind mret outcome_ret].
    cbn [batchSize set_nextSequence].
    rewrite Hexact.
    rewrite !bool_decide_eq_false_2 by lia.
    rewrite Cut_Returns by (simpl; lia).
    cbn [nextSequence startSequence set_batchSize cut_state
         set_startSequence set_envelopes set_nextSequence].
    rewrite Z.sub_diag.
    rewrite (wrap_int_small 0) by (unfold min_int, max_int; lia).
    rewrite (wrap_uint32_small 0) by lia.
    rewrite bool_decide_eq_false_2 by lia.
    eexists. split; [by rewrite Hbatch | done].
  - intros bs. eexists. split; [vm_compute; reflexivity | by vm_compute].
Qed.


(** C10 (duplicate push).  Scheduling under a sequence number that is
    already stored (and is not the one awaited) replaces the stored envelope
    without any error: the call returns no batch and reports pending data.
    The replaced envelope, unless it is scheduled again, appears in no batch
    emitted afterwards. *)
Theorem duplicate_push_overwrites s msg old txID bs :
  envelopes s !! (ParseCustomTXID txID).1 = Some old →
  nextSequence s ≠ (ParseCustomTXID txID).1 →
  let s1 := set_envelopes s
              (<[(ParseCustomTXID txID).1 := msg]> (envelopes s)) in
  Schedule messageSizeBytes ParseCustomTXID s msg txID bs
    = Returns ([], true, s1) ∧
  envelopes s1 !! (ParseCustomTXID txID).1 = Some msg ∧
  (old ≠ msg →
   (∀ j, envelopes s !! j = Some old → j = (ParseCustomTXID txID).1) →
   ∀ later batches s',
     Forall (λ i, i.1.1 ≠ old) later →
     run messageSizeBytes ParseCustomTXID s1 later = Returns (batches, s') →
     (Some old ∉ concat batches) ∧ absent old (envelopes s')).
Proof.
  intros Hold Hnext s1. split_and!.
  - rewrite Schedule_unfold. unfold ScheduleSeq.
    cbv beta iota zeta delta [mbind outcome_bind mret outcome_ret].
    fold s1. rewrite bool_decide_eq_false_2 by done.
    assert (0 < size (envelopes s1))%nat as Hsize.
    { destruct (size (envelopes s1)) eqn:Hsize; [|lia].
      apply map_size_empty_inv in Hsize. unfold s1 in Hsize. simpl in Hsize.
      by apply insert_non_empty in Hsize. }
    by rewrite bool_decide_eq_true_2.
  - apply lookup_insert_eq.
  - intros Hne Huniq later batches s' Hlater Hrun.
    assert (absent old (envelopes s1)) as Habs.
    { intros j. simpl. rewrite lookup_insert. case_decide as Hj.
      - congruence.
      - intros Hj'. by apply Huniq in Hj'. }
    destruct (run_absent messageSizeBytes ParseCustomTXID later old
                s1 batches s' Hlater Habs Hrun).
    done.
Qed.

End BlockcutterClaims.

(** * The claims about ordering *)

Section OrderingClaims.

Context {Envelope : Type}.
Variable messageSizeBytes : Envelope -> Z.
Variable ParseCustomTXID : string -> Z * option string.
Context {UnpackedProposal ProposalResponse : Type}.
Variable TxId : UnpackedProposal -> string.

Lemma dense_keys (N : Z) (inputs : list (Envelope * string * BatchSize)) :
  0 ≤ N ≤ max_int →
  sequence_of ParseCustomTXID <$> inputs ≡ₚ seqZ 0 N →
  NoDup (sequence_of ParseCustomTXID <$> inputs) ∧
  (∀ i, i ∈ inputs → 0 ≤ sequence_of ParseCustomTXID i < N) ∧
  (∀ k, 0 ≤ k < N → is_Some (scheduled ParseCustomTXID inputs !! k)) ∧
  (∀ i, i ∈ inputs →
        scheduled ParseCustomTXID inputs !! sequence_of ParseCustomTXID i
        = Some i.1.1).
Proof.
  intros HN Hperm.
  assert (NoDup (sequence_of ParseCustomTXID <$> inputs)) as Hnd
    by (rewrite Hperm; apply NoDup_seqZ).
  assert (∀ i, i ∈ inputs →
               scheduled ParseCustomTXID inputs
                 !! sequence_of ParseCustomTXID i = Some i.1.1) as Hlook.
  { intros i Hi. unfold scheduled. apply elem_of_list_to_map_1.
    - by rewrite <- list_fmap_compose.
    - apply list_elem_of_fmap. by exists i. }
  split_and!; [done | | | done].
  - intros i Hi.
    assert (sequence_of ParseCustomTXID i ∈ seqZ 0 N) as Hk.
    { rewrite <- Hperm. apply list_elem_of_fmap. by exists i. }
    apply elem_of_seqZ in Hk. lia.
  - intros k Hk.
    assert (k ∈ sequence_of ParseCustomTXID <$> inputs) as Hin.
    { rewrite Hperm. apply elem_of_seqZ. lia. }
    apply list_elem_of_fmap in Hin as (i & -> & Hi).
    rewrite (Hlook i Hi). by eexists.
Qed.

(** The batch cutter releases a dense set of sequence numbers in sequence
    order, whatever the order of arrival. *)
Lemma schedule_order (N : Z) (inputs : list (Envelope * string * BatchSize)) :
  0 ≤ N ≤ max_int →
  sequence_of ParseCustomTXID <$> inputs ≡ₚ seqZ 0 N →
  match run messageSizeBytes ParseCustomTXID NewScheduler inputs with
  | Returns (batches, s) =>
      nextSequence s = N ∧
      let released :=
        concat batches
        ++ range_items (envelopes s) (startSequence s) (nextSequence s) in
      Z.of_nat (length released) = N ∧
      Forall (λ i, released !! Z.to_nat (sequence_of ParseCustomTXID i)
                   = Some (Some i.1.1)) inputs
  | Panics => ∃ i, i ∈ inputs ∧ MaxMessageCount i.2 ≤ 0
  | OutOfFuel => False
  end.
Proof.
  intros HN Hperm.
  destruct (dense_keys N inputs HN Hperm) as (Hnd & Hrange & Hall & Hlook).
  pose proof (run_dense messageSizeBytes ParseCustomTXID inputs ∅ []
                NewScheduler dense_new Hnd) as Hrun.
  destruct (run messageSizeBytes ParseCustomTXID NewScheduler inputs)
    as [[batches s]| |].
  - destruct Hrun as ([Hwf Hgap Hem Henv Hpre Hkeys] & _).
    { intros i Hi. split; [apply lookup_empty|]. specialize (Hrange i Hi).
      lia. }
    rewrite (left_id_L ∅ (∪)) in *. simpl in Hem.
    pose proof (wf_start _ Hwf). pose proof (wf_order _ Hwf).
    assert (nextSequence s = N) as HnN.
    { destruct (decide (nextSequence s < N)) as [Hlt|Hge].
      - destruct (Hall (nextSequence s)) as [x Hx]; [lia|].
        rewrite Henv, bool_decide_eq_false_2, Hx in Hgap by lia. done.
      - destruct (decide (nextSequence s = N)) as [|Hne]; [done|].
        destruct (Hpre N) as [x Hx]; [lia|].
        apply elem_of_list_to_map_2 in Hx.
        apply list_elem_of_fmap in Hx as (i & [= HNi _] & Hi).
        specialize (Hrange i Hi). lia. }
    assert (concat batches
            ++ range_items (envelopes s) (startSequence s) (nextSequence s)
            = range_items (scheduled ParseCustomTXID inputs) 0 N) as Hrel.
    { rewrite Hem, HnN.
      rewrite (range_items_app (scheduled ParseCustomTXID inputs) 0
                 (startSequence s) N) by lia.
      f_equal. apply range_items_ext. intros k Hk.
      rewrite Henv. by rewrite bool_decide_eq_false_2 by lia. }
    split; [done|]. cbv zeta. rewrite Hrel. split.
    + rewrite length_range_items. lia.
    + apply Forall_forall. intros i Hi. specialize (Hrange i Hi).
      unfold range_items. rewrite list_lookup_fmap.
      rewrite lookup_seqZ_lt by lia. simpl.
      rewrite Z.add_0_l, Z2Nat.id by lia. by rewrite Hlook.
  - apply Hrun. intros i Hi. split; [apply lookup_empty|].
    specialize (Hrange i Hi). lia.
  - apply Hrun. intros i Hi. split; [apply lookup_empty|].
    specialize (Hrange i Hi). lia.
Qed.

(** The dispatcher sends a dense set of sequence numbers to the consumer in
    sequence order, under every interleaving. *)
Lemma dispatch_order (N : Z)
    (trace : list (endorser.event UnpackedProposal ProposalResponse)) :
  0 ≤ N ≤ max_int →
  endorser.Sequence <$> endorser.pushed trace ≡ₚ seqZ 0 N →
  ∃ sys,
    endorser.exec endorser.NewSystem trace = Returns sys ∧
    endorser.Sequence <$> endorser.dispatched sys
      = seqZ 0 (endorser.nextSequence (endorser.orderer sys)) ∧
    endorser.nextSequence (endorser.orderer sys) ≤ N ∧
    (endorser.signalling sys = 0%nat →
     endorser.trySendCh (endorser.orderer sys) = 0%nat →
     endorser.Sequence <$> endorser.dispatched sys = seqZ 0 N ∧
     endorser.dispatched sys ≡ₚ endorser.pushed trace ∧
     endorser.queue (endorser.orderer sys) = []).
Proof.
  intros HN Hperm.
  assert (length (endorser.pushed trace) = Z.to_nat N) as Hlen.
  { apply Permutation_length in Hperm.
    by rewrite length_fmap, length_seqZ in Hperm. }
  destruct (endorser_facts.exec_inv trace [] endorser.NewSystem
              endorser_facts.po_inv_new)
    as (sys & Hexec & Hinv & _ & _).
  { simpl. lia. }
  simpl in Hinv. exists sys.
  pose proof (endorser_facts.po_inv_bounds _ _ Hinv) as [Hn Hl].
  split_and!; [done | apply (endorser.inv_seq _ _ _ _ Hinv) | lia |].
  intros Hsig Htry.
  destruct (endorser_facts.quiescent_dispatched _ sys N Hinv (proj1 HN) Hperm
              Hsig Htry) as (Hnext & Hq & Hd).
  split_and!; [| done | done].
  rewrite (endorser.inv_seq _ _ _ _ Hinv). by rewrite Hnext.
Qed.

(** C1 (order preservation).  Sequence numbers 0 .. N-1, each used once and
    pushed in any order.

    Batch cutter: a run that returns has released everything
    ([nextSequence = N]); its batches followed by the forming batch hold N
    envelopes, and the envelope scheduled under sequence k is the k-th of
    them.  The run never exhausts its fuel and panics only under a zero
    [MaxMessageCount].

    Dispatcher: under every interleaving of pushes, signals, worker passes
    and receptions, the wrappers sent to the consumer carry the sequence
    numbers 0, 1, 2, ... in this order; once every push has signalled and
    the worker has handled every signal, all N have been sent. *)
Theorem order_preservation :
  (∀ (N : Z) (inputs : list (Envelope * string * BatchSize)),
     0 ≤ N ≤ max_int →
     sequence_of ParseCustomTXID <$> inputs ≡ₚ seqZ 0 N →
     match run messageSizeBytes ParseCustomTXID NewScheduler inputs with
     | Returns (batches, s) =>
         nextSequence s = N ∧
         let released :=
           concat batches
           ++ range_items (envelopes s) (startSequence s) (nextSequence s) in
         Z.of_nat (length released) = N ∧
         Forall (λ i, released !! Z.to_nat (sequence_of ParseCustomTXID i)
                      = Some (Some i.1.1)) inputs
     | Panics => ∃ i, i ∈ inputs ∧ MaxMessageCount i.2 ≤ 0
     | OutOfFuel => False
     end) ∧
  (∀ (N : Z) (trace : list (endorser.event UnpackedProposal ProposalResponse)),
     0 ≤ N ≤ max_int →
     endorser.Sequence <$> endorser.pushed trace ≡ₚ seqZ 0 N →
     ∃ sys,
       endorser.exec endorser.NewSystem trace = Returns sys ∧
       endorser.Sequence <$> endorser.dispatched sys
         = seqZ 0 (endorser.nextSequence (endorser.orderer sys)) ∧
       endorser.nextSequence (endorser.orderer sys) ≤ N ∧
       (endorser.signalling sys = 0%nat →
        endorser.trySendCh (endorser.orderer sys) = 0%nat →
        endorser.Sequence <$> endorser.dispatched sys = seqZ 0 N ∧
        endorser.dispatched sys ≡ₚ endorser.pushed trace ∧
        endorser.queue (endorser.orderer sys) = [])).
Proof.
  split.
  - apply schedule_order.
  - apply dispatch_order.
Qed.

(** C9 (identifier errors).  [Schedule] and [NewUnpackedProposalWrapper]
    use the sequence value returned by the identifier parser and nothing
    else of its result: the outcome is the one obtained from a parser that
    returns the same values and never an error, and the wrapper is always
    built, with that value as its sequence. *)
Theorem identifier_error_discarded :
  (∀ (s : Scheduler Envelope) msg txID bs,
     Schedule messageSizeBytes ParseCustomTXID s msg txID bs
     = ScheduleSeq messageSizeBytes s msg (ParseCustomTXID txID).1 bs) ∧
  (∀ (s : Scheduler Envelope) msg txID bs,
     Schedule messageSizeBytes ParseCustomTXID s msg txID bs
     = Schedule messageSizeBytes (λ t, ((ParseCustomTXID t).1, None))
         s msg txID bs) ∧
  (∀ up : UnpackedProposal,
     endorser.NewUnpackedProposalWrapper ProposalResponse TxId
       ParseCustomTXID up
     = endorser.mkWrapper up (ParseCustomTXID (TxId up)).1 None None) ∧
  (∀ up : UnpackedProposal,
     endorser.NewUnpackedProposalWrapper ProposalResponse TxId
       ParseCustomTXID up
     = endorser.NewUnpackedProposalWrapper ProposalResponse TxId
         (λ t, ((ParseCustomTXID t).1, None)) up).
Proof.
  split_and!.
  - intros. apply Schedule_unfold.
  - intros. by rewrite !Schedule_unfold.
  - intros up. unfold endorser.NewUnpackedProposalWrapper.
    by destruct (ParseCustomTXID (TxId up)).
  - intros up. unfold endorser.NewUnpackedProposalWrapper.
    by destruct (ParseCustomTXID (TxId up)).
Qed.

(** C7 (pending bookkeeping), as amended.  Sequence numbers 0 .. N-1, each
    used once; a first stretch of operations leads to one state, a second
    stretch from there to another.

    Dispatcher: everything queued has a sequence number of at least
    [nextSequence]; [nextSequence] does not decrease; the wrappers that left
    the queue between the two states are exactly those sent to the consumer
    in between, one per sequence number from the old [nextSequence] on.

    Batch cutter: released envelopes stay in the map until their batch is
    cut, so the stored keys are bounded below by [startSequence], not by
    [nextSequence]; neither counter decreases; the slots removed from the
    map between the two states are exactly those of the batches emitted in
    between, and a removed slot stays empty. *)
Theorem pending_bookkeeping :
  (∀ (N : Z)
     (trace1 trace2 : list (endorser.event UnpackedProposal ProposalResponse)),
     0 ≤ N ≤ max_int →
     endorser.Sequence <$> endorser.pushed (trace1 ++ trace2) ≡ₚ seqZ 0 N →
     ∃ sys1 sys2,
       endorser.exec endorser.NewSystem trace1 = Returns sys1 ∧
       endorser.exec sys1 trace2 = Returns sys2 ∧
       (∀ x, x ∈ endorser.queue (endorser.orderer sys1) →
             endorser.nextSequence (endorser.orderer sys1)
             ≤ endorser.Sequence x) ∧
       endorser.nextSequence (endorser.orderer sys1)
         ≤ endorser.nextSequence (endorser.orderer sys2) ∧
       ∃ sent,
         endorser.dispatched sys2 = endorser.dispatched sys1 ++ sent ∧
         endorser.queue (endorser.orderer sys1) ++ endorser.pushed trace2
           ≡ₚ sent ++ endorser.queue (endorser.orderer sys2) ∧
         endorser.Sequence <$> sent
           = seqZ (endorser.nextSequence (endorser.orderer sys1))
               (endorser.nextSequence (endorser.orderer sys2)
                - endorser.nextSequence (endorser.orderer sys1))) ∧
  (∀ (N : Z) (inputs1 inputs2 : list (Envelope * string * BatchSize)),
     0 ≤ N ≤ max_int →
     NoDup (sequence_of ParseCustomTXID <$> inputs1 ++ inputs2) →
     Forall (λ i, 0 ≤ sequence_of ParseCustomTXID i < N)
            (inputs1 ++ inputs2) →
     match run messageSizeBytes ParseCustomTXID NewScheduler inputs1 with
     | Returns (batches1, s1) =>
         (∀ k, is_Some (envelopes s1 !! k) → startSequence s1 ≤ k) ∧
         match run messageSizeBytes ParseCustomTXID s1 inputs2 with
         | Returns (batches2, s2) =>
             startSequence s1 ≤ startSequence s2 ∧
             nextSequence s1 ≤ nextSequence s2 ∧
             concat batches2
               = range_items (scheduled ParseCustomTXID (inputs1 ++ inputs2))
                   (startSequence s1) (startSequence s2) ∧
             ∀ k, envelopes s2 !! k =
                  if bool_decide (k < startSequence s2) then None
                  else scheduled ParseCustomTXID (inputs1 ++ inputs2) !! k
         | Panics => ∃ i, i ∈ inputs2 ∧ MaxMessageCount i.2 ≤ 0
         | OutOfFuel => False
         end
     | Panics => ∃ i, i ∈ inputs1 ∧ MaxMessageCount i.2 ≤ 0
     | OutOfFuel => False
     end).
Proof.
  split.
  - intros N trace1 trace2 HN Hperm.
    rewrite endorser_facts.pushed_app in Hperm.
    assert (length (endorser.pushed trace1 ++ endorser.pushed trace2)
            = Z.to_nat N) as Hlen.
    { apply Permutation_length in Hperm.
      by rewrite length_fmap, length_seqZ in Hperm. }
    destruct (endorser_facts.exec_inv trace1 [] endorser.NewSystem
                endorser_facts.po_inv_new)
      as (sys1 & Hexec1 & Hinv1 & _ & _).
    { rewrite length_app in *. simpl. lia. }
    simpl in Hinv1.
    destruct (endorser_facts.exec_inv trace2 _ sys1 Hinv1)
      as (sys2 & Hexec2 & Hinv2 & Hmono & [sent Hsent]); [lia|].
    exists sys1, sys2. split_and!; [done | done | | done |].
    + intros x Hx.
      apply (endorser_facts.queued_above_next _ sys1 x Hinv1); [| | done].
      * assert (NoDup (endorser.Sequence <$> endorser.pushed trace1
                       ++ endorser.pushed trace2)) as Hnd
          by (rewrite Hperm; apply NoDup_seqZ).
        rewrite fmap_app in Hnd. by apply NoDup_app in Hnd as (? & _ & _).
      * apply Forall_forall. intros y Hy.
        assert (endorser.Sequence y ∈ seqZ 0 N) as Hin.
        { rewrite <- Hperm. apply list_elem_of_fmap. exists y.
          split; [done|]. apply elem_of_app. by left. }
        apply elem_of_seqZ in Hin. lia.
    + exists sent. split_and!; [done | |].
      * apply (Permutation_app_inv_l (endorser.dispatched sys1)).
        rewrite !app_assoc, <- Hsent.
        rewrite (endorser.inv_perm _ _ _ _ Hinv1).
        by rewrite (endorser.inv_perm _ _ _ _ Hinv2).
      * pose proof (endorser.inv_seq _ _ _ _ Hinv1) as Hs1.
        pose proof (endorser.inv_seq _ _ _ _ Hinv2) as Hs2.
        pose proof (endorser.inv_next _ _ _ _ Hinv1) as Hn1.
        rewrite Hsent, fmap_app, Hs1 in Hs2.
        replace (endorser.nextSequence (endorser.orderer sys2))
          with (endorser.nextSequence (endorser.orderer sys1)
                + (endorser.nextSequence (endorser.orderer sys2)
                   - endorser.nextSequence (endorser.orderer sys1)))
          in Hs2 at 1 by lia.
        rewrite seqZ_app, Z.add_0_l in Hs2 by lia.
        by apply app_inv_head in Hs2.
  - intros N inputs1 inputs2 HN Hnd Hin.
    rewrite fmap_app in Hnd. apply NoDup_app in Hnd as (Hnd1 & Hdisj & Hnd2).
    apply Forall_app in Hin as [Hin1 Hin2].
    rewrite Forall_forall in Hin1, Hin2.
    pose proof (run_dense messageSizeBytes ParseCustomTXID inputs1 ∅ []
                  NewScheduler dense_new Hnd1) as Hrun1.
    destruct (run messageSizeBytes ParseCustomTXID NewScheduler inputs1)
      as [[batches1 s1]| |].
    + destruct Hrun1 as (Hd1 & _).
      { intros i Hi. split; [apply lookup_empty|]. specialize (Hin1 i Hi).
        lia. }
      rewrite (left_id_L ∅ (∪)) in Hd1. simpl in Hd1. split.
      { intros k Hk. rewrite (di_envs _ _ _ Hd1) in Hk.
        case_bool_decide; [by destruct Hk | lia]. }
      pose proof (run_dense messageSizeBytes ParseCustomTXID inputs2 _ _
                    s1 Hd1 Hnd2) as Hrun2.
      assert (scheduled ParseCustomTXID inputs1
              ∪ scheduled ParseCustomTXID inputs2
              = scheduled ParseCustomTXID (inputs1 ++ inputs2)) as HM.
      { unfold scheduled. by rewrite fmap_app, list_to_map_app. }
      destruct (run messageSizeBytes ParseCustomTXID s1 inputs2)
        as [[batches2 s2]| |].
      * destruct Hrun2 as (Hd2 & Hst & Hnx & Hb2).
        { intros i Hi. split; [| specialize (Hin2 i Hi); lia].
          apply scheduled_fresh. intros Hk. apply (Hdisj _ Hk).
          apply list_elem_of_fmap. by exists i. }
        rewrite HM in Hd2, Hb2. split_and!; [done | done | done |].
        apply (di_envs _ _ _ Hd2).
      * apply Hrun2. intros i Hi. split; [| specialize (Hin2 i Hi); lia].
        apply scheduled_fresh. intros Hk. apply (Hdisj _ Hk).
        apply list_elem_of_fmap. by exists i.
      * apply Hrun2. intros i Hi. split; [| specialize (Hin2 i Hi); lia].
        apply scheduled_fresh. intros Hk. apply (Hdisj _ Hk).
        apply list_elem_of_fmap. by exists i.
    + apply Hrun1. intros i Hi. split; [apply lookup_empty|].
      specialize (Hin1 i Hi). lia.
    + apply Hrun1. intros i Hi. split; [apply lookup_empty|].
      specialize (Hin1 i Hi). lia.
Qed.

End OrderingClaims.

(** * The claims at concrete inputs *)

(** Scenario D of the specification as an instance of the count bound:
    three one-byte envelopes under [MaxMessageCount = 2]. *)
Lemma count_bound_witness :
  let bs := Sample.limits 1000 2 in
  let inputs := [Sample.item "a" 1 "0" bs; Sample.item "b" 1 "1" bs;
                 Sample.item "c" 1 "2" bs] in
  (1 ≤ MaxMessageCount bs < 2 ^ 32) ∧
  Forall (λ i, i.2 = bs ∧ sequence_of Sample.parse i < max_int) inputs ∧
  ∃ batches s,
    run Sample.size Sample.parse NewScheduler inputs = Returns (batches, s) ∧
    Forall (λ b, Z.of_nat (length b) ≤ MaxMessageCount bs) batches ∧
    nextSequence s - startSequence s < MaxMessageCount bs ∧
    (startSequence s = nextSequence s → batchSize s = 0).
Proof.
  intros bs inputs.
  assert (1 ≤ MaxMessageCount bs < 2 ^ 32) as H1 by (by vm_compute).
  assert (Forall (λ i, i.2 = bs ∧ sequence_of Sample.parse i < max_int) inputs)
    as H2
    by (repeat (apply Forall_cons_2; [by vm_compute|]); apply Forall_nil_2).
  split_and!; [done | done | done |].
  exact (proj1 (count_bound Sample.size Sample.parse bs H1) inputs H2).
Defined.

(** C4 as literally stated fails for [MaxMessageCount = 0]: the count check
    [1 >= 0] cuts a batch of one envelope, which is more than zero. *)
Lemma count_bound_counterexample :
  let bs := Sample.limits 100 0 in
  ∃ s,
    run Sample.size Sample.parse NewScheduler [Sample.item "a" 1 "0" bs]
      = Returns ([[Some (Sample.mkEnvelope "a" 1)]], s) ∧
    ¬ (Z.of_nat (length [Some (Sample.mkEnvelope "a" 1)])
       ≤ MaxMessageCount bs).
Proof.
  intros bs. eexists. split; [vm_compute; reflexivity | by vm_compute].
Qed.

(** Three envelopes arriving as 2, 0, 1: an instance of completeness. *)
Lemma schedule_completeness_witness :
  let bs := Sample.limits 100 10 in
  let inputs := [Sample.item "c" 30 "2" bs; Sample.item "a" 30 "0" bs;
                 Sample.item "b" 30 "1" bs] in
  (0 ≤ 3 ≤ max_int) ∧
  NoDup (sequence_of Sample.parse <$> inputs) ∧
  Forall (λ i, 0 ≤ sequence_of Sample.parse i < 3) inputs ∧
  match run Sample.size Sample.parse NewScheduler inputs with
  | Returns (batches, s) =>
      ∃ items,
        concat batches = Some <$> items ∧
        items ++ stored (envelopes s) (startSequence s) 3
          = stored (scheduled Sample.parse inputs) 0 3 ∧
        stored (scheduled Sample.parse inputs) 0 3 ≡ₚ (λ i, i.1.1) <$> inputs
  | Panics => ∃ i, i ∈ inputs ∧ MaxMessageCount i.2 ≤ 0
  | OutOfFuel => False
  end.
Proof.
  intros bs inputs.
  assert (0 ≤ 3 ≤ max_int) as H1 by (by vm_compute).
  assert (NoDup (sequence_of Sample.parse <$> inputs)) as H2
    by (by apply (bool_decide_unpack _); vm_compute).
  assert (Forall (λ i, 0 ≤ sequence_of Sample.parse i < 3) inputs) as H3
    by (repeat (apply Forall_cons_2; [by vm_compute|]); apply Forall_nil_2).
  split_and!; [done | done | done | done |].
  exact (schedule_completeness Sample.size Sample.parse 3 inputs H1 H2 H3).
Defined.

(** Scenario A of the specification (four envelopes of 30 bytes under
    [PreferredMaxBytes = 100]) as an instance of the byte bound. *)
Lemma byte_bound_witness :
  let bs := Sample.limits 100 10 in
  let inputs := [Sample.item "a" 30 "0" bs; Sample.item "b" 30 "1" bs;
                 Sample.item "c" 30 "2" bs; Sample.item "d" 30 "3" bs] in
  (0 ≤ PreferredMaxBytes bs) ∧
  Forall (λ i, i.2 = bs ∧ 0 ≤ Sample.size i.1.1 ∧
               PreferredMaxBytes bs + Sample.size i.1.1 < 2 ^ 32) inputs ∧
  sequence_of Sample.parse <$> inputs = seqZ 0 (Z.of_nat (length inputs)) ∧
  Z.of_nat (length inputs) ≤ max_int ∧
  match run Sample.size Sample.parse NewScheduler inputs with
  | Returns (batches, s) =>
      Forall (λ b, batch_bytes Sample.size b ≤ PreferredMaxBytes bs ∨
                   length b = 1%nat) batches
  | Panics => MaxMessageCount bs ≤ 0
  | OutOfFuel => False
  end.
Proof.
  intros bs inputs.
  assert (0 ≤ PreferredMaxBytes bs) as H1 by (by vm_compute).
  assert (Forall (λ i, i.2 = bs ∧ 0 ≤ Sample.size i.1.1 ∧
                       PreferredMaxBytes bs + Sample.size i.1.1 < 2 ^ 32)
                 inputs) as H2 by (repeat (apply Forall_cons_2; [by vm_compute|]); apply Forall_nil_2).
  assert (sequence_of Sample.parse <$> inputs
          = seqZ 0 (Z.of_nat (length inputs))) as H3 by (by vm_compute).
  assert (Z.of_nat (length inputs) ≤ max_int) as H4 by (by vm_compute).
  split_and!; [done | done | done | done |].
  exact (byte_bound Sample.size Sample.parse bs inputs H1 H2 H3 H4).
Defined.

(** C3 as literally stated fails at the exact threshold (Scenario C of the
    specification): the batch holds two envelopes and its 60 bytes are not
    strictly less than [PreferredMaxBytes = 60]. *)
Lemma byte_bound_counterexample :
  let bs := Sample.limits 60 10 in
  let b := [Some (Sample.mkEnvelope "a" 30); Some (Sample.mkEnvelope "b" 30)] in
  ∃ s,
    run Sample.size Sample.parse NewScheduler
      [Sample.item "a" 30 "0" bs; Sample.item "b" 30 "1" bs]
      = Returns ([b], s) ∧
    ¬ (batch_bytes Sample.size b < PreferredMaxBytes bs ∨ length b = 1%nat).
Proof.
  intros bs b. eexists. split; [vm_compute; reflexivity |].
  intros [H|H]; by vm_compute in H.
Qed.

(** C5 at its failing input.  Sequence 1 (80 bytes) arrives before sequence
    0 (10 bytes) under [PreferredMaxBytes = 50].  The drain started by the
    second call charges both released envelopes with the 10 bytes of the
    call's own argument: nothing is cut and the accumulator reads 20 for a
    forming batch of 90 bytes.  The same envelopes arriving in order are cut
    into two batches. *)
Lemma released_item_charged_with_argument_size :
  let bs := Sample.limits 50 10 in
  let a := Sample.mkEnvelope "a" 10 in
  let b := Sample.mkEnvelope "b" 80 in
  (∃ s,
     run Sample.size Sample.parse NewScheduler
       [Sample.item "b" 80 "1" bs; Sample.item "a" 10 "0" bs]
       = Returns ([], s) ∧
     batchSize s = 20 ∧ startSequence s = 0 ∧ nextSequence s = 2 ∧
     batch_bytes Sample.size
       (range_items (envelopes s) (startSequence s) (nextSequence s)) = 90) ∧
  (∃ s,
     run Sample.size Sample.parse NewScheduler
       [Sample.item "a" 10 "0" bs; Sample.item "b" 80 "1" bs]
       = Returns ([[Some a]; [Some b]], s) ∧
     batchSize s = 0 ∧ startSequence s = 2 ∧ nextSequence s = 2).
Proof.
  intros bs a b.
  split; eexists; (split; [vm_compute; reflexivity | by vm_compute]).
Qed.

(** A second envelope scheduled under the stored sequence number 2. *)
Lemma duplicate_push_overwrites_witness :
  let bs := Sample.limits 100 10 in
  let old := Sample.mkEnvelope "old" 5 in
  let msg := Sample.mkEnvelope "new" 7 in
  let s := mkScheduler {[ 2 := old ]} 0 0 0 in
  let s1 := set_envelopes s (<[ 2 := msg ]> (envelopes s)) in
  envelopes s !! (Sample.parse "2").1 = Some old ∧
  nextSequence s ≠ (Sample.parse "2").1 ∧
  Schedule Sample.size Sample.parse s msg "2" bs = Returns ([], true, s1) ∧
  envelopes s1 !! 2 = Some msg.
Proof.
  intros bs old msg s s1.
  assert (envelopes s !! (Sample.parse "2").1 = Some old) as H1
    by (by vm_compute).
  assert (nextSequence s ≠ (Sample.parse "2").1) as H2 by (by vm_compute).
  split_and!; [done | done | |].
  - exact (proj1 (duplicate_push_overwrites Sample.size Sample.parse
                    s msg old "2" bs H1 H2)).
  - exact (proj1 (proj2 (duplicate_push_overwrites Sample.size Sample.parse
                           s msg old "2" bs H1 H2))).
Defined.

(** C7 as literally stated fails on the batch cutter: after the first
    envelope (sequence 0, one byte, far below the limits) the map still
    holds key 0 while [nextSequence] is already 1. *)
Lemma pending_bookkeeping_counterexample :
  let bs := Sample.limits 100 10 in
  ∃ s,
    run Sample.size Sample.parse NewScheduler [Sample.item "a" 1 "0" bs]
      = Returns ([], s) ∧
    envelopes s !! 0 = Some (Sample.mkEnvelope "a" 1) ∧
    ¬ (nextSequence s ≤ 0).
Proof.
  intros bs. eexists. split; [vm_compute; reflexivity | by vm_compute].
Qed.

(** Three envelopes scheduled as 2, 0, 1, and three wrappers pushed as
    2, 0, 1 with the worker running in between: instances of order
    preservation. *)
Lemma order_preservation_witness :
  let bs := Sample.limits 100 10 in
  let inputs := [Sample.item "c" 30 "2" bs; Sample.item "a" 30 "0" bs;
                 Sample.item "b" 30 "1" bs] in
  let w (k : Z) : endorser.UnpackedProposalWrapper string unit :=
    endorser.mkWrapper "proposal"%string k None None in
  let trace := [endorser.EvPush (w 2); endorser.EvPush (w 0);
                endorser.EvSignal; endorser.EvWorker;
                endorser.EvPush (w 1); endorser.EvSignal; endorser.EvSignal;
                endorser.EvWorker; endorser.EvPop; endorser.EvWorker] in
  (0 ≤ 3 ≤ max_int) ∧
  sequence_of Sample.parse <$> inputs ≡ₚ seqZ 0 3 ∧
  endorser.Sequence <$> endorser.pushed trace ≡ₚ seqZ 0 3 ∧
  match run Sample.size Sample.parse NewScheduler inputs with
  | Returns (batches, s) =>
      nextSequence s = 3 ∧
      let released :=
        concat batches
        ++ range_items (envelopes s) (startSequence s) (nextSequence s) in
      Z.of_nat (length released) = 3 ∧
      Forall (λ i, released !! Z.to_nat (sequence_of Sample.parse i)
                   = Some (Some i.1.1)) inputs
  | Panics => ∃ i, i ∈ inputs ∧ MaxMessageCount i.2 ≤ 0
  | OutOfFuel => False
  end ∧
  ∃ sys,
    endorser.exec endorser.NewSystem trace = Returns sys ∧
    endorser.Sequence <$> endorser.dispatched sys
      = seqZ 0 (endorser.nextSequence (endorser.orderer sys)) ∧
    endorser.nextSequence (endorser.orderer sys) ≤ 3 ∧
    (endorser.signalling sys = 0%nat →
     endorser.trySendCh (endorser.orderer sys) = 0%nat →
     endorser.Sequence <$> endorser.dispatched sys = seqZ 0 3 ∧
     endorser.dispatched sys ≡ₚ endorser.pushed trace ∧
     endorser.queue (endorser.orderer sys) = []).
Proof.
  intros bs inputs w trace.
  assert (0 ≤ 3 ≤ max_int) as H1 by (by vm_compute).
  assert (sequence_of Sample.parse <$> inputs ≡ₚ seqZ 0 3) as H2
    by (by apply (bool_decide_unpack _); vm_compute).
  assert (endorser.Sequence <$> endorser.pushed trace ≡ₚ seqZ 0 3) as H3
    by (by apply (bool_decide_unpack _); vm_compute).
  split_and!; [done | done | done | done | |].
  - exact (proj1 (@order_preservation _ Sample.size Sample.parse string unit)
             3 inputs H1 H2).
  - exact (proj2 (@order_preservation _ Sample.size Sample.parse string unit)
             3 trace H1 H3).
Defined.

(** The exact threshold reached by a released envelope: sequence 0 (30
    bytes) is accumulated, sequence 1 (30 bytes) has just been stored, and
    [PreferredMaxBytes = 60]. *)
Lemma exact_threshold_cut_witness :
  let bs := Sample.limits 60 10 in
  let a := Sample.mkEnvelope "a" 30 in
  let b := Sample.mkEnvelope "b" 30 in
  let s := mkScheduler (<[ 0 := a ]> (<[ 1 := b ]> ∅)) 0 1 30 in
  wf s ∧
  envelopes s !! nextSequence s = Some b ∧
  1 ≤ MaxMessageCount bs ∧
  wrap_uint32 (batchSize s + Sample.size b) = PreferredMaxBytes bs ∧
  ∃ s',
    release_one Sample.size b bs [] s
      = Returns
          ([] ++ [Some <$> (stored (envelopes s) (startSequence s)
                              (nextSequence s) ++ [b])], s') ∧
    batchSize s' = 0 ∧
    startSequence s' = nextSequence s + 1 ∧
    nextSequence s' = nextSequence s + 1.
Proof.
  intros bs a b s.
  assert (wf s) as H1.
  { split; [by vm_compute | by vm_compute | by vm_compute | |].
    - intros k [x Hx]. unfold s in Hx. simpl in Hx.
      apply lookup_insert_Some in Hx as [[<- _]|[_ Hx]]; [by vm_compute|].
      apply lookup_insert_Some in Hx as [[<- _]|[_ Hx]]; [by vm_compute|].
      by rewrite lookup_empty in Hx.
    - intros k Hk. simpl in Hk. assert (k = 0) as -> by lia. by eexists. }
  assert (envelopes s !! nextSequence s = Some b) as H2 by (by vm_compute).
  assert (1 ≤ MaxMessageCount bs) as H3 by (by vm_compute).
  assert (wrap_uint32 (batchSize s + Sample.size b) = PreferredMaxBytes bs)
    as H4 by (by vm_compute).
  split_and!; [done | done | done | done |].
  exact (proj1 (exact_threshold_cut Sample.size) b bs [] s b H1 H2 H3 H4).
Defined.


(** Four envelopes of 30 bytes under [PreferredMaxBytes = 100], scheduled
    as 2, 0 and then 1, 3; four wrappers pushed as 2, 0 and then 1, 3 with
    the worker running in between: instances of the bookkeeping. *)
Lemma pending_bookkeeping_witness :
  let bs := Sample.limits 100 10 in
  let inputs1 := [Sample.item "c" 30 "2" bs; Sample.item "a" 30 "0" bs] in
  let inputs2 := [Sample.item "b" 30 "1" bs; Sample.item "d" 30 "3" bs] in
  let w (k : Z) : endorser.UnpackedProposalWrapper string unit :=
    endorser.mkWrapper "proposal"%string k None None in
  let trace1 := [endorser.EvPush (w 2); endorser.EvPush (w 0);
                 endorser.EvSignal; endorser.EvWorker] in
  let trace2 := [endorser.EvPush (w 1); endorser.EvSignal; endorser.EvSignal;
                 endorser.EvPush (w 3); endorser.EvWorker; endorser.EvPop;
                 endorser.EvSignal; endorser.EvWorker] in
  (0 ≤ 4 ≤ max_int) ∧
  NoDup (sequence_of Sample.parse <$> inputs1 ++ inputs2) ∧
  Forall (λ i, 0 ≤ sequence_of Sample.parse i < 4) (inputs1 ++ inputs2) ∧
  endorser.Sequence <$> endorser.pushed (trace1 ++ trace2) ≡ₚ seqZ 0 4 ∧
  match run Sample.size Sample.parse NewScheduler inputs1 with
  | Returns (batches1, s1) =>
      (∀ k, is_Some (envelopes s1 !! k) → startSequence s1 ≤ k) ∧
      match run Sample.size Sample.parse s1 inputs2 with
      | Returns (batches2, s2) =>
          startSequence s1 ≤ startSequence s2 ∧
          nextSequence s1 ≤ nextSequence s2 ∧
          concat batches2
            = range_items (scheduled Sample.parse (inputs1 ++ inputs2))
                (startSequence s1) (startSequence s2) ∧
          ∀ k, envelopes s2 !! k =
               if bool_decide (k < startSequence s2) then None
               else scheduled Sample.parse (inputs1 ++ inputs2) !! k
      | Panics => ∃ i, i ∈ inputs2 ∧ MaxMessageCount i.2 ≤ 0
      | OutOfFuel => False
      end
  | Panics => ∃ i, i ∈ inputs1 ∧ MaxMessageCount i.2 ≤ 0
  | OutOfFuel => False
  end ∧
  ∃ sys1 sys2,
    endorser.exec endorser.NewSystem trace1 = Returns sys1 ∧
    endorser.exec sys1 trace2 = Returns sys2 ∧
    (∀ x, x ∈ endorser.queue (endorser.orderer sys1) →
          endorser.nextSequence (endorser.orderer sys1)
          ≤ endorser.Sequence x) ∧
    endorser.nextSequence (endorser.orderer sys1)
      ≤ endorser.nextSequence (endorser.orderer sys2) ∧
    ∃ sent,
      endorser.dispatched sys2 = endorser.dispatched sys1 ++ sent ∧
      endorser.queue (endorser.orderer sys1) ++ endorser.pushed trace2
        ≡ₚ sent ++ endorser.queue (endorser.orderer sys2) ∧
      endorser.Sequence <$> sent
        = seqZ (endorser.nextSequence (endorser.orderer sys1))
            (endorser.nextSequence (endorser.orderer sys2)
             - endorser.nextSequence (endorser.orderer sys1)).
Proof.
  intros bs inputs1 inputs2 w trace1 trace2.
  assert (0 ≤ 4 ≤ max_int) as H1 by (by vm_compute).
  assert (NoDup (sequence_of Sample.parse <$> inputs1 ++ inputs2)) as H2
    by (by apply (bool_decide_unpack _); vm_compute).
  assert (Forall (λ i, 0 ≤ sequence_of Sample.parse i < 4)
            (inputs1 ++ inputs2)) as H3
    by (repeat (apply Forall_cons_2; [by vm_compute|]); apply Forall_nil_2).
  assert (endorser.Sequence <$> endorser.pushed (trace1 ++ trace2)
          ≡ₚ seqZ 0 4) as H4
    by (by apply (bool_decide_unpack _); vm_compute).
  split; [done|]. split; [done|]. split; [done|]. split; [done|]. split.
  - exact (proj2 (@pending_bookkeeping _ Sample.size Sample.parse string unit)
             4 inputs1 inputs2 H1 H2 H3).
  - exact (proj1 (@pending_bookkeeping _ Sample.size Sample.parse string unit)
             4 trace1 trace2 H1 H4).
Defined.

(** * Further properties of the batch cutter *)

Section SchedulerExtras.

Context {Envelope : Type}.
Variable messageSizeBytes : Envelope -> Z.
Variable ParseCustomTXID : string -> Z * option string.
Implicit Types (envs : gmap Z Envelope) (s : Scheduler Envelope).
Implicit Types (inputs later : list (Envelope * string * BatchSize)).

Ltac step_bind H :=
  cbv beta iota zeta delta [mbind outcome_bind mret outcome_ret] in H.

Ltac cut_returned H :=
  match type of H with
  | context [Cut ?s ?e] =>
      let E := fresh "E" in
      let b := fresh "b" in
      let s1 := fresh "s" in
      let Hlt := fresh "Hlt" in
      destruct (Cut s e) as [[b s1]| |] eqn:E; step_bind H;
      [apply Cut_inv in E as [Hlt [= -> ->]] | done | done]
  end.

Ltac cut_outcome :=
  match goal with
  | |- context [Cut ?s ?e] =>
      let E := fresh "E" in
      let b := fresh "b" in
      let s1 := fresh "s" in
      let Hlt := fresh "Hlt" in
      destruct (Cut s e) as [[b s1]| |] eqn:E;
      [ apply Cut_inv in E as [Hlt [= -> ->]]
      | apply Cut_Panics_inv in E
      | by apply Cut_fuel in E ];
      cbv beta iota zeta delta [mbind outcome_bind mret outcome_ret]
  end.

Ltac sched_norm :=
  cbn [envelopes startSequence nextSequence batchSize set_envelopes
       set_startSequence set_nextSequence set_batchSize cut_state] in *.

Ltac unwrap :=
  repeat match goal with
  | H : context [wrap_int ?z] |- _ =>
      rewrite (wrap_int_small z) in H by (unfold min_int, max_int in *; lia)
  | |- context [wrap_int ?z] =>
      rewrite (wrap_int_small z) by (unfold min_int, max_int in *; lia)
  | H : context [wrap_uint32 ?z] |- _ =>
      rewrite (wrap_uint32_small z) in H by lia
  | |- context [wrap_uint32 ?z] =>
      rewrite (wrap_uint32_small z) by lia
  end.

(** ** A gap holds everything back *)

(** Inputs that never carry the awaited sequence number are only stored. *)
Lemma gap_run inputs : ∀ s,
  Forall (λ i, sequence_of ParseCustomTXID i ≠ nextSequence s) inputs →
  run messageSizeBytes ParseCustomTXID s inputs
  = Returns ([], set_envelopes s
                   (foldl (λ envs i,
                             <[sequence_of ParseCustomTXID i := i.1.1]> envs)
                          (envelopes s) inputs)).
Proof.
  induction inputs as [|[[msg txID] bs] rest IH]; intros s Hin.
  - simpl. by destruct s.
  - apply Forall_cons in Hin as [Hk Hrest]. unfold sequence_of in Hk.
    simpl in Hk. rewrite run_cons. unfold ScheduleSeq.
    cbv beta iota zeta delta [mbind outcome_bind mret outcome_ret].
    cbn [nextSequence set_envelopes].
    rewrite bool_decide_eq_false_2 by done.
    rewrite IH by done. done.
Qed.

(** X1 (gap).  As long as the awaited sequence number [nextSequence] is not
    among the scheduled ones, [Schedule] hands back no batch, whatever the
    sizes and the limits: the envelopes are only stored, and the counters
    and the byte accumulator stay as they are. *)
Theorem gap_blocks_release s inputs :
  Forall (λ i, sequence_of ParseCustomTXID i ≠ nextSequence s) inputs →
  ∃ s',
    run messageSizeBytes ParseCustomTXID s inputs = Returns ([], s') ∧
    startSequence s' = startSequence s ∧
    nextSequence s' = nextSequence s ∧
    batchSize s' = batchSize s ∧
    envelopes s' =
      foldl (λ envs i, <[sequence_of ParseCustomTXID i := i.1.1]> envs)
            (envelopes s) inputs.
Proof.
  intros Hin. eexists. split; [by apply gap_run | done].
Qed.

(** ** Batches are never empty and never hold a nil envelope *)

Lemma cut_batch_proper s e :
  wf s → startSequence s < e ≤ nextSequence s → proper (cut_batch s e).
Proof.
  intros Hwf He. rewrite cut_batch_items. split.
  - intros Hnil. apply (f_equal length) in Hnil.
    rewrite length_range_items in Hnil. simpl in Hnil. lia.
  - unfold range_items. apply Forall_fmap, Forall_forall.
    intros k Hk. apply elem_of_seqZ in Hk. simpl.
    apply (wf_region _ Hwf). lia.
Qed.

Ltac wf_steps :=
  repeat lazymatch goal with
  | |- wf (set_batchSize _ _) => apply wf_set_batchSize
  | |- wf (cut_state _ _) => apply wf_cut
  | |- wf (set_nextSequence ?s (nextSequence ?s + 1)) => by apply wf_release
  end.

Ltac split_new :=
  eexists; split;
  [ first [ symmetry; apply app_nil_r
          | rewrite <- ?app_assoc; reflexivity ] |].

Ltac proper_steps :=
  repeat lazymatch goal with
  | |- Forall proper [] => apply Forall_nil_2
  | |- Forall proper (_ :: _) => apply Forall_cons_2
  | |- Forall proper (_ ++ _) => apply Forall_app_2
  | |- proper (cut_batch _ _) => apply cut_batch_proper
  end.

Lemma release_one_proper msg bs mb s :
  wf s → is_Some (envelopes s !! nextSequence s) →
  match release_one messageSizeBytes msg bs mb s with
  | Returns (mb', s') => ∃ new, mb' = mb ++ new ∧ Forall proper new
  | _ => True
  end.
Proof.
  intros Hwf Hnext.
  assert (nextSequence s < max_int) as Hlim by (eapply wf_keys; eauto).
  pose proof (wf_start _ Hwf) as Hs0. pose proof (wf_order _ Hwf) as Hs1.
  unfold release_one.
  rewrite (wrap_int_small (nextSequence s + 1))
    by (unfold min_int, max_int in *; lia).
  cbv beta iota zeta delta [mbind outcome_bind mret outcome_ret].
  repeat first [ cut_outcome | case_bool_decide ]; try done;
    split_new; proper_steps; wf_steps; sched_norm; unwrap; lia.
Qed.

Lemma drain_proper fuel msg bs : ∀ mb s,
  wf s →
  match drain messageSizeBytes fuel msg bs mb s with
  | Returns (mb', s') => ∃ new, mb' = mb ++ new ∧ Forall proper new
  | _ => True
  end.
Proof.
  induction fuel as [|fuel IH]; intros mb s Hwf; [done|].
  simpl. destruct (envelopes s !! nextSequence s) as [x|] eqn:Hx.
  - pose proof (release_one_wf messageSizeBytes msg bs mb s Hwf
                  (mk_is_Some _ _ Hx)) as Hrel.
    pose proof (release_one_proper msg bs mb s Hwf (mk_is_Some _ _ Hx)) as Hp.
    destruct (release_one messageSizeBytes msg bs mb s)
      as [[mb1 s1]| |]; [| done | done].
    destruct Hrel as [Hwf1 _]. destruct Hp as (new1 & -> & HQ1).
    cbv beta iota zeta delta [mbind outcome_bind].
    specialize (IH (mb ++ new1) s1 Hwf1).
    destruct (drain messageSizeBytes fuel msg bs (mb ++ new1) s1)
      as [[mb2 s2]| |]; [| done | done].
    destruct IH as (new2 & -> & HQ2).
    exists (new1 ++ new2). split; [by rewrite app_assoc | by apply Forall_app].
  - exists []. split; [by rewrite app_nil_r | done].
Qed.

Lemma run_proper inputs : ∀ s,
  wf s →
  Forall (λ i, sequence_of ParseCustomTXID i < max_int) inputs →
  match run messageSizeBytes ParseCustomTXID s inputs with
  | Returns (batches, s') =>
      Forall proper batches ∧ wf s' ∧
      startSequence s ≤ startSequence s' ∧
      ∀ k, k < startSequence s →
           k ∉ sequence_of ParseCustomTXID <$> inputs →
           envelopes s' !! k = envelopes s !! k
  | Panics => ∃ i, i ∈ inputs ∧ MaxMessageCount i.2 ≤ 0
  | OutOfFuel => False
  end.
Proof.
  induction inputs as [|[[msg txID] bs] rest IH]; intros s Hwf Hin.
  - simpl. by split_and!.
  - apply Forall_cons in Hin as [Hk Hrest]. unfold sequence_of in Hk.
    simpl in Hk. rewrite run_cons.
    set (k := (ParseCustomTXID txID).1) in *.
    pose proof (ScheduleSeq_wf messageSizeBytes s msg k bs Hwf Hk) as Hs.
    assert (match ScheduleSeq messageSizeBytes s msg k bs with
            | Returns (batches, _, _) => Forall proper batches
            | _ => True
            end) as Hp.
    { unfold ScheduleSeq.
      cbv beta iota zeta delta [mbind outcome_bind mret outcome_ret].
      case_bool_decide; [|done].
      pose proof (drain_proper
                    (S (size (envelopes
                                (set_envelopes s
                                   (<[k := msg]> (envelopes s))))))
                    msg bs []
                    (set_envelopes s (<[k := msg]> (envelopes s)))
                    (wf_insert messageSizeBytes s k msg Hwf Hk)) as Hd.
      destruct (drain _ _ _ _ _ _) as [[mb1 s1]| |]; [| done | done].
      by destruct Hd as (new & -> & HQ). }
    destruct (ScheduleSeq messageSizeBytes s msg k bs)
      as [[[batches pending] s1]| |]; [| | done].
    2:{ exists (msg, txID, bs). split; [left | done]. }
    destruct Hs as ([Ha1 Ha2 Ha3] & Hwf1 & _). simpl in Ha1, Ha3.
    specialize (IH s1 Hwf1 Hrest).
    destruct (run messageSizeBytes ParseCustomTXID s1 rest)
      as [[later s2]| |]; [| | done].
    2:{ destruct IH as (i & Hi & Hmax). exists i. split; [by right | done]. }
    destruct IH as (HQ & Hwf2 & Hst & Hframe).
    split_and!; [by apply Forall_app | done | lia |].
    intros j Hj Hfresh. rewrite fmap_cons in Hfresh.
    apply not_elem_of_cons in Hfresh as [Hjk Hfresh].
    unfold sequence_of in Hjk. simpl in Hjk. fold k in Hjk.
    rewrite Hframe by (done || lia). rewrite Ha3.
    rewrite bool_decide_eq_false_2 by lia. by rewrite lookup_insert_ne.
Qed.

(** X2 (proper batches).  Whatever is scheduled on a fresh scheduler (any
    order, repeated sequence numbers, any limits), no batch handed back by
    [Schedule] is empty and none holds a nil envelope. *)
Theorem batches_proper inputs :
  Forall (λ i, sequence_of ParseCustomTXID i < max_int) inputs →
  match run messageSizeBytes ParseCustomTXID NewScheduler inputs with
  | Returns (batches, s') =>
      Forall (λ b, b ≠ [] ∧ Forall is_Some b) batches
  | Panics => ∃ i, i ∈ inputs ∧ MaxMessageCount i.2 ≤ 0
  | OutOfFuel => False
  end.
Proof.
  intros Hin.
  pose proof (run_proper inputs NewScheduler wf_new Hin) as H.
  destruct (run messageSizeBytes ParseCustomTXID NewScheduler inputs)
    as [[batches s']| |]; [| done | done].
  by destruct H as (HQ & _).
Qed.

(** ** The byte accumulator stays below the preferred size *)

Lemma release_one_below msg bs mb s mb' s' :
  release_one messageSizeBytes msg bs mb s = Returns (mb', s') →
  below bs s'.
Proof.
  unfold release_one, below. intros H. step_bind H.
  repeat first [cut_returned H | case_bool_decide; step_bind H];
    injection H as <- <-; sched_norm; lia.
Qed.

Lemma drain_below fuel msg bs : ∀ mb s mb' s',
  drain messageSizeBytes fuel msg bs mb s = Returns (mb', s') →
  below bs s → below bs s'.
Proof.
  induction fuel as [|fuel IH]; intros mb s mb' s' H Hb; [done|].
  simpl in H. destruct (envelopes s !! nextSequence s) as [x|].
  - destruct (release_one messageSizeBytes msg bs mb s)
      as [[mb1 s1]| |] eqn:E; [| done | done].
    step_bind H. apply release_one_below in E. by eapply IH.
  - by injection H as <- <-.
Qed.

Lemma run_below bs inputs : ∀ s batches s',
  Forall (λ i, i.2 = bs) inputs →
  run messageSizeBytes ParseCustomTXID s inputs = Returns (batches, s') →
  below bs s → below bs s'.
Proof.
  induction inputs as [|[[msg txID] bs'] rest IH];
    intros s batches s' Hin H Hb.
  - simpl in H. by injection H as <- <-.
  - apply Forall_cons in Hin as [Hbs Hrest]. simpl in Hbs. subst bs'.
    rewrite run_cons in H.
    destruct (ScheduleSeq messageSizeBytes s msg (ParseCustomTXID txID).1 bs)
      as [[[b1 p1] s1]| |] eqn:E; [| done | done].
    destruct (run messageSizeBytes ParseCustomTXID s1 rest)
      as [[later s2]| |] eqn:E2; [| done | done].
    injection H as <- <-. apply (IH s1 later s2 Hrest E2).
    unfold ScheduleSeq in E. step_bind E.
    case_bool_decide.
    + destruct (drain _ _ _ _ _ _) as [[mb1 s1']| |] eqn:Ed; [| done | done].
      step_bind E. injection E as <- <- <-.
      by apply (drain_below _ _ _ _ _ _ _ Ed).
    + by injection E as <- <- <-.
Qed.

(** X3 (byte accumulator).  Drive a fresh scheduler with the same limits on
    every call, [MaxMessageCount] at least one.  Whatever is scheduled,
    after any list of calls the byte accumulator is zero or below
    [PreferredMaxBytes]. *)
Theorem accumulator_below_preferred bs inputs :
  1 ≤ MaxMessageCount bs < 2 ^ 32 →
  Forall (λ i, i.2 = bs ∧ sequence_of ParseCustomTXID i < max_int) inputs →
  ∃ batches s,
    run messageSizeBytes ParseCustomTXID NewScheduler inputs
      = Returns (batches, s) ∧
    (batchSize s = 0 ∨ batchSize s < PreferredMaxBytes bs).
Proof.
  intros Hmax Hin.
  pose proof (run_count messageSizeBytes ParseCustomTXID bs inputs
                NewScheduler Hmax Hin wf_new) as Hrun.
  destruct (run messageSizeBytes ParseCustomTXID NewScheduler inputs)
    as [[batches s]| |] eqn:E.
  - exists batches, s. split; [done|].
    apply (run_below bs inputs NewScheduler batches s); [| done | by left].
    eapply Forall_impl; [exact Hin|]. by intros i [? _].
  - destruct Hrun. split; simpl; [lia | done].
  - destruct Hrun. split; simpl; [lia | done].
Qed.

(** ** A sequence number that was cut already *)

(** X4 (sequence number already cut).  An envelope scheduled under a
    sequence number below [startSequence] (a number whose batch was cut
    already, or a negative one) is stored for good: the call returns no
    batch, and after any later calls that do not reuse the number the
    envelope is still in the map, which therefore never empties again. *)
Theorem stale_envelope_stays s msg txID bs later :
  wf s →
  (ParseCustomTXID txID).1 < startSequence s →
  Forall (λ i, sequence_of ParseCustomTXID i < max_int) later →
  (ParseCustomTXID txID).1 ∉ sequence_of ParseCustomTXID <$> later →
  let s1 := set_envelopes s
              (<[(ParseCustomTXID txID).1 := msg]> (envelopes s)) in
  Schedule messageSizeBytes ParseCustomTXID s msg txID bs
    = Returns ([], true, s1) ∧
  match run messageSizeBytes ParseCustomTXID s1 later with
  | Returns (batches, s') =>
      envelopes s' !! (ParseCustomTXID txID).1 = Some msg ∧
      (0 < size (envelopes s'))%nat
  | Panics => ∃ i, i ∈ later ∧ MaxMessageCount i.2 ≤ 0
  | OutOfFuel => False
  end.
Proof.
  intros Hwf Hk Hlater Hfresh s1.
  pose proof (wf_start _ Hwf). pose proof (wf_order _ Hwf).
  pose proof (wf_next _ Hwf).
  assert (wf s1) as Hwf1 by (apply (wf_insert messageSizeBytes); [done | lia]).
  split.
  - rewrite Schedule_unfold. unfold ScheduleSeq.
    cbv beta iota zeta delta [mbind outcome_bind mret outcome_ret].
    fold s1. rewrite bool_decide_eq_false_2 by (simpl; lia).
    assert (0 < size (envelopes s1))%nat as Hsize.
    { destruct (size (envelopes s1)) eqn:Hsize; [|lia].
      apply map_size_empty_inv in Hsize. unfold s1 in Hsize. simpl in Hsize.
      by apply insert_non_empty in Hsize. }
    by rewrite bool_decide_eq_true_2.
  - pose proof (run_proper later s1 Hwf1 Hlater) as Hrun.
    destruct (run messageSizeBytes ParseCustomTXID s1 later)
      as [[batches s']| |]; [| done | done].
    destruct Hrun as (_ & _ & _ & Hframe).
    assert (envelopes s' !! (ParseCustomTXID txID).1 = Some msg) as Hstored.
    { rewrite Hframe by done. unfold s1. simpl. apply lookup_insert_eq. }
    split; [done|].
    destruct (size (envelopes s')) eqn:Hsize; [|lia].
    apply map_size_empty_inv in Hsize. rewrite Hsize in Hstored.
    by rewrite lookup_empty in Hstored.
Qed.

(** ** The byte total passes the preferred size *)

Lemma overflow_alone msg bs mb s x :
  wf s → envelopes s !! nextSequence s = Some x →
  1 ≤ MaxMessageCount bs →
  wrap_uint32 (batchSize s + messageSizeBytes msg) > PreferredMaxBytes bs →
  startSequence s = nextSequence s →
  ∃ s',
    release_one messageSizeBytes msg bs mb s
      = Returns (mb ++ [[Some x]], s') ∧
    batchSize s' = 0 ∧
    startSequence s' = nextSequence s + 1 ∧
    nextSequence s' = nextSequence s + 1.
Proof.
  intros Hwf Hnext Hmax Hover Hempty.
  assert (nextSequence s < max_int) as Hlim by (eapply wf_keys; eauto).
  pose proof (wf_start _ Hwf) as Hs0.
  unfold release_one.
  rewrite (wrap_int_small (nextSequence s + 1))
    by (unfold min_int, max_int in *; lia).
  cbv beta iota zeta delta [mbind outcome_bind mret outcome_ret].
  cbn [batchSize set_nextSequence nextSequence startSequence].
  rewrite bool_decide_eq_false_2 by lia.
  rewrite bool_decide_eq_true_2 by lia.
  rewrite (wrap_int_small (nextSequence s + 1 - startSequence s))
    by (unfold min_int, max_int in *; lia).
  rewrite bool_decide_eq_true_2 by lia.
  rewrite Cut_Returns by (simpl; lia).
  rewrite cut_batch_items.
  cbn [nextSequence startSequence envelopes set_batchSize cut_state
       set_startSequence set_envelopes set_nextSequence].
  rewrite Hempty, range_items_one, Hnext, Z.sub_diag.
  rewrite (wrap_int_small 0) by (unfold min_int, max_int; lia).
  rewrite (wrap_uint32_small 0) by lia.
  rewrite bool_decide_eq_false_2 by lia.
  eexists. by split.
Qed.

Lemma overflow_cut_before s x :
  wf s → envelopes s !! nextSequence s = Some x →
  startSequence s < nextSequence s →
  let s0 := set_nextSequence s (nextSequence s + 1) in
  Cut s0 (nextSequence s)
  = Returns (Some <$> stored (envelopes s) (startSequence s) (nextSequence s),
             cut_state s0 (nextSequence s)) ∧
  envelopes (cut_state s0 (nextSequence s)) !! nextSequence s = Some x.
Proof.
  intros Hwf Hnext Hsome s0.
  pose proof (wf_start _ Hwf) as Hs0. pose proof (wf_next _ Hwf).
  split.
  - rewrite Cut_Returns by (simpl; lia). rewrite cut_batch_items. simpl.
    do 2 f_equal. apply range_items_stored. apply (wf_region _ Hwf).
  - rewrite cut_state_lookup. simpl.
    by rewrite bool_decide_eq_false_2 by lia.
Qed.

Lemma overflow_both msg bs mb s x :
  wf s → envelopes s !! nextSequence s = Some x →
  1 ≤ MaxMessageCount bs →
  wrap_uint32 (batchSize s + messageSizeBytes msg) > PreferredMaxBytes bs →
  startSequence s < nextSequence s →
  messageSizeBytes msg >= PreferredMaxBytes bs →
  ∃ s',
    release_one messageSizeBytes msg bs mb s
      = Returns
          (mb ++ [Some <$> stored (envelopes s) (startSequence s)
                             (nextSequence s); [Some x]], s') ∧
    batchSize s' = 0 ∧
    startSequence s' = nextSequence s + 1 ∧
    nextSequence s' = nextSequence s + 1.
Proof.
  intros Hwf Hnext Hmax Hover Hsome Hbig.
  assert (nextSequence s < max_int) as Hlim by (eapply wf_keys; eauto).
  pose proof (wf_start _ Hwf) as Hs0.
  destruct (overflow_cut_before s x Hwf Hnext Hsome) as [Hcut Hx].
  unfold release_one.
  rewrite (wrap_int_small (nextSequence s + 1))
    by (unfold min_int, max_int in *; lia).
  cbv beta iota zeta delta [mbind outcome_bind mret outcome_ret].
  cbn [batchSize set_nextSequence nextSequence startSequence].
  rewrite bool_decide_eq_false_2 by lia.
  rewrite bool_decide_eq_true_2 by lia.
  rewrite (wrap_int_small (nextSequence s + 1 - startSequence s))
    by (unfold min_int, max_int in *; lia).
  rewrite bool_decide_eq_false_2 by lia.
  rewrite (wrap_int_small (nextSequence s + 1 - 1))
    by (unfold min_int, max_int in *; lia).
  replace (nextSequence s + 1 - 1) with (nextSequence s) by lia.
  rewrite Hcut. rewrite bool_decide_eq_true_2 by lia.
  rewrite Cut_Returns by (simpl; lia).
  rewrite cut_batch_items.
  cbn [nextSequence startSequence batchSize set_batchSize cut_state
       set_startSequence set_envelopes set_nextSequence].
  rewrite range_items_one.
  change (cut_loop _ _).2 with
    (envelopes (cut_state (set_nextSequence s (nextSequence s + 1))
                  (nextSequence s))).
  rewrite Hx, Z.sub_diag.
  rewrite (wrap_int_small 0) by (unfold min_int, max_int; lia).
  rewrite (wrap_uint32_small 0) by lia.
  rewrite bool_decide_eq_false_2 by lia.
  eexists. split; [by rewrite <- app_assoc | done].
Qed.

Lemma overflow_keep msg bs mb s x :
  wf s → envelopes s !! nextSequence s = Some x →
  2 ≤ MaxMessageCount bs →
  wrap_uint32 (batchSize s + messageSizeBytes msg) > PreferredMaxBytes bs →
  startSequence s < nextSequence s →
  messageSizeBytes msg < PreferredMaxBytes bs →
  ∃ s',
    release_one messageSizeBytes msg bs mb s
      = Returns
          (mb ++ [Some <$> stored (envelopes s) (startSequence s)
                             (nextSequence s)], s') ∧
    batchSize s' = messageSizeBytes msg ∧
    startSequence s' = nextSequence s ∧
    nextSequence s' = nextSequence s + 1 ∧
    envelopes s' !! nextSequence s = Some x.
Proof.
  intros Hwf Hnext Hmax Hover Hsome Hsmall.
  assert (nextSequence s < max_int) as Hlim by (eapply wf_keys; eauto).
  pose proof (wf_start _ Hwf) as Hs0.
  destruct (overflow_cut_before s x Hwf Hnext Hsome) as [Hcut Hx].
  unfold release_one.
  rewrite (wrap_int_small (nextSequence s + 1))
    by (unfold min_int, max_int in *; lia).
  cbv beta iota zeta delta [mbind outcome_bind mret outcome_ret].
  cbn [batchSize set_nextSequence nextSequence startSequence].
  rewrite bool_decide_eq_false_2 by lia.
  rewrite bool_decide_eq_true_2 by lia.
  rewrite (wrap_int_small (nextSequence s + 1 - startSequence s))
    by (unfold min_int, max_int in *; lia).
  rewrite bool_decide_eq_false_2 by lia.
  rewrite (wrap_int_small (nextSequence s + 1 - 1))
    by (unfold min_int, max_int in *; lia).
  replace (nextSequence s + 1 - 1) with (nextSequence s) by lia.
  rewrite Hcut. rewrite bool_decide_eq_false_2 by lia.
  cbn [nextSequence startSequence batchSize set_batchSize cut_state
       set_startSequence set_envelopes set_nextSequence].
  replace (nextSequence s + 1 - nextSequence s) with 1 by lia.
  rewrite (wrap_int_small 1) by (unfold min_int, max_int; lia).
  rewrite (wrap_uint32_small 1) by lia.
  rewrite bool_decide_eq_false_2 by lia.
  eexists. split; [done|]. by split_and!.
Qed.

(** X5 (overflow).  When the byte total computed for a released envelope
    exceeds [PreferredMaxBytes]:
    - with nothing accumulated, the envelope is cut alone;
    - with envelopes accumulated and a size charged of at least
      [PreferredMaxBytes], the accumulated ones are cut as one batch and the
      released one as a second batch;
    - with envelopes accumulated and a smaller size charged, the accumulated
      ones are cut and the released one starts the next batch, the
      accumulator restarting at the size charged.
    The size charged is that of the argument of the enclosing call. *)
Theorem overflow_cut msg bs mb s x :
  wf s → envelopes s !! nextSequence s = Some x →
  wrap_uint32 (batchSize s + messageSizeBytes msg) > PreferredMaxBytes bs →
  (1 ≤ MaxMessageCount bs → startSequence s = nextSequence s →
   ∃ s',
     release_one messageSizeBytes msg bs mb s
       = Returns (mb ++ [[Some x]], s') ∧
     batchSize s' = 0 ∧
     startSequence s' = nextSequence s + 1 ∧
     nextSequence s' = nextSequence s + 1) ∧
  (1 ≤ MaxMessageCount bs → startSequence s < nextSequence s →
   messageSizeBytes msg >= PreferredMaxBytes bs →
   ∃ s',
     release_one messageSizeBytes msg bs mb s
       = Returns
           (mb ++ [Some <$> stored (envelopes s) (startSequence s)
                              (nextSequence s); [Some x]], s') ∧
     batchSize s' = 0 ∧
     startSequence s' = nextSequence s + 1 ∧
     nextSequence s' = nextSequence s + 1) ∧
  (2 ≤ MaxMessageCount bs → startSequence s < nextSequence s →
   messageSizeBytes msg < PreferredMaxBytes bs →
   ∃ s',
     release_one messageSizeBytes msg bs mb s
       = Returns
           (mb ++ [Some <$> stored (envelopes s) (startSequence s)
                              (nextSequence s)], s') ∧
     batchSize s' = messageSizeBytes msg ∧
     startSequence s' = nextSequence s ∧
     nextSequence s' = nextSequence s + 1 ∧
     envelopes s' !! nextSequence s = Some x).
Proof.
  intros Hwf Hnext Hover. split_and!.
  - intros. by apply overflow_alone.
  - intros. by apply overflow_both.
  - intros. by apply overflow_keep.
Qed.

(** ** [Cut] after [Cut] *)



(** ** A zero [MaxMessageCount] *)

(** X7 (zero [MaxMessageCount]).  With [MaxMessageCount = 0], a call that
    releases the awaited envelope panics as soon as the byte rules cut
    everything accumulated: the count check that follows calls [Cut] on an
    empty range. *)
Theorem zero_count_panics s msg txID bs :
  wf s →
  (ParseCustomTXID txID).1 = nextSequence s →
  nextSequence s < max_int →
  MaxMessageCount bs ≤ 0 →
  PreferredMaxBytes bs ≤ wrap_uint32 (batchSize s + messageSizeBytes msg) →
  (wrap_uint32 (batchSize s + messageSizeBytes msg) = PreferredMaxBytes bs ∨
   startSequence s = nextSequence s ∨
   PreferredMaxBytes bs ≤ messageSizeBytes msg) →
  Schedule messageSizeBytes ParseCustomTXID s msg txID bs = Panics.
Proof.
  intros Hwf Hk Hlim Hmax Hover Hall.
  pose proof (wf_start _ Hwf) as Hs0. pose proof (wf_order _ Hwf) as Hs1.
  rewrite Schedule_unfold, Hk. unfold ScheduleSeq.
  cbv beta iota zeta delta [mbind outcome_bind mret outcome_ret].
  cbn [nextSequence set_envelopes]. rewrite bool_decide_eq_true_2 by done.
  cbn [drain envelopes set_envelopes nextSequence]. rewrite lookup_insert_eq.
  unfold release_one.
  cbn [batchSize set_nextSequence nextSequence startSequence set_envelopes].
  rewrite (wrap_int_small (nextSequence s + 1))
    by (unfold min_int, max_int in *; lia).
  cbv beta iota zeta delta [mbind outcome_bind mret outcome_ret].
  rewrite (bool_decide_eq_false_2
             (wrap_uint32 (batchSize s + messageSizeBytes msg)
              < PreferredMaxBytes bs)) by lia.
  rewrite (wrap_int_small (nextSequence s + 1 - startSequence s))
    by (unfold min_int, max_int in *; lia).
  rewrite (wrap_int_small (nextSequence s + 1 - 1))
    by (unfold min_int, max_int in *; lia).
  repeat first [ cut_outcome | case_bool_decide ]; try done;
    try (exfalso; lia); sched_norm; unwrap; exfalso; lia.
Qed.

(** ** Envelopes arriving in sequence order *)

Lemma run_inorder_next bs inputs : ∀ s batches s',
  0 ≤ PreferredMaxBytes bs →
  Forall (λ i, i.2 = bs ∧ 0 ≤ messageSizeBytes i.1.1 ∧
               PreferredMaxBytes bs + messageSizeBytes i.1.1 < 2 ^ 32)
         inputs →
  sequence_of ParseCustomTXID <$> inputs
    = seqZ (nextSequence s) (Z.of_nat (length inputs)) →
  nextSequence s + Z.of_nat (length inputs) ≤ max_int →
  inorder_inv messageSizeBytes bs s →
  run messageSizeBytes ParseCustomTXID s inputs = Returns (batches, s') →
  nextSequence s' = nextSequence s + Z.of_nat (length inputs).
Proof.
  intros s batches s' Hpref Hin. revert s batches s'.
  induction Hin as [|[[msg txID] bs'] rest (Hbs & Hsz & Hov) Hrest IH];
    intros s batches s' Hkeys Hlen Hinv Hrun.
  { simpl in *. injection Hrun as <- <-. lia. }
  simpl in Hbs, Hsz, Hov. subst bs'. rewrite run_cons in Hrun.
  rewrite length_cons, Nat2Z.inj_succ, seqZ_cons in Hkeys by lia.
  injection Hkeys as Hk Hkeys. unfold sequence_of in Hk. simpl in Hk.
  rewrite Hk in Hrun. rewrite length_cons in Hlen.
  pose proof (ScheduleSeq_inorder messageSizeBytes s msg bs Hinv) as Hstep.
  destruct (ScheduleSeq messageSizeBytes s msg (nextSequence s) bs)
    as [[[b1 pending] s1]| |]; [| done | done].
  destruct Hstep as (_ & Hinv1 & Hn1); try done; [lia|].
  destruct (run messageSizeBytes ParseCustomTXID s1 rest)
    as [[later s2]| |] eqn:E; [| done | done].
  injection Hrun as <- <-.
  rewrite Z.pred_succ in Hkeys.
  assert (sequence_of ParseCustomTXID <$> rest
          = seqZ (nextSequence s1) (Z.of_nat (length rest))) as Hkeys1
    by (rewrite Hn1; exact Hkeys).
  rewrite (IH s1 later s2 Hkeys1) by (done || lia).
  rewrite length_cons. lia.
Qed.

(** X8 (in-order bookkeeping).  Feed a fresh scheduler in sequence order
    with the same limits on every call (sizes and [PreferredMaxBytes] within
    [uint32]).  Then the map holds exactly the forming batch, the byte
    accumulator is the total size of the forming batch, and the flag a
    further in-order call returns tells whether a forming batch is left: it
    is false exactly when that call cut everything, and then the map is
    empty. *)
Theorem inorder_bookkeeping bs inputs msg txID :
  0 ≤ PreferredMaxBytes bs →
  Forall (λ i, i.2 = bs ∧ 0 ≤ messageSizeBytes i.1.1 ∧
               PreferredMaxBytes bs + messageSizeBytes i.1.1 < 2 ^ 32)
         (inputs ++ [(msg, txID, bs)]) →
  sequence_of ParseCustomTXID <$> inputs ++ [(msg, txID, bs)]
    = seqZ 0 (Z.of_nat (length inputs) + 1) →
  Z.of_nat (length inputs) < max_int →
  match run messageSizeBytes ParseCustomTXID NewScheduler inputs with
  | Returns (batches, s) =>
      (∀ k, is_Some (envelopes s !! k) ↔
            startSequence s ≤ k < nextSequence s) ∧
      batchSize s =
        batch_bytes messageSizeBytes
          (range_items (envelopes s) (startSequence s) (nextSequence s)) ∧
      match Schedule messageSizeBytes ParseCustomTXID s msg txID bs with
      | Returns (new, pending, s') =>
          pending = bool_decide (startSequence s' < nextSequence s') ∧
          (pending = false ↔ envelopes s' = ∅)
      | Panics => MaxMessageCount bs ≤ 0
      | OutOfFuel => False
      end
  | Panics => MaxMessageCount bs ≤ 0
  | OutOfFuel => False
  end.
Proof.
  intros Hpref Hin Hseq Hlen.
  apply Forall_app in Hin as [Hin Hlast].
  apply Forall_cons in Hlast as [(_ & Hsz & Hov) _]. simpl in Hsz, Hov.
  rewrite fmap_app, seqZ_app, Z.add_0_l in Hseq by lia.
  apply app_inj_1 in Hseq as [Hseq Hk];
    [| by rewrite length_fmap, length_seqZ, Nat2Z.id].
  injection Hk as Hk. unfold sequence_of in Hk. simpl in Hk.
  pose proof (run_inorder messageSizeBytes ParseCustomTXID bs inputs
                NewScheduler Hpref Hin Hseq) as Hrun.
  pose proof (run_inorder_next bs inputs NewScheduler) as Hnext.
  destruct (run messageSizeBytes ParseCustomTXID NewScheduler inputs)
    as [[batches s]| |] eqn:Erun.
  2,3: apply Hrun; [simpl; lia | apply inorder_new].
  destruct Hrun as [_ Hinv]; [simpl; lia | apply inorder_new |].
  assert (nextSequence s = Z.of_nat (length inputs)) as Hn.
  { rewrite (Hnext batches s Hpref Hin Hseq);
      [done | simpl; lia | apply inorder_new | done]. }
  clear Hnext.
  assert (∀ t : Scheduler Envelope, inorder_inv messageSizeBytes bs t →
            ∀ k, is_Some (envelopes t !! k) ↔
                 startSequence t ≤ k < nextSequence t) as Hshape.
  { intros t Ht k. split; [apply (io_compact _ _ _ Ht)|].
    apply (wf_region _ (io_wf _ _ _ Ht)). }
  split_and!; [by apply Hshape | apply (io_bytes _ _ _ Hinv) |].
  rewrite Schedule_unfold, Hk, Z.add_0_l, <- Hn.
  pose proof (ScheduleSeq_inorder messageSizeBytes s msg bs Hinv) as Hstep.
  pose proof (ScheduleSeq_wf messageSizeBytes s msg (nextSequence s) bs
                (io_wf _ _ _ Hinv)) as Hwf.
  destruct (ScheduleSeq messageSizeBytes s msg (nextSequence s) bs)
    as [[[new pending] s']| |].
  2,3: apply Hstep; (done || lia).
  destruct Hstep as (_ & Hinv' & _); try done; [lia|].
  destruct Hwf as (_ & _ & _ & _ & _ & ->); [lia|].
  pose proof (Hshape s' Hinv') as Hs'.
  assert ((0 < size (envelopes s'))%nat ↔ startSequence s' < nextSequence s')
    as Hiff.
  { split.
    - intros Hsize.
      destruct (map_choose (envelopes s')) as (k & x & Hkx).
      { intros Hempty. rewrite Hempty, map_size_empty in Hsize. lia. }
      assert (startSequence s' ≤ k < nextSequence s')
        by (apply Hs'; by eexists). lia.
    - intros Hlt. destruct (proj2 (Hs' (startSequence s'))) as [x Hx]; [lia|].
      destruct (size (envelopes s')) eqn:Hsize; [|lia].
      apply map_size_empty_inv in Hsize. rewrite Hsize in Hx.
      by rewrite lookup_empty in Hx. }
  split.
  - apply bool_decide_ext, Hiff.
  - rewrite bool_decide_eq_false. split.
    + intros Hsize. apply map_size_empty_inv. lia.
    + intros ->. rewrite map_size_empty. lia.
Qed.

(** ** The absolute limit *)

Lemma release_one_limits msg bs bs' mb s :
  MaxMessageCount bs = MaxMessageCount bs' →
  PreferredMaxBytes bs = PreferredMaxBytes bs' →
  release_one messageSizeBytes msg bs mb s
  = release_one messageSizeBytes msg bs' mb s.
Proof.
  destruct bs as [m a p], bs' as [m' a' p']. simpl. by intros -> ->.
Qed.

Lemma drain_limits fuel msg bs bs' :
  MaxMessageCount bs = MaxMessageCount bs' →
  PreferredMaxBytes bs = PreferredMaxBytes bs' →
  ∀ mb s,
    drain messageSizeBytes fuel msg bs mb s
    = drain messageSizeBytes fuel msg bs' mb s.
Proof.
  intros Hm Hp. induction fuel as [|fuel IH]; intros mb s; [done|].
  simpl. destruct (envelopes s !! nextSequence s); [|done].
  rewrite (release_one_limits msg bs bs' mb s Hm Hp).
  destruct (release_one messageSizeBytes msg bs' mb s) as [[mb1 s1]| |];
    [| done | done].
  cbv beta iota zeta delta [mbind outcome_bind]. apply IH.
Qed.

(** X24 (absolute limit).  [Schedule] never consults [AbsoluteMaxBytes]: two
    runs that agree on the envelopes, the identifiers, [MaxMessageCount]
    and [PreferredMaxBytes] of every call have the same outcome, whatever
    the absolute limits are. *)
Theorem absolute_limit_ignored inputs inputs' s :
  Forall2 (λ i i', i.1 = i'.1 ∧
                   MaxMessageCount i.2 = MaxMessageCount i'.2 ∧
                   PreferredMaxBytes i.2 = PreferredMaxBytes i'.2)
          inputs inputs' →
  run messageSizeBytes ParseCustomTXID s inputs
  = run messageSizeBytes ParseCustomTXID s inputs'.
Proof.
  intros H. revert s.
  induction H as [|[[msg txID] bs] [[msg' txID'] bs'] rest rest'
                    (Heq & Hm & Hp) _ IH]; intros s; [done|].
  simpl in Heq, Hm, Hp. injection Heq as <- <-.
  rewrite !run_cons.
  assert (ScheduleSeq messageSizeBytes s msg (ParseCustomTXID txID).1 bs
          = ScheduleSeq messageSizeBytes s msg (ParseCustomTXID txID).1 bs')
    as ->.
  { unfold ScheduleSeq. by rewrite (drain_limits _ msg bs bs' Hm Hp). }
  destruct (ScheduleSeq messageSizeBytes s msg (ParseCustomTXID txID).1 bs')
    as [[[b p] s1]| |]; [| done | done].
  by rewrite IH.
Qed.

End SchedulerExtras.

(** * Further properties of the dispatcher *)

Section DispatcherExtras.

Import endorser heap_runs.

Context {U R : Type}.
Implicit Types (h : PriorityQueue U R) (x y r : UnpackedProposalWrapper U R).
Implicit Types (sys : system U R) (trace : list (event U R)).

Lemma push_all_spec items : ∀ h,
  is_heap h →
  ∃ h', push_all h items = Returns h' ∧ is_heap h' ∧ h' ≡ₚ h ++ items.
Proof.
  induction items as [|x items IH]; intros h Hh; simpl.
  - exists h. by rewrite app_nil_r.
  - destruct (endorser_facts.heap_Push_spec h x Hh) as (h1 & -> & Hh1 & Hp1).
    cbv beta iota zeta delta [mbind outcome_bind mret outcome_ret].
    destruct (IH h1 Hh1) as (h' & Hrun & Hh' & Hp).
    exists h'. split_and!; [done | done |].
    rewrite Hp, Hp1. by rewrite <- Permutation_middle.
Qed.

Lemma pop_all_spec n : ∀ h,
  is_heap h → length h = n →
  ∃ out, pop_all n h = Returns (out, []) ∧ out ≡ₚ h ∧
         Sorted Z.le (Sequence <$> out).
Proof.
  induction n as [|n IH]; intros h Hh Hlen; simpl.
  - destruct h; [|done]. exists []. split_and!; [done | done | constructor].
  - destruct h as [|r rest] eqn:Hq; [done|]. rewrite <- Hq in *.
    assert (h !! 0%nat = Some r) as Hr by (by rewrite Hq).
    destruct (endorser_facts.heap_Pop_spec h r Hh Hr) as (h' & -> & Hh' & Hp).
    cbv beta iota zeta delta [mbind outcome_bind mret outcome_ret].
    destruct (IH h' Hh') as (out & -> & Hout & Hsorted).
    { apply Permutation_length in Hp. simpl in Hp. lia. }
    cbv beta iota zeta delta [mbind outcome_bind mret outcome_ret].
    exists (r :: out). split_and!; [done | by rewrite Hp, Hout |].
    rewrite fmap_cons. constructor; [done|].
    destruct out as [|y out]; constructor.
    assert (y ∈ h) as Hy.
    { rewrite Hp, <- Hout. apply elem_of_cons. right. apply elem_of_cons.
      by left. }
    apply list_elem_of_lookup in Hy as [k Hk].
    apply (endorser_facts.is_heap_root h r Hh Hr k y Hk).
Qed.

(** X9 ([heap.Push]).  [heap.Push] on a queue in heap order returns: it
    never indexes out of range.  The queue it leaves is in heap order, holds
    the old wrappers and the new one and nothing else, and its first element
    carries a smallest sequence number. *)
Theorem heap_Push_keeps_heap h x :
  is_heap h →
  ∃ h', heap_Push h x = Returns h' ∧ is_heap h' ∧ h' ≡ₚ x :: h ∧
        ∃ r, h' !! 0%nat = Some r ∧
             Forall (λ y, Sequence r ≤ Sequence y) (x :: h).
Proof.
  intros Hh.
  destruct (endorser_facts.heap_Push_spec h x Hh) as (h' & Hpush & Hh' & Hp).
  exists h'. split_and!; [done | done | done |].
  destruct h' as [|r rest] eqn:Hq.
  { apply Permutation_length in Hp. done. }
  exists r. split; [done|]. rewrite <- Hp.
  apply Forall_forall. intros y Hy.
  apply list_elem_of_lookup in Hy as [k Hk].
  by apply (endorser_facts.is_heap_root (r :: rest) r Hh' eq_refl k y).
Qed.

(** X10 ([heap.Pop]).  On a queue in heap order: on the empty queue it
    panics (an index out of range); otherwise it returns the first element,
    which carries a smallest sequence number, and leaves the other wrappers
    in heap order. *)
Theorem heap_Pop_minimum h :
  is_heap h →
  match h with
  | [] => heap_Pop h = Panics
  | first :: _ =>
      ∃ h', heap_Pop h = Returns (first, h') ∧
            is_heap h' ∧ h ≡ₚ first :: h' ∧
            Forall (λ y, Sequence first ≤ Sequence y) h
  end.
Proof.
  intros Hh. destruct h as [|r rest] eqn:Hq; [done|]. rewrite <- Hq in *.
  assert (h !! 0%nat = Some r) as Hr by (by rewrite Hq).
  destruct (endorser_facts.heap_Pop_spec h r Hh Hr) as (h' & Hpop & Hh' & Hp).
  exists h'. split_and!; [done | done | done |].
  apply Forall_forall. intros y Hy.
  apply list_elem_of_lookup in Hy as [k Hk].
  by apply (endorser_facts.is_heap_root h r Hh Hr k y).
Qed.

(** X11 (heap sort).  Wrappers pushed one by one onto an empty queue, in any
    order and with any sequence numbers (repeated ones included), come back
    from as many [heap.Pop] calls in non-decreasing order of sequence
    number; none is lost or duplicated and the queue ends empty. *)
Theorem heap_sorts (items : list (UnpackedProposalWrapper U R)) :
  ∃ h out,
    push_all [] items = Returns h ∧
    pop_all (length items) h = Returns (out, []) ∧
    out ≡ₚ items ∧
    Sorted Z.le (Sequence <$> out).
Proof.
  destruct (push_all_spec items []) as (h & Hpush & Hh & Hp).
  { intros c x y _ Hx. done. }
  destruct (pop_all_spec (length items) h Hh) as (out & Hpop & Hout & Hs).
  { by rewrite Hp. }
  exists h, out. split_and!; [done | done | by rewrite Hout, Hp | done].
Qed.

Lemma seqZ_prefix (l : list Z) (n : Z) :
  l `prefix_of` seqZ 0 n → l = seqZ 0 (Z.of_nat (length l)).
Proof.
  intros [k Hk].
  assert (length l ≤ Z.to_nat n)%nat as Hlen.
  { apply (f_equal length) in Hk. rewrite length_seqZ, length_app in Hk. lia. }
  assert (0 ≤ n ∨ n < 0) as [Hn|Hn] by lia.
  2:{ replace (Z.to_nat n) with 0%nat in Hlen by lia.
      destruct l; [done | simpl in Hlen; lia]. }
  replace n with (Z.of_nat (length l) + (n - Z.of_nat (length l))) in Hk
    by lia.
  rewrite seqZ_app in Hk by lia.
  apply app_inj_1 in Hk as [Hk _]; [done|].
  rewrite length_seqZ. lia.
Qed.

(** X12 (dispatcher safety).  Whatever is pushed (sequence numbers repeated,
    missing or negative) and however producers, worker and consumer
    interleave, no step panics; the wrappers sent to the consumer carry the
    sequence numbers 0, 1, 2, ... with no gap and no repetition, the
    consumer receives them in this order, and every pushed wrapper is either
    sent or still queued, once.  (A full [processCh] only makes the worker
    wait inside its pass; the order of the sends is the one of the pass run
    in one go.) *)
Theorem dispatch_safety trace :
  Z.of_nat (length (pushed trace)) ≤ max_int →
  ∃ sys,
    exec NewSystem trace = Returns sys ∧
    Sequence <$> dispatched sys = seqZ 0 (nextSequence (orderer sys)) ∧
    Sequence <$> received sys = seqZ 0 (Z.of_nat (length (received sys))) ∧
    dispatched sys ++ queue (orderer sys) ≡ₚ pushed trace ∧
    is_heap (queue (orderer sys)).
Proof.
  intros Hlim.
  destruct (endorser_facts.exec_inv trace [] NewSystem
              endorser_facts.po_inv_new Hlim)
    as (sys & Hexec & [Hheap Hperm Hseq Hnext _] & _ & _).
  exists sys. split_and!; [done | done | | done | done].
  rewrite <- (length_fmap Sequence).
  apply (seqZ_prefix _ (nextSequence (orderer sys))).
  rewrite <- Hseq. unfold dispatched. rewrite fmap_app.
  by apply prefix_app_r.
Qed.

Lemma stale_step P sys x ev :
  po_inv P sys →
  x ∈ queue (orderer sys) → Sequence x < nextSequence (orderer sys) →
  Z.of_nat (length (P ++ pushed [ev])) ≤ max_int →
  ∃ sys',
    step sys ev = Returns sys' ∧
    po_inv (P ++ pushed [ev]) sys' ∧
    dispatched sys' = dispatched sys ∧
    nextSequence (orderer sys') = nextSequence (orderer sys) ∧
    x ∈ queue (orderer sys').
Proof.
  intros Hinv Hx Hstale Hlim.
  destruct (endorser_facts.step_inv P sys ev Hinv Hlim)
    as (sys' & Hstep & Hinv' & _ & _).
  exists sys'. split_and!; [done | done | | |];
    destruct Hinv as [Hheap _ _ _ _];
    destruct sys as [[n q ch t] k rec]; unfold dispatched in *; simpl in *;
    destruct ev as [upw| | |]; simpl in Hstep.
  all: try (unfold Push_locked in Hstep; simpl in Hstep;
            destruct (endorser_facts.heap_Push_spec q upw Hheap)
              as (q' & Hq' & _ & Hp);
            rewrite Hq' in Hstep;
            cbv beta iota zeta delta [mbind outcome_bind mret outcome_ret]
              in Hstep;
            injection Hstep as <-; simpl; try done;
            rewrite Hp; apply elem_of_cons; by right).
  all: try (destruct k as [|k]; [by injection Hstep as <-|];
            unfold Push_signal in Hstep; simpl in Hstep;
            case_bool_decide; by injection Hstep as <-).
  all: try (unfold Pop_received in Hstep; simpl in Hstep;
            destruct ch as [|upw rest]; injection Hstep as <-; simpl;
            try done; by rewrite <- app_assoc).
  all: unfold SendProposalsInOrder in Hstep;
    cbn [orderer trySendCh nextSequence queue processCh] in Hstep;
    destruct t as [|signals]; [by injection Hstep as <-|];
    rewrite endorser_facts.send_loop_S in Hstep;
    cbn [orderer trySendCh nextSequence queue processCh] in Hstep;
    destruct q as [|first rest] eqn:Hq;
    [by apply elem_of_nil in Hx|];
    apply list_elem_of_lookup in Hx as [i Hi];
    pose proof (endorser_facts.is_heap_root (first :: rest) first Hheap
                  eq_refl i x Hi);
    rewrite bool_decide_eq_false_2 in Hstep by lia;
    cbv beta iota zeta delta [mbind outcome_bind mret outcome_ret] in Hstep;
    injection Hstep as <-; simpl; try done;
    by apply list_elem_of_lookup_2 in Hi.
Qed.

Lemma stale_exec trace : ∀ P sys x,
  po_inv P sys →
  x ∈ queue (orderer sys) → Sequence x < nextSequence (orderer sys) →
  Z.of_nat (length (P ++ pushed trace)) ≤ max_int →
  ∃ sys',
    exec sys trace = Returns sys' ∧
    dispatched sys' = dispatched sys ∧
    nextSequence (orderer sys') = nextSequence (orderer sys) ∧
    x ∈ queue (orderer sys').
Proof.
  induction trace as [|ev trace IH]; intros P sys x Hinv Hx Hstale Hlim.
  - by exists sys.
  - assert (pushed (ev :: trace) = pushed [ev] ++ pushed trace) as Hsplit
      by (unfold pushed; by rewrite <- omap_app).
    rewrite Hsplit, app_assoc in Hlim.
    destruct (stale_step P sys x ev Hinv Hx Hstale)
      as (sys1 & Hstep & Hinv1 & Hd1 & Hn1 & Hx1).
    { rewrite length_app in Hlim. lia. }
    destruct (IH _ sys1 x Hinv1 Hx1) as (sys2 & Hexec & Hd2 & Hn2 & Hx2);
      [lia | done |].
    exists sys2. simpl. rewrite Hstep.
    cbv beta iota zeta delta [mbind outcome_bind mret outcome_ret].
    split_and!; [done | congruence | congruence | done].
Qed.

(** X13 (stale sequence number).  A wrapper queued under a sequence number
    below [nextSequence] (a number that was dispatched already, or a
    negative one) jams the dispatcher: it stays in the queue, and from then
    on nothing is sent to the consumer, whatever else is pushed. *)
Theorem stale_sequence_blocks trace1 trace2 sys1 x :
  Z.of_nat (length (pushed (trace1 ++ trace2))) ≤ max_int →
  exec NewSystem trace1 = Returns sys1 →
  x ∈ queue (orderer sys1) →
  Sequence x < nextSequence (orderer sys1) →
  ∃ sys2,
    exec sys1 trace2 = Returns sys2 ∧
    dispatched sys2 = dispatched sys1 ∧
    nextSequence (orderer sys2) = nextSequence (orderer sys1) ∧
    x ∈ queue (orderer sys2).
Proof.
  intros Hlim Hexec Hx Hstale.
  rewrite endorser_facts.pushed_app in Hlim.
  destruct (endorser_facts.exec_inv trace1 [] NewSystem
              endorser_facts.po_inv_new)
    as (sys & Hexec' & Hinv & _ & _).
  { rewrite length_app in Hlim. simpl. lia. }
  rewrite Hexec in Hexec'. injection Hexec' as <-. simpl in Hinv.
  by apply (stale_exec trace2 (pushed trace1) sys1 x).
Qed.

(** X14 (missing sequence number).  A sequence number that is never pushed
    holds back everything after it: [nextSequence] does not pass it and no
    wrapper with this or a larger sequence number is sent to the consumer. *)
Theorem missing_sequence_blocks trace (k : Z) :
  Z.of_nat (length (pushed trace)) ≤ max_int →
  0 ≤ k →
  k ∉ Sequence <$> pushed trace →
  ∃ sys,
    exec NewSystem trace = Returns sys ∧
    nextSequence (orderer sys) ≤ k ∧
    Forall (λ x, Sequence x < k) (dispatched sys).
Proof.
  intros Hlim Hk Hmiss.
  destruct (endorser_facts.exec_inv trace [] NewSystem
              endorser_facts.po_inv_new Hlim)
    as (sys & Hexec & [Hheap Hperm Hseq Hnext _] & _ & _).
  simpl in Hperm.
  assert (∀ j, j ∈ Sequence <$> dispatched sys → j ∈ Sequence <$> pushed trace)
    as Hsub.
  { intros j Hj. rewrite <- Hperm, fmap_app. apply elem_of_app. by left. }
  assert (nextSequence (orderer sys) ≤ k) as Hle.
  { destruct (decide (nextSequence (orderer sys) ≤ k)) as [|Hgt]; [done|].
    exfalso. apply Hmiss, Hsub. rewrite Hseq. apply elem_of_seqZ. lia. }
  exists sys. split_and!; [done | done |].
  apply Forall_forall. intros x Hx.
  assert (Sequence x ∈ seqZ 0 (nextSequence (orderer sys))) as Hin.
  { rewrite <- Hseq. apply list_elem_of_fmap. by exists x. }
  apply elem_of_seqZ in Hin. lia.
Qed.

(** X15 (no lost wake-up).  Every [Push] is followed by a signal, so the
    worker never sleeps on a dispatchable queue: in every reachable state,
    if the wrapper at the head of the queue carries [nextSequence], then a
    signal is buffered in [trySendCh] or a producer is about to send one.
    Hence, once every signal is handled, a queued wrapper carries
    [nextSequence] only if a wrapper with a smaller sequence number is
    queued too. *)
Theorem no_lost_wakeup trace :
  Z.of_nat (length (pushed trace)) ≤ max_int →
  ∃ sys,
    exec NewSystem trace = Returns sys ∧
    (∀ first,
       queue (orderer sys) !! 0%nat = Some first →
       Sequence first = nextSequence (orderer sys) →
       (0 < trySendCh (orderer sys) + signalling sys)%nat) ∧
    (signalling sys = 0%nat → trySendCh (orderer sys) = 0%nat →
     ∀ x, x ∈ queue (orderer sys) → Sequence x ≠ nextSequence (orderer sys)
          ∨ ∃ y, y ∈ queue (orderer sys) ∧
                 Sequence y < nextSequence (orderer sys)).
Proof.
  intros Hlim.
  destruct (endorser_facts.exec_inv trace [] NewSystem
              endorser_facts.po_inv_new Hlim)
    as (sys & Hexec & [Hheap Hperm Hseq Hnext Hsig] & _ & _).
  exists sys. split_and!; [done | |].
  - intros first Hfirst Hdisp. destruct Hsig as [Hpos|Hgap]; [done|].
    by destruct (Hgap first Hfirst).
  - intros Hs Ht x Hx. destruct Hsig as [Hpos|Hgap]; [lia|].
    destruct (queue (orderer sys)) as [|r rest] eqn:Hq;
      [by apply elem_of_nil in Hx|].
    apply list_elem_of_lookup in Hx as [k Hk].
    pose proof (endorser_facts.is_heap_root (r :: rest) r Hheap eq_refl k x Hk)
      as Hle.
    pose proof (Hgap r eq_refl) as Hne.
    destruct (decide (Sequence x = nextSequence (orderer sys))) as [Heq|];
      [|by left].
    right. exists r. split; [left | lia].
Qed.

End DispatcherExtras.

(** * Properties of the [ConnectionHandler] fake *)

Section FakeFacts.

Import mock.

Context {ChaincodeServerInfo StreamHandler error : Type}.

Local Abbreviation Fake :=
  (ConnectionHandler ChaincodeServerInfo StreamHandler error).
Local Abbreviation Args := (streamArgs ChaincodeServerInfo StreamHandler).

Implicit Types (fake : Fake) (args : list Args).
Implicit Types (calls : list (call ChaincodeServerInfo StreamHandler error)).

Lemma perform_all_cons fake c calls :
  perform_all fake (c :: calls) =
  ((perform fake c).1 ++ (perform_all (perform fake c).2 calls).1,
   (perform_all (perform fake c).2 calls).2).
Proof.
  simpl. destruct (perform fake c) as [r fake1]. simpl.
  by destruct (perform_all fake1 calls).
Qed.

Lemma Stream_args fake a1 a2 a3 :
  streamArgsForCall (Stream fake a1 a2 a3).2
  = streamArgsForCall fake ++ [mkStreamArgs a1 a2 a3].
Proof.
  unfold Stream. simpl.
  destruct (StreamStub fake); [done|].
  by destruct (match streamReturnsOnCall fake with
               | Some table => _ | None => None end).
Qed.

Lemma perform_args fake c :
  streamArgsForCall (perform fake c).2
  = streamArgsForCall fake ++ stream_calls [c].
Proof.
  destruct c as [a1 a2 a3|stub|r|i r]; simpl;
    try by rewrite app_nil_r.
  pose proof (Stream_args fake a1 a2 a3) as H.
  by destruct (Stream fake a1 a2 a3).
Qed.

Lemma stream_calls_cons c calls :
  stream_calls (c :: calls) = stream_calls [c] ++ stream_calls calls.
Proof. unfold stream_calls. by rewrite <- omap_app. Qed.

Lemma perform_all_args calls : ∀ fake,
  streamArgsForCall (perform_all fake calls).2
  = streamArgsForCall fake ++ stream_calls calls.
Proof.
  induction calls as [|c calls IH]; intros fake.
  - simpl. by rewrite app_nil_r.
  - rewrite perform_all_cons. simpl snd. rewrite IH, perform_args.
    by rewrite (stream_calls_cons c calls), app_assoc.
Qed.

Lemma perform_all_results calls : ∀ fake,
  length (perform_all fake calls).1 = length (stream_calls calls).
Proof.
  induction calls as [|c calls IH]; intros fake; [done|].
  rewrite perform_all_cons, (stream_calls_cons c calls). simpl fst.
  rewrite !length_app, IH. f_equal.
  destruct c as [a1 a2 a3|stub|r|i r]; simpl; try done.
  by destruct (Stream fake a1 a2 a3).
Qed.

(** X16 (recorded calls).  The fake records every [Stream] call, whatever
    else is configured in between: after any list of calls on a fresh fake,
    [StreamCallCount] is the number of [Stream] calls made,
    [StreamArgsForCall i] returns the arguments of the i-th of them
    (counting from 0) and panics for an index that is negative or not below
    the count; [Stream] has returned once per call. *)
Theorem fake_records_calls calls :
  let fake := (perform_all zero calls).2 in
  StreamCallCount fake = Z.of_nat (length (stream_calls calls)) ∧
  length (perform_all (@zero _ _ error) calls).1
    = length (stream_calls calls) ∧
  (∀ (i : nat) a,
     stream_calls calls !! i = Some a →
     StreamArgsForCall fake (Z.of_nat i) = Returns (arg1 a, arg2 a, arg3 a)) ∧
  (∀ i : Z,
     i < 0 ∨ Z.of_nat (length (stream_calls calls)) ≤ i →
     StreamArgsForCall fake i = Panics).
Proof.
  intros fake.
  assert (streamArgsForCall fake = stream_calls calls) as Hargs
    by (unfold fake; by rewrite perform_all_args).
  split_and!.
  - unfold StreamCallCount. by rewrite Hargs.
  - apply perform_all_results.
  - intros i a Hi. unfold StreamArgsForCall.
    rewrite bool_decide_eq_true_2 by lia.
    by rewrite Nat2Z.id, Hargs, Hi.
  - intros i Hi. unfold StreamArgsForCall.
    case_bool_decide; [|done]. rewrite Hargs.
    rewrite lookup_ge_None_2; [done | lia].
Qed.

Lemma Stream_invocations fake a1 a2 a3 :
  invocations (Stream fake a1 a2 a3).2
  = Some (<["Stream"%string :=
              default [] (default ∅ (invocations fake) !! "Stream"%string)
              ++ [box_args (mkStreamArgs a1 a2 a3)]]>
            (default ∅ (invocations fake))).
Proof.
  unfold Stream. simpl.
  destruct (StreamStub fake); [done|].
  by destruct (match streamReturnsOnCall fake with
               | Some table => _ | None => None end).
Qed.

Lemma perform_all_invocations calls : ∀ fake,
  Invocations (perform_all fake calls).2 =
  match stream_calls calls with
  | [] => Invocations fake
  | _ =>
      <["Stream"%string :=
          default [] (Invocations fake !! "Stream"%string)
          ++ (box_args <$> stream_calls calls)]> (Invocations fake)
  end.
Proof.
  induction calls as [|c calls IH]; intros fake; [done|].
  rewrite perform_all_cons. simpl snd. rewrite IH.
  rewrite (stream_calls_cons c calls).
  destruct c as [a1 a2 a3|stub|r|i r]; try done.
  simpl perform. pose proof (Stream_invocations fake a1 a2 a3) as Hinv.
  destruct (Stream fake a1 a2 a3) as [r fake1]. simpl in Hinv. simpl snd.
  unfold Invocations at 1 2 3 4. rewrite Hinv.
  change (default ∅ (invocations fake)) with (Invocations fake).
  simpl default. simpl stream_calls at 2 3.
  change (stream_calls [CallStream a1 a2 a3])
    with [mkStreamArgs a1 a2 a3 : Args].
  destruct (stream_calls calls) as [|a' rest] eqn:Hrest.
  - done.
  - rewrite lookup_insert_eq. simpl default.
    rewrite insert_insert_eq. f_equal.
    rewrite fmap_app, <- app_assoc. done.
Qed.

(** X17 ([Invocations]).  [Invocations] lists exactly the [Stream] calls:
    after any list of calls on a fresh fake it has no key but "Stream",
    under which it holds the boxed arguments of every [Stream] call, in call
    order; without any [Stream] call it is empty. *)
Theorem fake_invocations calls (key : string) :
  Invocations (perform_all (@zero ChaincodeServerInfo StreamHandler error)
                 calls).2 !! key =
  if bool_decide (key = "Stream"%string ∧ stream_calls calls ≠ [])
  then Some (box_args <$> stream_calls calls)
  else None.
Proof.
  rewrite perform_all_invocations.
  destruct (stream_calls calls) as [|a rest] eqn:Hcalls.
  - rewrite bool_decide_eq_false_2 by (by intros [_ ?]).
    apply lookup_empty.
  - destruct (decide (key = "Stream"%string)) as [->|Hne].
    + rewrite bool_decide_eq_true_2 by done.
      by rewrite lookup_insert_eq.
    + rewrite bool_decide_eq_false_2 by (by intros [? _]).
      rewrite lookup_insert_ne by done. apply lookup_empty.
Qed.

Lemma Stream_config fake a1 a2 a3 :
  StreamStub (Stream fake a1 a2 a3).2 = StreamStub fake ∧
  streamReturns (Stream fake a1 a2 a3).2 = streamReturns fake ∧
  streamReturnsOnCall (Stream fake a1 a2 a3).2 = streamReturnsOnCall fake.
Proof.
  unfold Stream. simpl.
  destruct (StreamStub fake); [done|].
  by destruct (match streamReturnsOnCall fake with
               | Some table => _ | None => None end).
Qed.

Lemma Stream_result fake a1 a2 a3 :
  (Stream fake a1 a2 a3).1 =
  match StreamStub fake with
  | Some stub => stub a1 a2 a3
  | None =>
      default (streamReturns fake)
        (default ∅ (streamReturnsOnCall fake)
           !! Z.of_nat (length (streamArgsForCall fake)))
  end.
Proof.
  unfold Stream. simpl.
  destruct (StreamStub fake); [done|].
  destruct (streamReturnsOnCall fake) as [table|]; simpl.
  - by destruct (table !! _).
  - by rewrite lookup_empty.
Qed.

(** X18 (answers of [Stream]).  How [Stream] answers a run of calls.  With a
    stub installed every call returns what the stub returns on its
    arguments.  Without one, a call returns the entry that
    [StreamReturnsOnCall] filed under its index (counted over all [Stream]
    calls since the fake was made) when there is one, and the value set by
    [StreamReturns] otherwise. *)
Theorem stream_answers fake args :
  (perform_all fake (streams args)).1 =
  match StreamStub fake with
  | Some stub => (λ a, stub (arg1 a) (arg2 a) (arg3 a)) <$> args
  | None =>
      imap (λ j _,
              default (streamReturns fake)
                (default ∅ (streamReturnsOnCall fake)
                   !! Z.of_nat (length (streamArgsForCall fake) + j)))
           args
  end.
Proof.
  revert fake. induction args as [|a args IH]; intros fake.
  - simpl. by destruct (StreamStub fake).
  - change (streams (a :: args))
      with (CallStream (arg1 a) (arg2 a) (arg3 a)
              :: @streams _ _ error args).
    rewrite perform_all_cons. simpl fst. simpl perform.
    pose proof (Stream_result fake (arg1 a) (arg2 a) (arg3 a)) as Hres.
    pose proof (Stream_config fake (arg1 a) (arg2 a) (arg3 a))
      as (Hstub & Hret & Htab).
    pose proof (Stream_args fake (arg1 a) (arg2 a) (arg3 a)) as Hargs.
    destruct (Stream fake (arg1 a) (arg2 a) (arg3 a)) as [r fake1].
    simpl in *. rewrite IH, Hstub, Hret, Htab, Hargs, Hres.
    destruct (StreamStub fake) as [stub|]; [done|].
    rewrite Nat.add_0_r. f_equal.
    apply imap_ext. intros j x Hx. simpl.
    rewrite length_app. simpl. do 3 f_equal. lia.
Qed.

End FakeFacts.

(** * Properties of the session store *)

Section DBFacts.

Import txmgr.

Context {VersionedValue : Type}.
Implicit Types (vdb : VisibleDB VersionedValue).
Implicit Types (writes : list (string * option VersionedValue * string)).

Lemma write_all_sessions writes : ∀ vdb key,
  (∀ k sdb, sessions vdb !! k = Some sdb → ∃ v, data sdb = {[k := v]}) →
  sessions (write_all vdb writes) !! key =
  match last_write writes key None with
  | Some v => Some (mkSessionDB {[key := v]})
  | None => sessions vdb !! key
  end ∧
  (∀ w, last_write writes key (Some w) =
        Some (default w (last_write writes key None))).
Proof.
  induction writes as [|[[k v] sess] writes IH]; intros vdb key Hshape.
  - done.
  - simpl.
    destruct (IH (VisibleDB_Set vdb k v sess) key) as [Hs Hl].
    { intros k' sdb. unfold VisibleDB_Set. simpl.
      rewrite lookup_insert. case_decide as Hk.
      - intros [= <-]. subst k'. unfold SessionDB_Set. simpl.
        destruct (sessions vdb !! k) as [sdb0|] eqn:Hk0.
        + destruct (Hshape k sdb0 Hk0) as [v0 ->].
          exists v. by rewrite insert_singleton_eq.
        + exists v. simpl. by rewrite insert_empty.
      - apply Hshape. }
    unfold write_all in *. simpl foldl. rewrite Hs. split.
    + case_bool_decide as Hk.
      * subst k. rewrite Hl. simpl.
        destruct (last_write writes key None) as [v'|]; [done|]. simpl.
        unfold VisibleDB_Set. simpl. rewrite lookup_insert_eq.
        unfold SessionDB_Set. simpl. f_equal. f_equal.
        destruct (sessions vdb !! key) as [sdb0|] eqn:Hk0.
        -- destruct (Hshape key sdb0 Hk0) as [v0 ->].
           by rewrite insert_singleton_eq.
        -- simpl. by rewrite insert_empty.
      * destruct (last_write writes key None) as [v'|]; [done|].
        unfold VisibleDB_Set. simpl. by rewrite lookup_insert_ne.
    + intros w. case_bool_decide; [|apply Hl].
      rewrite !Hl. done.
Qed.

(** X19 (one [SessionDB] per key).  The store after any list of writes to a
    fresh [VisibleDB]: there is one [SessionDB] per key written, filed under
    the key (not under the session), and it holds one entry, the value of
    the last write to that key. *)
Theorem sessions_are_per_key writes (key : string) :
  sessions (write_all (@NewVisibleDB VersionedValue) writes) !! key =
  (λ v, mkSessionDB {[key := v]}) <$> last_write writes key None.
Proof.
  destruct (write_all_sessions writes NewVisibleDB key) as [Hs _].
  { intros k sdb Hk. simpl in Hk. by rewrite lookup_empty in Hk. }
  rewrite Hs. by destruct (last_write writes key None).
Qed.

(** X20 (no isolation).  [Get] ignores the session: after any list of writes
    to a fresh [VisibleDB], reading a key in any session returns the value
    of the last write to that key in whichever session; nil when the key was
    never written. *)
Theorem sessions_do_not_isolate writes (key session : string) :
  VisibleDB_Get (write_all (@NewVisibleDB VersionedValue) writes) key session
  = default None (last_write writes key None).
Proof.
  unfold VisibleDB_Get.
  destruct (write_all_sessions writes NewVisibleDB key) as [Hs _].
  { intros k sdb Hk. simpl in Hk. by rewrite lookup_empty in Hk. }
  rewrite Hs. destruct (last_write writes key None) as [v|]; simpl.
  - unfold SessionDB_Get. simpl. by rewrite lookup_singleton_eq.
  - by rewrite lookup_empty.
Qed.

End DBFacts.

(** * Properties of the external builder's helpers *)

Section BuilderFacts.

Import externalbuilder.

Lemma contains_elem_of (l : list string) (key : string) :
  contains l key = bool_decide (key ∈ l).
Proof.
  induction l as [|v l IH].
  - symmetry. apply bool_decide_eq_false_2, not_elem_of_nil.
  - cbn [contains]. destruct (decide (key = v)) as [->|Hne].
    + rewrite (bool_decide_eq_true_2 (v = v)) by done.
      symmetry. apply bool_decide_eq_true_2. left.
    + rewrite (bool_decide_eq_false_2 (key = v)) by done. rewrite IH.
      apply bool_decide_ext. rewrite elem_of_cons. intuition.
Qed.

Lemma filter_ext_in (P Q : string → Prop)
    `{!∀ x, Decision (P x), !∀ x, Decision (Q x)} (l : list string) :
  (∀ x, x ∈ l → P x ↔ Q x) → filter P l = filter Q l.
Proof.
  induction l as [|x l IH]; intros Hext; [done|].
  rewrite !filter_cons.
  assert (P x ↔ Q x) as Hx by (apply Hext; left).
  rewrite IH by (intros y Hy; apply Hext; by right).
  destruct (decide (P x)), (decide (Q x)); tauto || done.
Qed.

Lemma filter_none (P : string → Prop) `{!∀ x, Decision (P x)}
    (l : list string) :
  Forall (λ x, ¬ P x) l → filter P l = [].
Proof.
  induction 1 as [|x l Hx Hl IH]; [done|].
  rewrite filter_cons. by rewrite decide_False.
Qed.

Lemma append_missing (defaults : list string) : ∀ pe : list string,
  NoDup defaults →
  foldl (λ pe variable, if contains pe variable then pe else pe ++ [variable])
        pe defaults
  = pe ++ filter (λ v, v ∉ pe) defaults.
Proof.
  induction defaults as [|d ds IH]; intros pe Hnd.
  - simpl. by rewrite app_nil_r.
  - apply NoDup_cons in Hnd as [Hd Hnd]. simpl foldl.
    rewrite IH by done. rewrite contains_elem_of.
    rewrite filter_cons. case_bool_decide as Hin.
    + by rewrite decide_False by (by intros ?).
    + rewrite decide_True by done. rewrite <- app_assoc. simpl. do 2 f_equal.
      apply filter_ext_in. intros v Hv.
      rewrite elem_of_app, list_elem_of_singleton. split.
      * intros H ?. apply H. by left.
      * intros H [?| ->]; done.
Qed.

Lemma DefaultPropagateEnvironment_NoDup : NoDup DefaultPropagateEnvironment.
Proof. by apply (bool_decide_unpack _); vm_compute. Qed.

Lemma appendDefault_elem_of (pe : list string) (v : string) :
  v ∈ appendDefaultPropagateEnvironment pe ↔
  v ∈ pe ∨ v ∈ DefaultPropagateEnvironment.
Proof.
  unfold appendDefaultPropagateEnvironment.
  rewrite append_missing by apply DefaultPropagateEnvironment_NoDup.
  rewrite elem_of_app, list_elem_of_filter.
  destruct (decide (v ∈ pe)); intuition.
Qed.

(** X21 (default variables).  [appendDefaultPropagateEnvironment] keeps the
    configured list as it is and appends, in their own order, the default
    variables that the list does not name.  Hence every default variable is
    in the result, nothing else is added, a default already named is not
    added a second time, and appending the defaults twice changes nothing. *)
Theorem appendDefaultPropagateEnvironment_spec (pe : list string) :
  appendDefaultPropagateEnvironment pe
    = pe ++ filter (λ v, v ∉ pe) DefaultPropagateEnvironment ∧
  (∀ v, v ∈ appendDefaultPropagateEnvironment pe ↔
        v ∈ pe ∨ v ∈ DefaultPropagateEnvironment) ∧
  (NoDup pe → NoDup (appendDefaultPropagateEnvironment pe)) ∧
  appendDefaultPropagateEnvironment (appendDefaultPropagateEnvironment pe)
    = appendDefaultPropagateEnvironment pe.
Proof.
  assert (∀ pe, appendDefaultPropagateEnvironment pe
                = pe ++ filter (λ v, v ∉ pe) DefaultPropagateEnvironment)
    as Heq.
  { intros l. apply append_missing, DefaultPropagateEnvironment_NoDup. }
  pose proof appendDefault_elem_of as Hin.
  split_and!; [apply Heq | apply Hin | |].
  - intros Hnd. rewrite Heq. apply NoDup_app. split_and!; [done | |].
    + intros v Hv Hv'. by apply list_elem_of_filter in Hv' as [? _].
    + apply NoDup_filter, DefaultPropagateEnvironment_NoDup.
  - rewrite (Heq (appendDefaultPropagateEnvironment pe)).
    rewrite filter_none; [by rewrite app_nil_r|].
    apply Forall_forall. intros v Hv Hnot. apply Hnot, Hin. by right.
Qed.

Lemma env_loop (LookupEnv : string → option string) (l : list string) :
  ∀ env : list string,
  foldl (λ env key,
           match LookupEnv key with
           | Some val => env ++ [String.append key (String.append "=" val)]
           | None => env
           end) env l
  = env ++ omap (λ key, (λ val, String.append key (String.append "=" val))
                          <$> LookupEnv key) l.
Proof.
  induction l as [|key l IH]; intros env; simpl.
  - by rewrite app_nil_r.
  - rewrite IH. destruct (LookupEnv key) as [val|]; simpl; [|done].
    by rewrite <- app_assoc.
Qed.

(** X22 ([NewCommand]).  The [Env] field [NewCommand] fills in: every entry
    is [key=value] for a variable that is set in the calling environment and
    is named by the builder's [PropagateEnvironment] or is one of the four
    defaults, and every such variable has its entry; the field is left empty
    exactly when none of them is set.  The command's arguments are the name
    followed by the arguments given. *)
Theorem NewCommand_environment (LookupEnv : string → option string)
    (b : Builder) (name : string) (args : list string) :
  let cmd := NewCommand LookupEnv b name args in
  Args cmd = name :: args ∧
  (∀ e, e ∈ Env cmd ↔
        ∃ key val,
          e = String.append key (String.append "=" val) ∧
          LookupEnv key = Some val ∧
          (key ∈ PropagateEnvironment b ∨ key ∈ DefaultPropagateEnvironment)) ∧
  (Env cmd = [] ↔
   ∀ key, key ∈ PropagateEnvironment b ∨ key ∈ DefaultPropagateEnvironment →
          LookupEnv key = None).
Proof.
  intros cmd.
  assert (∀ e, e ∈ Env cmd ↔
               ∃ key val,
                 e = String.append key (String.append "=" val) ∧
                 LookupEnv key = Some val ∧
                 (key ∈ PropagateEnvironment b ∨
                  key ∈ DefaultPropagateEnvironment)) as Hin.
  { intros e. unfold cmd, NewCommand. simpl.
    rewrite env_loop. simpl. rewrite list_elem_of_omap. split.
    - intros (key & Hkey & He).
      destruct (LookupEnv key) as [val|] eqn:Hval; [|done].
      injection He as <-. exists key, val. split_and!; [done | done |].
      by apply appendDefault_elem_of.
    - intros (key & val & -> & Hval & Hkey). exists key. split.
      + by apply appendDefault_elem_of.
      + by rewrite Hval. }
  split_and!; [done | done |]. split.
  - intros Hnil key Hkey.
    destruct (LookupEnv key) as [val|] eqn:Hval; [|done].
    assert (String.append key (String.append "=" val) ∈ Env cmd) as He
      by (apply Hin; by exists key, val).
    rewrite Hnil in He. by apply elem_of_nil in He.
  - intros Hnone. destruct (Env cmd) as [|e rest] eqn:Henv; [done|].
    assert (e ∈ e :: rest) as He by left.
    apply Hin in He as (key & val & _ & Hval & Hkey).
    rewrite (Hnone key Hkey) in Hval. done.
Qed.

(** X23 ([SanitizeCCIDPath]).  [SanitizeCCIDPath] replaces character by
    character: the result has the length of the identifier, holds none of
    the characters of the class (in particular neither slash nor backslash),
    keeps every other character in place, is the identifier itself when that
    holds none of them, and sanitising twice is sanitising once. *)
Theorem SanitizeCCIDPath_spec (ccid : string) :
  String.length (SanitizeCCIDPath ccid) = String.length ccid ∧
  Forall (λ c, c ∉ pkgIDreg_class) (chars (SanitizeCCIDPath ccid)) ∧
  (∀ (i : nat) c, String.get i ccid = Some c →
     String.get i (SanitizeCCIDPath ccid)
     = Some (if bool_decide (c ∈ pkgIDreg_class) then "-"%char else c)) ∧
  (Forall (λ c, c ∉ pkgIDreg_class) (chars ccid) →
   SanitizeCCIDPath ccid = ccid) ∧
  SanitizeCCIDPath (SanitizeCCIDPath ccid) = SanitizeCCIDPath ccid.
Proof.
  assert ("-"%char ∉ pkgIDreg_class) as Hdash
    by (by apply (bool_decide_unpack _); vm_compute).
  assert (∀ t, Forall (λ c, c ∉ pkgIDreg_class) (chars (SanitizeCCIDPath t)))
    as Hclean.
  { induction t as [|c t IH]; simpl; [done|].
    constructor; [|done]. unfold pkgIDreg_match. by case_bool_decide. }
  assert (∀ t, Forall (λ c, c ∉ pkgIDreg_class) (chars t) →
               SanitizeCCIDPath t = t) as Hfix.
  { induction t as [|c t IH]; simpl; [done|].
    intros Ht. apply Forall_cons in Ht as [Hc Ht].
    unfold pkgIDreg_match. rewrite bool_decide_eq_false_2 by done.
    by rewrite IH. }
  split_and!.
  - induction ccid as [|c t IH]; simpl; [done | by rewrite IH].
  - apply Hclean.
  - induction ccid as [|c t IH]; intros i c'; [done|].
    destruct i as [|i]; simpl.
    + by intros [= ->].
    + apply IH.
  - apply Hfix.
  - apply Hfix, Hclean.
Qed.

End BuilderFacts.

(** * The further properties at concrete inputs *)

(** Sequences 1 and 2 arrive, sequence 0 does not. *)
Lemma gap_blocks_release_witness :
  let bs := Sample.limits 10 1 in
  let inputs := [Sample.item "b" 30 "1" bs; Sample.item "c" 30 "2" bs] in
  let s := @NewScheduler Sample.envelope in
  Forall (λ i, sequence_of Sample.parse i ≠ nextSequence s) inputs ∧
  ∃ s',
    run Sample.size Sample.parse s inputs = Returns ([], s') ∧
    startSequence s' = startSequence s ∧
    nextSequence s' = nextSequence s ∧
    batchSize s' = batchSize s ∧
    envelopes s' =
      foldl (λ envs i, <[sequence_of Sample.parse i := i.1.1]> envs)
            (envelopes s) inputs.
Proof.
  intros bs inputs s.
  assert (Forall (λ i, sequence_of Sample.parse i ≠ nextSequence s) inputs)
    as H1
    by (repeat (apply Forall_cons_2; [by vm_compute|]); apply Forall_nil_2).
  split; [done|].
  exact (gap_blocks_release Sample.size Sample.parse s inputs H1).
Defined.

(** Five envelopes of 30 bytes arriving as 1, 0, 3, 2, 4 under
    [PreferredMaxBytes = 100] and [MaxMessageCount = 2]. *)
Lemma batches_proper_witness :
  let bs := Sample.limits 100 2 in
  let inputs := [Sample.item "b" 30 "1" bs; Sample.item "a" 30 "0" bs;
                 Sample.item "d" 30 "3" bs; Sample.item "c" 30 "2" bs;
                 Sample.item "e" 30 "4" bs] in
  Forall (λ i, sequence_of Sample.parse i < max_int) inputs ∧
  match run Sample.size Sample.parse NewScheduler inputs with
  | Returns (batches, s') =>
      Forall (λ b, b ≠ [] ∧ Forall is_Some b) batches
  | Panics => ∃ i, i ∈ inputs ∧ MaxMessageCount i.2 ≤ 0
  | OutOfFuel => False
  end.
Proof.
  intros bs inputs.
  assert (Forall (λ i, sequence_of Sample.parse i < max_int) inputs) as H1
    by (repeat (apply Forall_cons_2; [by vm_compute|]); apply Forall_nil_2).
  split; [done|].
  exact (batches_proper Sample.size Sample.parse inputs H1).
Defined.

(** Three envelopes of 40 bytes arriving as 2, 0, 1 under
    [PreferredMaxBytes = 100]. *)
Lemma accumulator_below_preferred_witness :
  let bs := Sample.limits 100 10 in
  let inputs := [Sample.item "c" 40 "2" bs; Sample.item "a" 40 "0" bs;
                 Sample.item "b" 40 "1" bs] in
  (1 ≤ MaxMessageCount bs < 2 ^ 32) ∧
  Forall (λ i, i.2 = bs ∧ sequence_of Sample.parse i < max_int) inputs ∧
  ∃ batches s,
    run Sample.size Sample.parse NewScheduler inputs = Returns (batches, s) ∧
    (batchSize s = 0 ∨ batchSize s < PreferredMaxBytes bs).
Proof.
  intros bs inputs.
  assert (1 ≤ MaxMessageCount bs < 2 ^ 32) as H1 by (by vm_compute).
  assert (Forall (λ i, i.2 = bs ∧ sequence_of Sample.parse i < max_int) inputs)
    as H2
    by (repeat (apply Forall_cons_2; [by vm_compute|]); apply Forall_nil_2).
  split; [done|]. split; [done|].
  exact (accumulator_below_preferred Sample.size Sample.parse bs inputs H1 H2).
Defined.

(** Sequences 0 and 1 were cut; sequence 0 is scheduled once more. *)
Lemma stale_envelope_stays_witness :
  let bs := Sample.limits 100 10 in
  let s := mkScheduler (∅ : gmap Z Sample.envelope) 2 2 0 in
  let msg := Sample.mkEnvelope "late" 5 in
  let later := [Sample.item "c" 30 "2" bs; Sample.item "d" 80 "3" bs] in
  let s1 := set_envelopes s (<[(Sample.parse "0").1 := msg]> (envelopes s)) in
  wf s ∧
  (Sample.parse "0").1 < startSequence s ∧
  Forall (λ i, sequence_of Sample.parse i < max_int) later ∧
  ((Sample.parse "0").1 ∉ sequence_of Sample.parse <$> later) ∧
  Schedule Sample.size Sample.parse s msg "0" bs = Returns ([], true, s1) ∧
  match run Sample.size Sample.parse s1 later with
  | Returns (batches, s') =>
      envelopes s' !! (Sample.parse "0").1 = Some msg ∧
      (0 < size (envelopes s'))%nat
  | Panics => ∃ i, i ∈ later ∧ MaxMessageCount i.2 ≤ 0
  | OutOfFuel => False
  end.
Proof.
  intros bs s msg later s1.
  assert (wf s) as H1.
  { split; [by vm_compute | by vm_compute | by vm_compute | |].
    - intros k [x Hx]. simpl in Hx. by rewrite lookup_empty in Hx.
    - intros k Hk. simpl in Hk. lia. }
  assert ((Sample.parse "0").1 < startSequence s) as H2 by (by vm_compute).
  assert (Forall (λ i, sequence_of Sample.parse i < max_int) later) as H3
    by (repeat (apply Forall_cons_2; [by vm_compute|]); apply Forall_nil_2).
  assert ((Sample.parse "0").1 ∉ sequence_of Sample.parse <$> later) as H4
    by (by apply (bool_decide_unpack _); vm_compute).
  split; [done|]. split; [done|]. split; [done|]. split; [done|].
  exact (stale_envelope_stays Sample.size Sample.parse s msg "0" bs later
           H1 H2 H3 H4).
Defined.

(** Sequence 0 (30 bytes) is accumulated and sequence 1 (30 bytes) is
    released under [PreferredMaxBytes = 50]: the accumulated envelope is
    cut and the released one starts the next batch. *)
Lemma overflow_cut_witness :
  let bs := Sample.limits 50 10 in
  let a := Sample.mkEnvelope "a" 30 in
  let b := Sample.mkEnvelope "b" 30 in
  let s := mkScheduler (<[ 0 := a ]> (<[ 1 := b ]> ∅)) 0 1 30 in
  wf s ∧
  envelopes s !! nextSequence s = Some b ∧
  wrap_uint32 (batchSize s + Sample.size b) > PreferredMaxBytes bs ∧
  2 ≤ MaxMessageCount bs ∧
  startSequence s < nextSequence s ∧
  Sample.size b < PreferredMaxBytes bs ∧
  ∃ s',
    release_one Sample.size b bs [] s
      = Returns
          ([] ++ [Some <$> stored (envelopes s) (startSequence s)
                             (nextSequence s)], s') ∧
    batchSize s' = Sample.size b ∧
    startSequence s' = nextSequence s ∧
    nextSequence s' = nextSequence s + 1 ∧
    envelopes s' !! nextSequence s = Some b.
Proof.
  intros bs a b s.
  assert (wf s) as H1.
  { split; [by vm_compute | by vm_compute | by vm_compute | |].
    - intros k [x Hx]. unfold s in Hx. simpl in Hx.
      apply lookup_insert_Some in Hx as [[<- _]|[_ Hx]]; [by vm_compute|].
      apply lookup_insert_Some in Hx as [[<- _]|[_ Hx]]; [by vm_compute|].
      by rewrite lookup_empty in Hx.
    - intros k Hk. simpl in Hk. assert (k = 0) as -> by lia. by eexists. }
  assert (envelopes s !! nextSequence s = Some b) as H2 by (by vm_compute).
  assert (wrap_uint32 (batchSize s + Sample.size b) > PreferredMaxBytes bs)
    as H3 by (by vm_compute).
  assert (2 ≤ MaxMessageCount bs) as H4 by (by vm_compute).
  assert (startSequence s < nextSequence s) as H5 by (by vm_compute).
  assert (Sample.size b < PreferredMaxBytes bs) as H6 by (by vm_compute).
  split; [done|]. split; [done|]. split; [done|]. split; [done|].
  split; [done|]. split; [done|].
  exact (proj2 (proj2 (overflow_cut Sample.size b bs [] s b H1 H2 H3))
           H4 H5 H6).
Defined.


(** A first envelope of exactly [PreferredMaxBytes] bytes under
    [MaxMessageCount = 0]. *)
Lemma zero_count_panics_witness :
  let bs := Sample.limits 30 0 in
  let msg := Sample.mkEnvelope "a" 30 in
  let s := @NewScheduler Sample.envelope in
  (Sample.parse "0").1 = nextSequence s ∧
  nextSequence s < max_int ∧
  MaxMessageCount bs ≤ 0 ∧
  PreferredMaxBytes bs ≤ wrap_uint32 (batchSize s + Sample.size msg) ∧
  (wrap_uint32 (batchSize s + Sample.size msg) = PreferredMaxBytes bs ∨
   startSequence s = nextSequence s ∨
   PreferredMaxBytes bs ≤ Sample.size msg) ∧
  Schedule Sample.size Sample.parse s msg "0" bs = Panics.
Proof.
  intros bs msg s.
  assert ((Sample.parse "0").1 = nextSequence s) as H1 by (by vm_compute).
  assert (nextSequence s < max_int) as H2 by (by vm_compute).
  assert (MaxMessageCount bs ≤ 0) as H3 by (by vm_compute).
  assert (PreferredMaxBytes bs ≤ wrap_uint32 (batchSize s + Sample.size msg))
    as H4 by (by vm_compute).
  assert (wrap_uint32 (batchSize s + Sample.size msg) = PreferredMaxBytes bs ∨
          startSequence s = nextSequence s ∨
          PreferredMaxBytes bs ≤ Sample.size msg) as H5
    by (left; by vm_compute).
  split; [done|]. split; [done|]. split; [done|]. split; [done|].
  split; [done|].
  exact (zero_count_panics Sample.size Sample.parse s msg "0" bs
           wf_new H1 H2 H3 H4 H5).
Defined.

(** Scenario A of the specification fed in order, followed by a fifth
    envelope. *)
Lemma inorder_bookkeeping_witness :
  let bs := Sample.limits 100 10 in
  let inputs := [Sample.item "a" 30 "0" bs; Sample.item "b" 30 "1" bs;
                 Sample.item "c" 30 "2" bs; Sample.item "d" 30 "3" bs] in
  let msg := Sample.mkEnvelope "e" 70 in
  (0 ≤ PreferredMaxBytes bs) ∧
  Forall (λ i, i.2 = bs ∧ 0 ≤ Sample.size i.1.1 ∧
               PreferredMaxBytes bs + Sample.size i.1.1 < 2 ^ 32)
         (inputs ++ [(msg, "4"%string, bs)]) ∧
  sequence_of Sample.parse <$> inputs ++ [(msg, "4"%string, bs)]
    = seqZ 0 (Z.of_nat (length inputs) + 1) ∧
  Z.of_nat (length inputs) < max_int ∧
  match run Sample.size Sample.parse NewScheduler inputs with
  | Returns (batches, s) =>
      (∀ k, is_Some (envelopes s !! k) ↔
            startSequence s ≤ k < nextSequence s) ∧
      batchSize s =
        batch_bytes Sample.size
          (range_items (envelopes s) (startSequence s) (nextSequence s)) ∧
      match Schedule Sample.size Sample.parse s msg "4" bs with
      | Returns (new, pending, s') =>
          pending = bool_decide (startSequence s' < nextSequence s') ∧
          (pending = false ↔ envelopes s' = ∅)
      | Panics => MaxMessageCount bs ≤ 0
      | OutOfFuel => False
      end
  | Panics => MaxMessageCount bs ≤ 0
  | OutOfFuel => False
  end.
Proof.
  intros bs inputs msg.
  assert (0 ≤ PreferredMaxBytes bs) as H1 by (by vm_compute).
  assert (Forall (λ i, i.2 = bs ∧ 0 ≤ Sample.size i.1.1 ∧
                       PreferredMaxBytes bs + Sample.size i.1.1 < 2 ^ 32)
                 (inputs ++ [(msg, "4"%string, bs)])) as H2
    by (repeat (apply Forall_cons_2; [by vm_compute|]); apply Forall_nil_2).
  assert (sequence_of Sample.parse <$> inputs ++ [(msg, "4"%string, bs)]
          = seqZ 0 (Z.of_nat (length inputs) + 1)) as H3 by (by vm_compute).
  assert (Z.of_nat (length inputs) < max_int) as H4 by (by vm_compute).
  split; [done|]. split; [done|]. split; [done|]. split; [done|].
  exact (inorder_bookkeeping Sample.size Sample.parse bs inputs msg "4"
           H1 H2 H3 H4).
Defined.

(** A heap holding the sequence numbers 1, 3, 2, onto which 0 is pushed and
    from which the smallest is popped. *)
Lemma heap_Push_keeps_heap_witness :
  let w (k : Z) : endorser.UnpackedProposalWrapper string unit :=
    endorser.mkWrapper "proposal"%string k None None in
  let h := [w 1; w 3; w 2] in
  endorser.is_heap h ∧
  ∃ h', endorser.heap_Push h (w 0) = Returns h' ∧
        endorser.is_heap h' ∧ h' ≡ₚ w 0 :: h ∧
        ∃ r, h' !! 0%nat = Some r ∧
             Forall (λ y, endorser.Sequence r ≤ endorser.Sequence y)
                    (w 0 :: h).
Proof.
  intros w h.
  assert (endorser.is_heap h) as H1.
  { intros c x y Hc Hx Hy.
    destruct c as [|[|[|c]]]; simpl in *; simplify_eq; simpl; lia. }
  split; [done|].
  exact (heap_Push_keeps_heap h (w 0) H1).
Defined.

Lemma heap_Pop_minimum_witness :
  let w (k : Z) : endorser.UnpackedProposalWrapper string unit :=
    endorser.mkWrapper "proposal"%string k None None in
  let h := [w 1; w 3; w 2] in
  endorser.is_heap h ∧
  ∃ h', endorser.heap_Pop h = Returns (w 1, h') ∧
        endorser.is_heap h' ∧ h ≡ₚ w 1 :: h' ∧
        Forall (λ y, endorser.Sequence (w 1) ≤ endorser.Sequence y) h.
Proof.
  intros w h.
  assert (endorser.is_heap h) as H1.
  { intros c x y Hc Hx Hy.
    destruct c as [|[|[|c]]]; simpl in *; simplify_eq; simpl; lia. }
  split; [done|].
  exact (heap_Pop_minimum h H1).
Defined.

(** Wrappers pushed as 1, 0, 0, 3 (a repeated and a missing number), with
    signals, worker passes and receptions in between. *)
Lemma dispatch_safety_witness :
  let w (k : Z) : endorser.UnpackedProposalWrapper string unit :=
    endorser.mkWrapper "proposal"%string k None None in
  let trace := [endorser.EvPush (w 1); endorser.EvPush (w 0);
                endorser.EvSignal; endorser.EvWorker; endorser.EvPop;
                endorser.EvPush (w 0); endorser.EvSignal; endorser.EvSignal;
                endorser.EvPush (w 3); endorser.EvWorker; endorser.EvWorker;
                endorser.EvPop] in
  Z.of_nat (length (endorser.pushed trace)) ≤ max_int ∧
  ∃ sys,
    endorser.exec endorser.NewSystem trace = Returns sys ∧
    endorser.Sequence <$> endorser.dispatched sys
      = seqZ 0 (endorser.nextSequence (endorser.orderer sys)) ∧
    endorser.Sequence <$> endorser.received sys
      = seqZ 0 (Z.of_nat (length (endorser.received sys))) ∧
    endorser.dispatched sys ++ endorser.queue (endorser.orderer sys)
      ≡ₚ endorser.pushed trace ∧
    endorser.is_heap (endorser.queue (endorser.orderer sys)).
Proof.
  intros w trace.
  assert (Z.of_nat (length (endorser.pushed trace)) ≤ max_int) as H1
    by (by vm_compute).
  split; [done|].
  exact (dispatch_safety trace H1).
Defined.

(** Sequence 0 is dispatched, then pushed a second time: the wrapper pushed
    under 1 afterwards is never sent. *)
Lemma stale_sequence_blocks_witness :
  let w (k : Z) : endorser.UnpackedProposalWrapper string unit :=
    endorser.mkWrapper "proposal"%string k None None in
  let trace1 := [endorser.EvPush (w 0); endorser.EvSignal; endorser.EvWorker;
                 endorser.EvPush (w 0)] in
  let trace2 := [endorser.EvSignal; endorser.EvWorker; endorser.EvPush (w 1);
                 endorser.EvSignal; endorser.EvWorker; endorser.EvPop] in
  let sys1 := endorser.mkSystem (endorser.mkOrderer 1 [w 0] [w 0] 0%nat)
                1%nat [] in
  Z.of_nat (length (endorser.pushed (trace1 ++ trace2))) ≤ max_int ∧
  endorser.exec endorser.NewSystem trace1 = Returns sys1 ∧
  w 0 ∈ endorser.queue (endorser.orderer sys1) ∧
  endorser.Sequence (w 0) < endorser.nextSequence (endorser.orderer sys1) ∧
  ∃ sys2,
    endorser.exec sys1 trace2 = Returns sys2 ∧
    endorser.dispatched sys2 = endorser.dispatched sys1 ∧
    endorser.nextSequence (endorser.orderer sys2)
      = endorser.nextSequence (endorser.orderer sys1) ∧
    w 0 ∈ endorser.queue (endorser.orderer sys2).
Proof.
  intros w trace1 trace2 sys1.
  assert (Z.of_nat (length (endorser.pushed (trace1 ++ trace2))) ≤ max_int)
    as H1 by (by vm_compute).
  assert (endorser.exec endorser.NewSystem trace1 = Returns sys1) as H2
    by (vm_compute; reflexivity).
  assert (w 0 ∈ endorser.queue (endorser.orderer sys1)) as H3
    by (simpl; left).
  assert (endorser.Sequence (w 0)
          < endorser.nextSequence (endorser.orderer sys1)) as H4
    by (by vm_compute).
  split; [done|]. split; [done|]. split; [done|]. split; [done|].
  exact (stale_sequence_blocks trace1 trace2 sys1 (w 0) H1 H2 H3 H4).
Defined.

(** Sequences 0 and 2 are pushed, sequence 1 is not. *)
Lemma missing_sequence_blocks_witness :
  let w (k : Z) : endorser.UnpackedProposalWrapper string unit :=
    endorser.mkWrapper "proposal"%string k None None in
  let trace := [endorser.EvPush (w 2); endorser.EvPush (w 0);
                endorser.EvSignal; endorser.EvSignal; endorser.EvWorker;
                endorser.EvWorker] in
  Z.of_nat (length (endorser.pushed trace)) ≤ max_int ∧
  0 ≤ 1 ∧
  (1 ∉ endorser.Sequence <$> endorser.pushed trace) ∧
  ∃ sys,
    endorser.exec endorser.NewSystem trace = Returns sys ∧
    endorser.nextSequence (endorser.orderer sys) ≤ 1 ∧
    Forall (λ x, endorser.Sequence x < 1) (endorser.dispatched sys).
Proof.
  intros w trace.
  assert (Z.of_nat (length (endorser.pushed trace)) ≤ max_int) as H1
    by (by vm_compute).
  assert (0 ≤ 1) as H2 by lia.
  assert (1 ∉ endorser.Sequence <$> endorser.pushed trace) as H3
    by (by apply (bool_decide_unpack _); vm_compute).
  split; [done|]. split; [done|]. split; [done|].
  exact (missing_sequence_blocks trace 1 H1 H2 H3).
Defined.

(** Two pushes whose signals are both handled by the first worker pass. *)
Lemma no_lost_wakeup_witness :
  let w (k : Z) : endorser.UnpackedProposalWrapper string unit :=
    endorser.mkWrapper "proposal"%string k None None in
  let trace := [endorser.EvPush (w 1); endorser.EvSignal; endorser.EvWorker;
                endorser.EvPush (w 0); endorser.EvSignal;
                endorser.EvWorker] in
  Z.of_nat (length (endorser.pushed trace)) ≤ max_int ∧
  ∃ sys,
    endorser.exec endorser.NewSystem trace = Returns sys ∧
    (∀ first,
       endorser.queue (endorser.orderer sys) !! 0%nat = Some first →
       endorser.Sequence first = endorser.nextSequence (endorser.orderer sys) →
       (0 < endorser.trySendCh (endorser.orderer sys)
            + endorser.signalling sys)%nat) ∧
    (endorser.signalling sys = 0%nat →
     endorser.trySendCh (endorser.orderer sys) = 0%nat →
     ∀ x, x ∈ endorser.queue (endorser.orderer sys) →
          endorser.Sequence x ≠ endorser.nextSequence (endorser.orderer sys)
          ∨ ∃ y, y ∈ endorser.queue (endorser.orderer sys) ∧
                 endorser.Sequence y
                 < endorser.nextSequence (endorser.orderer sys)).
Proof.
  intros w trace.
  assert (Z.of_nat (length (endorser.pushed trace)) ≤ max_int) as H1
    by (by vm_compute).
  split; [done|].
  exact (no_lost_wakeup trace H1).
Defined.

(** Envelopes of 30 bytes under an absolute limit of one byte and under
    one of a million bytes. *)
Lemma absolute_limit_ignored_witness :
  let small := mkBatchSize 10 1 100 in
  let large := mkBatchSize 10 1000000 100 in
  let inputs bs := [Sample.item "a" 30 "0" bs; Sample.item "b" 30 "1" bs;
                    Sample.item "c" 30 "2" bs; Sample.item "d" 30 "3" bs] in
  Forall2 (λ i i', i.1 = i'.1 ∧
                   MaxMessageCount i.2 = MaxMessageCount i'.2 ∧
                   PreferredMaxBytes i.2 = PreferredMaxBytes i'.2)
          (inputs small) (inputs large) ∧
  run Sample.size Sample.parse NewScheduler (inputs small)
  = run Sample.size Sample.parse NewScheduler (inputs large).
Proof.
  intros small large inputs.
  assert (Forall2 (λ i i', i.1 = i'.1 ∧
                           MaxMessageCount i.2 = MaxMessageCount i'.2 ∧
                           PreferredMaxBytes i.2 = PreferredMaxBytes i'.2)
                  (inputs small) (inputs large)) as H1
    by (repeat (apply Forall2_cons_2; [by vm_compute|]); apply Forall2_nil_2).
  split; [done|].
  exact (absolute_limit_ignored Sample.size Sample.parse
           (inputs small) (inputs large) NewScheduler H1).
Defined.
